(** * SimpleRDBMS: a shallow embedding of [src/db.js] and its specification

    The engine of [src/db.js] is a JavaScript class with two fields,
    [tables] and [history], and one entry point, [execute].  This
    development embeds the class as Rocq functions and settles the claims
    of the specification on them.

    Conventions of the embedding.

    - A JavaScript string is a [string]: a sequence of 8-bit code units,
      which stands for text in the ASCII range.  Case mapping acts on the
      ASCII letters and leaves the other code units alone; the white space
      of [trim], of [\s] and of numeric literals is TAB, LF, VT, FF, CR,
      SP and NBSP.
    - A JavaScript number is an IEEE 754 binary64 value, a [spec_float] of
      the standard library with precision 53 and maximal exponent 1024.
    - A JavaScript object is the ordered list of its own properties plus,
      where the code can change it, its prototype.  Property order is the
      one of [Object.keys]: array indices in ascending order first, then
      the other keys in creation order.
    - A handler runs in a state and exception monad over the catalog: a
      [throw] keeps the catalog as it is at that point, so that what a
      failed statement leaves behind is a theorem and not a convention.
    - The text of a message is represented by a constructor carrying the
      values that the template literal of the source interpolates. *)

From Stdlib Require Import ZArith List String Ascii Bool Lia.
From Stdlib Require Import Floats.SpecFloat.
Import ListNotations.

Local Open Scope string_scope.
Local Open Scope list_scope.

(** ** Strings: the methods of [String.prototype] used by the engine *)

Module JSString.

Definition code (c : ascii) : N := N_of_ascii c.

(** White space and line terminators, as stripped by [trim] and matched
    by [\s]. *)
Definition is_space (c : ascii) : bool :=
  let n := code c in
  ((9 <=? n) && (n <=? 13) || (n =? 32) || (n =? 160))%N.

Definition is_line_terminator (c : ascii) : bool :=
  let n := code c in ((n =? 10) || (n =? 13))%N.

Definition is_upper (c : ascii) : bool :=
  let n := code c in ((65 <=? n) && (n <=? 90))%N.

Definition is_lower (c : ascii) : bool :=
  let n := code c in ((97 <=? n) && (n <=? 122))%N.

Definition is_digit (c : ascii) : bool :=
  let n := code c in ((48 <=? n) && (n <=? 57))%N.

(** [\w] is [A-Za-z0-9_]. *)
Definition is_word (c : ascii) : bool :=
  is_upper c || is_lower c || is_digit c || (code c =? 95)%N.

Definition upper_char (c : ascii) : ascii :=
  if is_lower c then ascii_of_N (code c - 32) else c.

Definition lower_char (c : ascii) : ascii :=
  if is_upper c then ascii_of_N (code c + 32) else c.

Fixpoint map_chars (f : ascii -> ascii) (s : string) : string :=
  match s with
  | EmptyString => EmptyString
  | String c s' => String (f c) (map_chars f s')
  end.

Definition toUpperCase : string -> string := map_chars upper_char.
Definition toLowerCase : string -> string := map_chars lower_char.

Fixpoint rev_onto (s acc : string) : string :=
  match s with
  | EmptyString => acc
  | String c s' => rev_onto s' (String c acc)
  end.

Definition rev (s : string) : string := rev_onto s EmptyString.

Fixpoint trimStart (s : string) : string :=
  match s with
  | EmptyString => EmptyString
  | String c s' => if is_space c then trimStart s' else s
  end.

Definition trimEnd (s : string) : string := rev (trimStart (rev s)).

Definition trim (s : string) : string := trimEnd (trimStart s).

(** [s.startsWith(p)] *)
Fixpoint startsWith (p s : string) : bool :=
  match p, s with
  | EmptyString, _ => true
  | String a p', String b s' => Ascii.eqb a b && startsWith p' s'
  | String _ _, EmptyString => false
  end.

(** [s.endsWith(p)] *)
Definition endsWith (p s : string) : bool := startsWith (rev p) (rev s).

(** [s.includes(p)] *)
Fixpoint includes (p s : string) : bool :=
  startsWith p s ||
  match s with
  | EmptyString => false
  | String _ s' => includes p s'
  end.

Fixpoint take (n : nat) (s : string) : string :=
  match n, s with
  | S k, String c s' => String c (take k s')
  | _, _ => EmptyString
  end.

Fixpoint drop (n : nat) (s : string) : string :=
  match n, s with
  | S k, String _ s' => drop k s'
  | _, _ => s
  end.

(** [s.slice(from, to)], with the relative indices of the language: a
    negative index counts from the end, both are clamped to the string. *)
Definition slice (s : string) (from to : Z) : string :=
  let len := Z.of_nat (String.length s) in
  let clamp i := if (i <? 0)%Z then Z.max (len + i) 0 else Z.min i len in
  let a := clamp from in
  let b := clamp to in
  take (Z.to_nat (Z.max (b - a) 0)) (drop (Z.to_nat a) s).

(** [s.split(sep)] for a string separator.  [skip] counts the code units
    of a separator occurrence still to be passed over; [cur] is the piece
    being accumulated. *)
Fixpoint split_go (sep s : string) (skip : nat) (cur : string) : list string :=
  match s with
  | EmptyString => [cur]
  | String c s' =>
      match skip with
      | S k => split_go sep s' k cur
      | O =>
          if startsWith sep s
          then cur :: split_go sep s' (String.length sep - 1) EmptyString
          else split_go sep s' 0 (cur ++ String c EmptyString)
      end
  end.

Fixpoint chars (s : string) : list string :=
  match s with
  | EmptyString => []
  | String c s' => String c EmptyString :: chars s'
  end.

Definition split (sep s : string) : list string :=
  match sep with
  | EmptyString => chars s
  | _ => split_go sep s 0 EmptyString
  end.

(** [s.split(/\s+/)]: the pieces between maximal runs of white space.
    [in_run] tells that the previous code unit was white space. *)
Fixpoint split_ws_go (s : string) (in_run : bool) (cur : string) : list string :=
  match s with
  | EmptyString => [cur]
  | String c s' =>
      if is_space c
      then if in_run then split_ws_go s' true cur
           else cur :: split_ws_go s' true EmptyString
      else split_ws_go s' false (cur ++ String c EmptyString)
  end.

Definition split_ws (s : string) : list string := split_ws_go s false EmptyString.

(** Truthiness of a string: only the empty string is falsy. *)
Definition truthy (s : string) : bool :=
  match s with EmptyString => false | _ => true end.

End JSString.

Import JSString.

(** ** Numbers: binary64 values and [Number(string)] *)

Module JSNumber.

Definition number := spec_float.

Definition prec : Z := 53.
Definition emax : Z := 1024.

Definition NaN : number := S754_nan.
Definition Infinity : number := S754_infinity false.
Definition zero : number := S754_zero false.

(** The number value of a non-negative integer. *)
Definition of_Z (n : Z) : number := binary_normalize prec emax n 0 false.

(** The number value of [m * 10^e], for [m >= 0]: the nearest binary64
    value, ties to even. *)
Definition of_decimal (m e : Z) : number :=
  match m with
  | Zpos p =>
      match e with
      | Zneg k =>
          SFdiv prec emax (S754_finite false p 0)
                (S754_finite false (Pos.pow 10 k) 0)
      | _ => of_Z (m * 10 ^ e)
      end
  | _ => zero
  end.

Definition isNaN (x : number) : bool :=
  match x with S754_nan => true | _ => false end.

Definition eqb : number -> number -> bool := SFeqb.
Definition ltb : number -> number -> bool := SFltb.

(** Digits of a literal in a given radix. *)
Definition digit_value (c : ascii) : option Z :=
  let n := Z.of_N (code c) in
  if is_digit c then Some (n - 48)%Z
  else if ((97 <=? n) && (n <=? 102))%Z then Some (n - 87)%Z
  else if ((65 <=? n) && (n <=? 70))%Z then Some (n - 55)%Z
  else None.

(** [digits radix s acc n] reads the longest run of digits at the head of
    [s]: the value accumulated onto [acc], the number of digits read added
    to [n], and the rest of the string. *)
Fixpoint digits (radix : Z) (s : string) (acc : Z) (n : nat) : Z * nat * string :=
  match s with
  | EmptyString => (acc, n, s)
  | String c s' =>
      match digit_value c with
      | Some d =>
          if (d <? radix)%Z then digits radix s' (acc * radix + d)%Z (S n)
          else (acc, n, s)
      | None => (acc, n, s)
      end
  end.

(** [ExponentPart_opt] followed by the end of the literal. *)
Definition exponent_part (s : string) : option Z :=
  match s with
  | EmptyString => Some 0%Z
  | String c s' =>
      if Ascii.eqb c "e" || Ascii.eqb c "E" then
        let '(neg, s'') :=
          match s' with
          | String "+" t => (false, t)
          | String "-" t => (true, t)
          | _ => (false, s')
          end in
        match digits 10 s'' 0 0 with
        | (v, S _, EmptyString) => Some (if neg then (- v)%Z else v)
        | _ => None
        end
      else None
  end.

(** [StrUnsignedDecimalLiteral], except [Infinity]. *)
Definition unsigned_decimal (s : string) : option number :=
  let '(ip, ni, s1) := digits 10 s 0 0 in
  let '(m, nf, s2) :=
    match s1 with
    | String "." t => digits 10 t ip 0
    | _ => (ip, O, s1)
    end in
  match ni, nf with
  | O, O => None
  | _, _ =>
      match exponent_part s2 with
      | Some e => Some (of_decimal m (e - Z.of_nat nf))
      | None => None
      end
  end.

Definition str_decimal (s : string) : option number :=
  let '(neg, body) :=
    match s with
    | String "+" t => (false, t)
    | String "-" t => (true, t)
    | _ => (false, s)
    end in
  let v :=
    if String.eqb body "Infinity" then Some Infinity
    else unsigned_decimal body in
  match v with
  | Some x => Some (if neg then SFopp x else x)
  | None => None
  end.

(** [NonDecimalIntegerLiteral]: [0x], [0o] and [0b] literals take no sign. *)
Definition non_decimal (s : string) : option number :=
  match s with
  | String "0" (String c t) =>
      let radix :=
        if Ascii.eqb (lower_char c) "x" then Some 16%Z
        else if Ascii.eqb (lower_char c) "o" then Some 8%Z
        else if Ascii.eqb (lower_char c) "b" then Some 2%Z
        else None in
      match radix with
      | Some r =>
          match digits r t 0 0 with
          | (v, S _, EmptyString) => Some (of_Z v)
          | _ => None
          end
      | None => None
      end
  | _ => None
  end.

(** [Number(s)] on a string ([StringToNumber]): white space is stripped,
    the empty literal is [+0], anything outside the grammar is [NaN]. *)
Definition Number (s : string) : number :=
  let t := trim s in
  match t with
  | EmptyString => zero
  | _ =>
      match non_decimal t with
      | Some x => x
      | None =>
          match str_decimal t with
          | Some x => x
          | None => NaN
          end
      end
  end.

End JSNumber.

Import JSNumber.

(** ** Values: coercion, equality and ordering *)

Module JSValue.

(** What a row stores: the results of [_parseValue] and the raw quoted
    tokens of [_parseValues]. *)
Inductive prim :=
| PNull
| PBool (b : bool)
| PNum (n : number)
| PStr (s : string).

(** What a property access yields: [undefined], a stored value, or the
    member [name] of [Object.prototype] reached through the prototype
    chain (for [name = "__proto__"], [Object.prototype] itself). *)
Inductive value :=
| VUndefined
| VPrim (p : prim)
| VNative (name : string).

(** The members of [Object.prototype]. *)
Definition object_prototype_names : list string :=
  [ "constructor"; "__defineGetter__"; "__defineSetter__"; "hasOwnProperty";
    "__lookupGetter__"; "__lookupSetter__"; "isPrototypeOf";
    "propertyIsEnumerable"; "toString"; "valueOf"; "__proto__";
    "toLocaleString" ].

Definition inherited (k : string) : bool :=
  existsb (String.eqb k) object_prototype_names.

(** [ToPrimitive] of a member of [Object.prototype]: [valueOf] returns the
    object, so the result is that of [toString]. *)
Definition native_text (name : string) : string :=
  if String.eqb name "__proto__" then "[object Object]"
  else
    let f := if String.eqb name "constructor" then "Object" else name in
    "function " ++ f ++ "() { [native code] }".

(** [ToNumber]. *)
Definition to_number (v : value) : number :=
  match v with
  | VUndefined => NaN
  | VPrim PNull => zero
  | VPrim (PBool b) => if b then of_Z 1 else zero
  | VPrim (PNum n) => n
  | VPrim (PStr s) => Number s
  | VNative name => Number (native_text name)
  end.

(** The string that [ToPrimitive] turns a string or an object into. *)
Definition as_string (v : value) : option string :=
  match v with
  | VPrim (PStr s) => Some s
  | VNative name => Some (native_text name)
  | _ => None
  end.

Definition nullish (v : value) : bool :=
  match v with
  | VUndefined | VPrim PNull => true
  | _ => false
  end.

(** [x === y] *)
Definition strict_eq (x y : value) : bool :=
  match x, y with
  | VUndefined, VUndefined => true
  | VPrim PNull, VPrim PNull => true
  | VPrim (PBool a), VPrim (PBool b) => Bool.eqb a b
  | VPrim (PNum a), VPrim (PNum b) => JSNumber.eqb a b
  | VPrim (PStr a), VPrim (PStr b) => String.eqb a b
  | VNative a, VNative b => String.eqb a b
  | _, _ => false
  end.

(** [x == y]: [null] and [undefined] equal each other and nothing else;
    two objects are equal when they are the same object; a string and a
    string (after [ToPrimitive]) compare as strings; every other pair
    compares the numbers that the operands convert to. *)
Definition loose_eq (x y : value) : bool :=
  if nullish x || nullish y then nullish x && nullish y
  else
    match x, y with
    | VNative a, VNative b => String.eqb a b
    | _, _ =>
        match as_string x, as_string y with
        | Some a, Some b => String.eqb a b
        | _, _ => JSNumber.eqb (to_number x) (to_number y)
        end
    end.

(** Code-unit order on strings. *)
Fixpoint str_ltb (a b : string) : bool :=
  match a, b with
  | _, EmptyString => false
  | EmptyString, String _ _ => true
  | String x a', String y b' =>
      if (code x <? code y)%N then true
      else if (code y <? code x)%N then false
      else str_ltb a' b'
  end.

(** [IsLessThan(x, y)]: [None] is the undefined outcome of a comparison
    with [NaN]. *)
Definition less_than (x y : value) : option bool :=
  match as_string x, as_string y with
  | Some a, Some b => Some (str_ltb a b)
  | _, _ =>
      let nx := to_number x in
      let ny := to_number y in
      if isNaN nx || isNaN ny then None else Some (JSNumber.ltb nx ny)
  end.

(** [x < y], [x > y], [x <= y], [x >= y] *)
Definition lt (x y : value) : bool :=
  match less_than x y with Some true => true | _ => false end.
Definition gt (x y : value) : bool :=
  match less_than y x with Some true => true | _ => false end.
Definition le (x y : value) : bool :=
  match less_than y x with Some false => true | _ => false end.
Definition ge (x y : value) : bool :=
  match less_than x y with Some false => true | _ => false end.

End JSValue.

Import JSValue.

(** ** Objects: own properties in [Object.keys] order, and prototypes *)

Module JSObject.

Definition props (V : Type) := list (string * V).

Section Own.
Context {V : Type}.

Fixpoint own_get (k : string) (l : props V) : option V :=
  match l with
  | [] => None
  | (k', v) :: l' => if String.eqb k k' then Some v else own_get k l'
  end.

Definition own_has (k : string) (l : props V) : bool :=
  match own_get k l with Some _ => true | None => false end.

(** [Object.keys] *)
Definition keys (l : props V) : list string := map fst l.

Fixpoint replace (k : string) (v : V) (l : props V) : props V :=
  match l with
  | [] => []
  | (k', v') :: l' =>
      if String.eqb k k' then (k', v) :: l' else (k', v') :: replace k v l'
  end.

(** [delete o[k]] *)
Definition own_delete (k : string) (l : props V) : props V :=
  filter (fun kv => negb (String.eqb k (fst kv))) l.
End Own.

(** An array index is the canonical decimal form of an integer below
    [2^32 - 1]. *)
Definition array_index (k : string) : option Z :=
  match k with
  | EmptyString => None
  | String c t =>
      if Ascii.eqb c "0" && negb (String.eqb t EmptyString) then None
      else
        match digits 10 k 0 0 with
        | (v, _, EmptyString) => if (v <? 2 ^ 32 - 1)%Z then Some v else None
        | _ => None
        end
  end.

Section Insert.
Context {V : Type}.

(** A new array index goes before the first key that is a larger index
    or no index at all. *)
Fixpoint insert_index (i : Z) (k : string) (v : V) (l : props V) : props V :=
  match l with
  | [] => [(k, v)]
  | (k', v') :: l' =>
      match array_index k' with
      | Some j =>
          if (j <? i)%Z then (k', v') :: insert_index i k v l'
          else (k, v) :: l
      | None => (k, v) :: l
      end
  end.

(** Defining or overwriting an own data property. *)
Definition own_put (k : string) (v : V) (l : props V) : props V :=
  if own_has k l then replace k v l
  else
    match array_index k with
    | Some i => insert_index i k v l
    | None => l ++ [(k, v)]
    end.

(** [o[k] = v] on an object literal whose prototype is
    [Object.prototype], for a value that the [__proto__] setter does not
    turn into an observable prototype: a string is ignored by the
    setter, and the [{unique: true}] marker of the constraints becomes a
    prototype that no code path reads. *)
Definition set_plain (k : string) (v : V) (l : props V) : props V :=
  if String.eqb k "__proto__" && negb (own_has k l) then l
  else own_put k v l.
End Insert.

(** Rows, and the [updates] object of [_update]: own properties holding
    stored values, and a prototype that is [Object.prototype] or, after
    an assignment of [null] to [__proto__], [null]. *)
Record obj := mkObj {
  obj_proto : bool;
  obj_own : props prim
}.

(** [{}] *)
Definition empty_obj : obj := mkObj true [].

(** [o[k]] *)
Definition obj_get (o : obj) (k : string) : value :=
  match own_get k (obj_own o) with
  | Some p => VPrim p
  | None => if obj_proto o && inherited k then VNative k else VUndefined
  end.

(** [k in o] *)
Definition obj_has (o : obj) (k : string) : bool :=
  own_has k (obj_own o) || (obj_proto o && inherited k).

(** [o[k] = p].  Without an own [__proto__] property the key reaches the
    accessor of [Object.prototype], whose setter installs [null] as
    prototype and ignores every other stored value. *)
Definition obj_set (o : obj) (k : string) (p : prim) : obj :=
  if String.eqb k "__proto__" && negb (own_has k (obj_own o)) && obj_proto o
  then match p with
       | PNull => mkObj false (obj_own o)
       | _ => o
       end
  else mkObj (obj_proto o) (own_put k p (obj_own o)).

(** [Object.assign(target, source)] *)
Definition assign (target source : obj) : obj :=
  fold_left (fun t kv => obj_set t (fst kv) (snd kv)) (obj_own source) target.

(** The prototype of a result object. *)
Inductive proto :=
| ProtoObject
| ProtoNull
| ProtoFunction (name : string).

(** The objects handed out in [data]: projected rows and the records of
    SHOW TABLES and DESCRIBE. *)
Record record := mkRecord {
  rec_proto : proto;
  rec_own : props value
}.

Definition empty_record : record := mkRecord ProtoObject [].

(** [o[k] = v] on a result object.  The setter of [__proto__] installs
    [null] or an object as prototype; [_select] only ever hands it the
    value that the row has under [__proto__], so that a function is never
    installed (lemma [project_proto] below). *)
Definition rec_set (o : record) (k : string) (v : value) : record :=
  let accessor :=
    match rec_proto o with ProtoNull => false | _ => true end in
  if String.eqb k "__proto__" && negb (own_has k (rec_own o)) && accessor
  then match v with
       | VPrim PNull => mkRecord ProtoNull (rec_own o)
       | VNative name =>
           mkRecord (if String.eqb name "__proto__" then ProtoObject
                     else ProtoFunction name) (rec_own o)
       | _ => o
       end
  else mkRecord (rec_proto o) (own_put k v (rec_own o)).

(** An object literal [{k1: v1, ...}]. *)
Definition literal (l : props value) : record :=
  mkRecord ProtoObject (fold_left (fun acc kv => own_put (fst kv) (snd kv) acc) l []).

End JSObject.

Import JSObject.

(** ** Regular expressions: a backtracking matcher for the patterns of the
    engine, all of which carry the [i] flag *)

Module Regex.

Inductive cclass :=
| Word   (* \w *)
| Dot.   (* .  *)

Definition in_class (k : cclass) (c : ascii) : bool :=
  match k with
  | Word => is_word c
  | Dot => negb (is_line_terminator c)
  end.

Inductive regex :=
| Eps
| Lit (s : string)              (* literal text, compared without case *)
| Plus (k : cclass)             (* greedy [k+] *)
| Group (n : nat) (r : regex)   (* capturing group number [n] *)
| Seq (r1 r2 : regex)
| Opt (r : regex).              (* greedy [(?: r)?] *)

Definition seq (l : list regex) : regex := fold_right Seq Eps l.

(** Captures, the most recent binding of a group first. *)
Definition captures := list (nat * string).

Fixpoint capture (n : nat) (m : captures) : option string :=
  match m with
  | [] => None
  | (n', s) :: m' => if Nat.eqb n n' then Some s else capture n m'
  end.

(** A group that takes part in every match. *)
Definition group (n : nat) (m : captures) : string :=
  match capture n m with Some s => s | None => EmptyString end.

Definition same_char (a b : ascii) : bool :=
  Ascii.eqb (upper_char a) (upper_char b).

(** The text matched between two positions: [s] minus its suffix [rest]. *)
Definition consumed (s rest : string) : string :=
  take (String.length s - String.length rest) s.

Section Match.
Context {A : Type}.

Fixpoint lit (p s : string) (k : string -> option A) : option A :=
  match p with
  | EmptyString => k s
  | String a p' =>
      match s with
      | String b s' => if same_char a b then lit p' s' k else None
      | EmptyString => None
      end
  end.

(** Greedy repetition: take as many code units as the class allows,
    and give them back one at a time while the continuation fails. *)
Fixpoint star (c : cclass) (s : string) (k : string -> option A) : option A :=
  match s with
  | String a s' =>
      if in_class c a then
        match star c s' k with
        | Some r => Some r
        | None => k s
        end
      else k s
  | EmptyString => k s
  end.

Definition plus (c : cclass) (s : string) (k : string -> option A) : option A :=
  match s with
  | String a s' => if in_class c a then star c s' k else None
  | EmptyString => None
  end.
End Match.

Fixpoint run (r : regex) (s : string) (m : captures)
         (k : string -> captures -> option captures) : option captures :=
  match r with
  | Eps => k s m
  | Lit p => lit p s (fun rest => k rest m)
  | Plus c => plus c s (fun rest => k rest m)
  | Group n r' =>
      run r' s m (fun rest m' => k rest ((n, consumed s rest) :: m'))
  | Seq r1 r2 => run r1 s m (fun rest m' => run r2 rest m' k)
  | Opt r' =>
      match run r' s m k with
      | Some x => Some x
      | None => k s m
      end
  end.

Definition match_here (r : regex) (s : string) : option captures :=
  run r s [] (fun _ m => Some m).

(** [s.match(r)] for a pattern without the [g] flag: the match at the
    leftmost position that has one. *)
Fixpoint exec (r : regex) (s : string) : option captures :=
  match match_here r s with
  | Some m => Some m
  | None =>
      match s with
      | EmptyString => None
      | String _ s' => exec r s'
      end
  end.

End Regex.

Import Regex.

(** ** The engine *)

(** [/CREATE TABLE (\w+) \((.+)\)/i] *)
Definition create_re : regex :=
  seq [Lit "CREATE TABLE "; Group 1 (Plus Word); Lit " (";
       Group 2 (Plus Dot); Lit ")"].

(** [/INSERT INTO (\w+) VALUES \((.+)\)/i] *)
Definition insert_re : regex :=
  seq [Lit "INSERT INTO "; Group 1 (Plus Word); Lit " VALUES (";
       Group 2 (Plus Dot); Lit ")"].

(** [/SELECT (.+) FROM (\w+)(?: WHERE (.+))?/i] *)
Definition select_re : regex :=
  seq [Lit "SELECT "; Group 1 (Plus Dot); Lit " FROM "; Group 2 (Plus Word);
       Opt (seq [Lit " WHERE "; Group 3 (Plus Dot)])].

(** [/DESCRIBE (\w+)/i] *)
Definition describe_re : regex :=
  seq [Lit "DESCRIBE "; Group 1 (Plus Word)].

(** [/UPDATE (\w+) SET (.+)(?: WHERE (.+))?/i] *)
Definition update_re : regex :=
  seq [Lit "UPDATE "; Group 1 (Plus Word); Lit " SET "; Group 2 (Plus Dot);
       Opt (seq [Lit " WHERE "; Group 3 (Plus Dot)])].

(** [/DELETE FROM (\w+)(?: WHERE (.+))?/i] *)
Definition delete_re : regex :=
  seq [Lit "DELETE FROM "; Group 1 (Plus Word);
       Opt (seq [Lit " WHERE "; Group 2 (Plus Dot)])].

(** [/DROP TABLE (\w+)/i] *)
Definition drop_re : regex :=
  seq [Lit "DROP TABLE "; Group 1 (Plus Word)].

(** *** Data model *)

(** A value of the [constraints] object: the column name stored under
    [primaryKey], or the [{unique: true}] marker stored under a column. *)
Inductive constraint :=
| CKey (col : string)
| CUnique.

(** [{columns, constraints, rows, indexes}] *)
Record table := mkTable {
  columns : props string;
  constraints : props constraint;
  rows : list obj;
  indexes : props prim
}.

(** [this.tables] *)
Definition catalog := props table.

Record engine := mkEngine {
  tables : catalog;
  history : list string
}.

(** [new SimpleRDBMS()] *)
Definition constructor : engine := mkEngine [] [].

(** [this.tables[name]]: a table, a member of [Object.prototype] (truthy,
    with no [columns] and no [rows]), or [undefined]. *)
Inductive slot :=
| Own (t : table)
| Inherited
| Absent.

Definition tables_get (c : catalog) (name : string) : slot :=
  match own_get name c with
  | Some t => Own t
  | None => if inherited name then Inherited else Absent
  end.

(** *** Results *)

Inductive message :=
| TableCreated (name : string)    (* `Table ${tableName} created` *)
| RowInserted                     (* "1 row inserted" *)
| RowsUpdated (affected : nat)    (* `${affected} row(s) updated` *)
| RowsDeleted (deleted : nat)     (* `${deleted} row(s) deleted` *)
| TableDropped (name : string).   (* `Table ${tableName} dropped` *)

Inductive error :=
| InvalidSyntax (statement : string)   (* `Invalid ${statement} syntax` *)
| TableExists (name : string)          (* `Table ${tableName} already exists` *)
| NoTable (name : string)              (* `Table ${tableName} doesn't exist` *)
| Arity (expected got : nat)           (* `Expected ${...} values, got ${...}` *)
| DuplicateKey (pkValue : value)       (* `Duplicate primary key: ${pkValue}` *)
| UnknownCommand (command : string)    (* `Unknown command: ${command}` *)
| TypeError.                           (* raised by the language itself *)

(** The object returned by [execute]. *)
Inductive result :=
| RMessage (m : message)                        (* { message } *)
| RData (data : list record) (count : nat)
        (cols : option (list string))           (* { data, count, columns? } *)
| RError (e : error).                           (* { error } *)

(** How a call ends: with a returned value, or with an exception that
    reaches the caller. *)
Inductive outcome :=
| Returned (r : result)
| Thrown (e : error).

(** *** The monad of the handlers: catalog state and exceptions *)

Definition M (A : Type) : Type := catalog -> catalog * (error + A).

Definition ret {A} (a : A) : M A := fun c => (c, inr a).

Definition bind {A B} (m : M A) (f : A -> M B) : M B :=
  fun c =>
    match m c with
    | (c', inl e) => (c', inl e)
    | (c', inr a) => f a c'
    end.

Definition throw {A} (e : error) : M A := fun c => (c, inl e).

Definition get : M catalog := fun c => (c, inr c).

Definition put (c' : catalog) : M unit := fun _ => (c', inr tt).

(** A computation that can throw but does not touch the catalog. *)
Definition lift {A} (x : error + A) : M A := fun c => (c, x).

Declare Scope js_scope.
Delimit Scope js_scope with js.
Notation "x <- m ;; k" := (bind m (fun x => k))
  (at level 100, m at next level, right associativity) : js_scope.
Notation "m ;; k" := (bind m (fun _ => k))
  (at level 100, right associativity) : js_scope.
Local Open Scope js_scope.

(** *** Value parser *)

(** The two quote characters, as one-character strings. *)
Definition squote : string := String (ascii_of_N 39) EmptyString.
Definition dquote : string := String (ascii_of_N 34) EmptyString.

Definition _parseValue (str : string) : prim :=
  if startsWith squote str && endsWith squote str then PStr (slice str 1 (-1))
  else if startsWith dquote str && endsWith dquote str then PStr (slice str 1 (-1))
  else if String.eqb (toLowerCase str) "null" then PNull
  else if String.eqb (toLowerCase str) "true" then PBool true
  else if String.eqb (toLowerCase str) "false" then PBool false
  else if negb (isNaN (Number str)) then PNum (Number str)
  else PStr str.

(** The variables of the scanner of [_parseValues]. *)
Record scanner := mkScanner {
  values : list prim;
  current : string;
  inQuotes : bool;
  quoteChar : string
}.

(** One iteration of [for (let char of valuesStr)]. *)
Definition scan_char (st : scanner) (c : ascii) : scanner :=
  let char := String c EmptyString in
  if (String.eqb char squote || String.eqb char dquote) && negb (inQuotes st) then
    mkScanner (values st) (current st ++ char) true char
  else if String.eqb char (quoteChar st) && inQuotes st then
    mkScanner (values st ++ [PStr (current st ++ char)]) EmptyString false (quoteChar st)
  else if String.eqb char "," && negb (inQuotes st) then
    mkScanner
      (if truthy (trim (current st))
       then values st ++ [_parseValue (trim (current st))]
       else values st)
      EmptyString (inQuotes st) (quoteChar st)
  else
    mkScanner (values st) (current st ++ char) (inQuotes st) (quoteChar st).

Definition _parseValues (valuesStr : string) : list prim :=
  let st :=
    fold_left scan_char (list_ascii_of_string valuesStr)
              (mkScanner [] EmptyString false EmptyString) in
  if truthy (trim (current st))
  then values st ++ [_parseValue (trim (current st))]
  else values st.

(** *** Predicate evaluator *)

Definition operators : list string := [">="; "<="; "!="; "<>"; "="; "<"; ">"].

(** [switch (op)]: [None] when no [case] applies. *)
Definition compare_with (op : string) (leftVal rightVal : value) : option bool :=
  if String.eqb op "=" then Some (loose_eq leftVal rightVal)
  else if String.eqb op "!=" || String.eqb op "<>" then Some (negb (loose_eq leftVal rightVal))
  else if String.eqb op "<" then Some (lt leftVal rightVal)
  else if String.eqb op ">" then Some (gt leftVal rightVal)
  else if String.eqb op "<=" then Some (le leftVal rightVal)
  else if String.eqb op ">=" then Some (ge leftVal rightVal)
  else None.

(** [const [left, right] = condition.split(op).map((s) => s.trim())]: the
    first two pieces.  The second one exists whenever [op] occurs in the
    condition (lemma [split_includes] below), which is the only case in
    which the source destructures. *)
Definition operands (op condition : string) : string * string :=
  let pieces := map trim (split op condition) in
  (nth 0 pieces EmptyString, nth 1 pieces EmptyString).

(** The body of the loop over [operators]. *)
Fixpoint evaluate_from (ops : list string) (row : obj) (condition : string) : bool :=
  match ops with
  | [] => false
  | op :: ops' =>
      if includes op condition then
        let '(lhs, rhs) := operands op condition in
        let leftVal := obj_get row lhs in
        let rightVal := VPrim (_parseValue rhs) in
        match compare_with op leftVal rightVal with
        | Some b => b
        | None => evaluate_from ops' row condition
        end
      else evaluate_from ops' row condition
  end.

Definition _evaluateWhere (row : obj) (condition : string) : bool :=
  evaluate_from operators row condition.

(** Truthiness of an optional capture. *)
Definition present (w : option string) : bool :=
  match w with Some s => truthy s | None => false end.

(** *** Handlers *)

(** The callback of [columnsDef.split(",").forEach] in [_createTable],
    acting on the local objects [columns] and [constraints].  Reading
    [parts[1].toUpperCase()] on a definition of one word is a [TypeError]. *)
Definition column_definition (acc : error + props string * props constraint)
           (colDef : string) : error + props string * props constraint :=
  match acc with
  | inl e => inl e
  | inr (cols, cstr) =>
      let parts := split_ws (trim colDef) in
      let colName := nth 0 parts EmptyString in
      match nth_error parts 1 with
      | None => inl TypeError
      | Some p1 =>
          let colType := toUpperCase p1 in
          let cols := set_plain colName colType cols in
          let cstr :=
            if existsb (String.eqb "PRIMARY") parts
            then set_plain "primaryKey" (CKey colName) cstr else cstr in
          let cstr :=
            if existsb (String.eqb "UNIQUE") parts
            then set_plain colName CUnique cstr else cstr in
          inr (cols, cstr)
      end
  end.

Definition _createTable (sql : string) : M message :=
  match exec create_re sql with
  | None => throw (InvalidSyntax "CREATE TABLE")
  | Some m =>
      let tableName := group 1 m in
      let columnsDef := group 2 m in
      c <- get ;;
      match tables_get c tableName with
      | Own _ | Inherited => throw (TableExists tableName)
      | Absent =>
          defs <- lift (fold_left column_definition (split "," columnsDef)
                                  (inr ([], []))) ;;
          put (own_put tableName (mkTable (fst defs) (snd defs) [] []) c) ;;
          ret (TableCreated tableName)
      end
  end.

(** [columnNames.indexOf(col)] *)
Fixpoint indexOf (col : string) (l : list string) : option nat :=
  match l with
  | [] => None
  | x :: l' =>
      if String.eqb col x then Some 0
      else match indexOf col l' with Some i => Some (S i) | None => None end
  end.

(** [values[i]] *)
Definition element (vs : list prim) (i : option nat) : value :=
  match i with
  | Some n => match nth_error vs n with Some p => VPrim p | None => VUndefined end
  | None => VUndefined
  end.

(** [table.constraints.primaryKey] as the [if] of [_insert] and its body
    use it: falsy, or a value used as property key and looked up in
    [columnNames].  The marker object is truthy, converts to the key
    ["[object Object]"] and is no element of [columnNames]. *)
Definition primary_key (t : table) : option (string * option nat) :=
  match own_get "primaryKey" (constraints t) with
  | Some (CKey pkCol) =>
      if truthy pkCol then Some (pkCol, indexOf pkCol (keys (columns t)))
      else None
  | Some CUnique => Some ("[object Object]", None)
  | None => None
  end.

Definition _insert (sql : string) : M message :=
  match exec insert_re sql with
  | None => throw (InvalidSyntax "INSERT")
  | Some m =>
      let tableName := group 1 m in
      let valuesStr := group 2 m in
      c <- get ;;
      match tables_get c tableName with
      | Absent => throw (NoTable tableName)
      | Inherited => throw TypeError   (* Object.keys(undefined) *)
      | Own t =>
          let vals := _parseValues valuesStr in
          let columnNames := keys (columns t) in
          if negb (Nat.eqb (List.length vals) (List.length columnNames)) then
            throw (Arity (List.length columnNames) (List.length vals))
          else
            (match primary_key t with
             | Some (pkCol, pkIndex) =>
                 let pkValue := element vals pkIndex in
                 if existsb (fun row => strict_eq (obj_get row pkCol) pkValue) (rows t)
                 then throw (DuplicateKey pkValue)
                 else ret tt
             | None => ret tt
             end) ;;
            let row :=
              fold_left (fun r cv => obj_set r (fst cv) (snd cv))
                        (combine columnNames vals) empty_obj in
            put (replace tableName
                   (mkTable (columns t) (constraints t) (rows t ++ [row]) (indexes t)) c) ;;
            ret RowInserted
      end
  end.

(** The callback of [rows.map] in [_select]: [selected[col] = row[col]] for
    the requested columns that are [in] the row. *)
Definition project (columnNames : list string) (row : obj) : record :=
  fold_left
    (fun selected col =>
       if obj_has row col then rec_set selected col (obj_get row col)
       else selected)
    columnNames empty_record.

Definition _select (sql : string) : M result :=
  match exec select_re sql with
  | None => throw (InvalidSyntax "SELECT")
  | Some m =>
      let cols := group 1 m in
      let tableName := group 2 m in
      let whereClause := capture 3 m in
      c <- get ;;
      match tables_get c tableName with
      | Absent => throw (NoTable tableName)
      | Inherited => throw TypeError   (* rows is undefined *)
      | Own t =>
          let rs :=
            match whereClause with
            | Some w =>
                if truthy w then filter (fun row => _evaluateWhere row w) (rows t)
                else rows t
            | None => rows t
            end in
          let columnNames :=
            if String.eqb cols "*" then keys (columns t)
            else map trim (split "," cols) in
          let data := map (project columnNames) rs in
          ret (RData data (List.length data) (Some columnNames))
      end
  end.

Definition _showTables : M result :=
  c <- get ;;
  let names := keys c in
  ret (RData (map (fun name => literal [("Table", VPrim (PStr name))]) names)
             (List.length names) None).

Definition _describe (sql : string) : M result :=
  match exec describe_re sql with
  | None => throw (InvalidSyntax "DESCRIBE")
  | Some m =>
      let tableName := group 1 m in
      c <- get ;;
      match tables_get c tableName with
      | Absent => throw (NoTable tableName)
      | Inherited => throw TypeError   (* Object.entries(undefined) *)
      | Own t =>
          let is_pk name :=
            match own_get "primaryKey" (constraints t) with
            | Some (CKey pk) => String.eqb name pk
            | _ => false
            end in
          let data :=
            map (fun nt =>
                   literal [("Field", VPrim (PStr (fst nt)));
                            ("Type", VPrim (PStr (snd nt)));
                            ("Key", VPrim (PStr (if is_pk (fst nt) then "PRI"
                                                 else EmptyString)))])
                (columns t) in
          ret (RData data (List.length data) None)
      end
  end.

(** The callback of [setClause.split(",").forEach] in [_update], acting on
    the local object [updates].  A pair without [=] leaves [val] undefined,
    and [_parseValue(undefined)] is a [TypeError]. *)
Definition assignment (acc : error + obj) (pair : string) : error + obj :=
  match acc with
  | inl e => inl e
  | inr updates =>
      let pieces := map trim (split "=" pair) in
      let col := nth 0 pieces EmptyString in
      match nth_error pieces 1 with
      | None => inl TypeError
      | Some val => inr (obj_set updates col (_parseValue val))
      end
  end.

(** The callback of [table.rows.forEach] in [_update]: the row after the
    call, and whether it was counted. *)
Definition update_row (whereClause : option string) (updates row : obj) : obj * bool :=
  if negb (present whereClause) ||
     match whereClause with
     | Some w => _evaluateWhere row w
     | None => false
     end
  then (assign row updates, true)
  else (row, false).

Definition _update (sql : string) : M message :=
  match exec update_re sql with
  | None => throw (InvalidSyntax "UPDATE")
  | Some m =>
      let tableName := group 1 m in
      let setClause := group 2 m in
      let whereClause := capture 3 m in
      c <- get ;;
      match tables_get c tableName with
      | Absent => throw (NoTable tableName)
      | Inherited =>
          (* updates is built, then table.rows is undefined *)
          lift (fold_left assignment (split "," setClause) (inr empty_obj)) ;;
          throw TypeError
      | Own t =>
          updates <- lift (fold_left assignment (split "," setClause)
                                     (inr empty_obj)) ;;
          let visited := map (update_row whereClause updates) (rows t) in
          let affected := List.length (filter snd visited) in
          put (replace tableName
                 (mkTable (columns t) (constraints t) (map fst visited) (indexes t)) c) ;;
          ret (RowsUpdated affected)
      end
  end.

Definition _delete (sql : string) : M message :=
  match exec delete_re sql with
  | None => throw (InvalidSyntax "DELETE")
  | Some m =>
      let tableName := group 1 m in
      let whereClause := capture 2 m in
      c <- get ;;
      match tables_get c tableName with
      | Absent => throw (NoTable tableName)
      | Inherited => throw TypeError   (* table.rows.length *)
      | Own t =>
          let initialCount := List.length (rows t) in
          let rs :=
            match whereClause with
            | Some w =>
                if truthy w
                then filter (fun row => negb (_evaluateWhere row w)) (rows t)
                else []
            | None => []
            end in
          put (replace tableName
                 (mkTable (columns t) (constraints t) rs (indexes t)) c) ;;
          ret (RowsDeleted (initialCount - List.length rs))
      end
  end.

Definition _dropTable (sql : string) : M message :=
  match exec drop_re sql with
  | None => throw (InvalidSyntax "DROP TABLE")
  | Some m =>
      let tableName := group 1 m in
      c <- get ;;
      match tables_get c tableName with
      | Absent => throw (NoTable tableName)
      | Own _ | Inherited =>
          put (own_delete tableName c) ;;
          ret (TableDropped tableName)
      end
  end.

(** *** Dispatcher *)

Definition as_result (m : M message) : M result :=
  x <- m ;; ret (RMessage x).

(** The [switch] of [execute]. *)
Definition dispatch (command sql : string) : M result :=
  if String.eqb command "CREATE" then as_result (_createTable sql)
  else if String.eqb command "INSERT" then as_result (_insert sql)
  else if String.eqb command "SELECT" then _select sql
  else if String.eqb command "UPDATE" then as_result (_update sql)
  else if String.eqb command "DELETE" then as_result (_delete sql)
  else if String.eqb command "DROP" then as_result (_dropTable sql)
  else if String.eqb command "SHOW" then _showTables
  else if String.eqb command "DESCRIBE" then _describe sql
  else ret (RError (UnknownCommand command)).

(** The statement text after [trim] and the removal of one final [;]. *)
Definition normalize (sql : string) : string :=
  let sql := trim sql in
  if endsWith ";" sql then slice sql 0 (-1) else sql.

(** [sql.split(" ").filter((p) => p)] *)
Definition words (sql : string) : list string :=
  filter truthy (split " " sql).

(** [execute(sql)].  The command word is read before the [try] block:
    with no word at all, [parts[0].toUpperCase()] throws to the caller. *)
Definition execute (db : engine) (sql : string) : engine * outcome :=
  let hist := history db ++ [sql] in
  let sql := normalize sql in
  match words sql with
  | [] => (mkEngine (tables db) hist, Thrown TypeError)
  | p0 :: _ =>
      let command := toUpperCase p0 in
      match dispatch command sql (tables db) with
      | (c, inr r) => (mkEngine c hist, Returned r)
      | (c, inl e) => (mkEngine c hist, Returned (RError e))
      end
  end.

(** *** Snapshot codec *)

(** [toJSON()] returns the catalog object itself. *)
Definition toJSON (db : engine) : catalog := tables db.

(** [fromJSON(data)] installs [data] as the catalog. *)
Definition fromJSON (db : engine) (data : catalog) : engine :=
  mkEngine data (history db).

(** Running a sequence of statements, keeping the last outcome. *)
Definition run_all (db : engine) (stmts : list string) : engine :=
  fold_left (fun d s => fst (execute d s)) stmts db.

(** ** Callers of the engine *)

(** The console and the web server reach the engine through [execute]
    only.  What they print or send is left out; what is kept is which
    calls they make, on which text, and what becomes of an exception. *)

(** A template literal that spans several lines: its lines joined by line
    feeds. *)
Definition lines (l : list string) : string :=
  String.concat (String (ascii_of_N 10) EmptyString) l.

(** A sequence of [execute] calls whose results are dropped: an exception
    of one call ends the sequence. *)
Fixpoint run_script (db : engine) (stmts : list string) : engine * option error :=
  match stmts with
  | [] => (db, None)
  | s :: rest =>
      match execute db s with
      | (db', Thrown e) => (db', Some e)
      | (db', Returned _) => run_script db' rest
      end
  end.

(** *** The console, [bin/repl.js] *)

Module REPL.




(** The statements of [start()]. *)
Definition sample : list string :=
  [ lines [ EmptyString;
            "      CREATE TABLE users (";
            "        id INT PRIMARY KEY,";
            "        name TEXT,";
            "        email TEXT UNIQUE,";
            "        age INT";
            "      )";
            "    " ];
    "INSERT INTO users VALUES (1, 'Alice', 'alice@example.com', 25)";
    "INSERT INTO users VALUES (2, 'Bob', 'bob@example.com', 30)";
    lines [ EmptyString;
            "      CREATE TABLE posts (";
            "        id INT PRIMARY KEY,";
            "        user_id INT,";
            "        title TEXT,";
            "        content TEXT";
            "      )";
            "    " ];
    "INSERT INTO posts VALUES (1, 1, 'Hello World', 'My first post')";
    "INSERT INTO posts VALUES (2, 1, 'SQL Tutorial', 'Learning about databases')" ].

(** [start()] *)
Definition start (db : engine) : engine * option error := run_script db sample.

End REPL.

(** *** The web server *)

Module WebServer.

(** The answer of the route [POST /sql] to a query string: status 400, or
    the result of [execute]. *)
Inductive answer :=
| BadRequest
| Answered (db : engine) (out : outcome).

(** The handler of [POST /sql], for a body whose [query] is a string. *)
Definition post_sql (db : engine) (query : string) : answer :=
  if negb (truthy query) then BadRequest
  else let '(db', out) := execute db query in Answered db' out.

(** The handler of [DELETE /users/:id]. *)
Definition delete_user (db : engine) (id : string) : engine * outcome :=
  execute db ("DELETE FROM users WHERE id = " ++ id).

(** The statements of [initializeSampleData()]. *)
Definition sample : list string :=
  [ lines [ EmptyString;
            "        CREATE TABLE users (";
            "          id INT PRIMARY KEY,";
            "          name TEXT,";
            "          email TEXT UNIQUE,";
            "          age INT,";
            "          created_at TEXT DEFAULT CURRENT_TIMESTAMP";
            "        )";
            "      " ];
    "INSERT INTO users VALUES (1, 'Alice Smith', 'alice@example.com', 25, '2024-01-15')";
    "INSERT INTO users VALUES (2, 'Bob Johnson', 'bob@example.com', 30, '2024-01-20')";
    "INSERT INTO users VALUES (3, 'Charlie Brown', 'charlie@example.com', 22, '2024-02-01')";
    lines [ EmptyString;
            "        CREATE TABLE posts (";
            "          id INT PRIMARY KEY,";
            "          user_id INT,";
            "          title TEXT,";
            "          content TEXT,";
            "          created_at TEXT DEFAULT CURRENT_TIMESTAMP";
            "        )";
            "      " ];
    "INSERT INTO posts VALUES (1, 1, 'Hello World', 'Welcome to my blog!', '2024-01-16')";
    "INSERT INTO posts VALUES (2, 1, 'Database Systems', 'Learning about RDBMS', '2024-01-18')";
    "INSERT INTO posts VALUES (3, 2, 'Web Development', 'Building modern web apps', '2024-01-25')" ].

(** [!tables.data || tables.data.length === 0] *)
Definition no_data (r : result) : bool :=
  match r with
  | RData data _ _ => Nat.eqb (List.length data) 0
  | _ => true
  end.

(** [initializeSampleData()] *)
Definition initializeSampleData (db : engine) : engine * option error :=
  match execute db "SHOW TABLES" with
  | (db', Thrown e) => (db', Some e)
  | (db', Returned tables) =>
      if no_data tables then run_script db' sample else (db', None)
  end.

End WebServer.

(** ** Vocabulary of the properties *)

(** *** Statements *)

(** The name of the statement that a command word selects. *)
Definition command_of (sql : string) : option string :=
  match words (normalize sql) with
  | [] => None
  | p0 :: _ => Some (toUpperCase p0)
  end.

(** A table name as [\w+] matches it: a non-empty run of word characters. *)
Fixpoint all_word (s : string) : bool :=
  match s with
  | EmptyString => true
  | String c s' => is_word c && all_word s'
  end.

Definition word (s : string) : Prop := s <> EmptyString /\ all_word s = true.

(** A quote character as a code unit. *)
Definition is_quote (q : ascii) : Prop := q = ascii_of_N 39 \/ q = ascii_of_N 34.

(** The text [q s q]. *)
Definition quoted (q : ascii) (s : string) : string :=
  String q (s ++ String q EmptyString).

(** A position where a character class stops: the end of the text or a
    code unit outside the class. *)
Definition stops (c : cclass) (rest : string) : Prop :=
  match rest with
  | EmptyString => True
  | String a _ => in_class c a = false
  end.

(** *** Handlers and the catalog *)

(** A computation is read-only when it hands the catalog back as it got
    it, whatever it returns or throws. *)
Definition read_only {A} (m : M A) : Prop :=
  forall c c' x, m c = (c', x) -> c' = c.

(** A computation fails cleanly when a throw leaves the catalog as it
    was at the start. *)
Definition fails_cleanly {A} (m : M A) : Prop :=
  forall c c' e, m c = (c', inl e) -> c' = c.

(** *** Conditions *)

(** The first operator of the priority list that occurs in the condition. *)
Definition selected_operator (condition : string) : option string :=
  find (fun op => includes op condition) operators.

(** The ordering operators. *)
Definition ordering_operators : list string := ["<"; ">"; "<="; ">="].

(** *** Rows and declared columns *)

(** A row conforms to a table when its own keys are exactly the declared
    columns. *)
Definition row_conforms (t : table) (r : obj) : Prop :=
  forall k, In k (keys (obj_own r)) <-> In k (keys (columns t)).

(** The invariant of C7 on a catalog. *)
Definition conforms (c : catalog) : Prop :=
  forall name t, In (name, t) c -> forall r, In r (rows t) -> row_conforms t r.

(** What CREATE TABLE guarantees on top: [__proto__] is no column, since
    the assignment of a type tag to [columns.__proto__] is swallowed by
    the setter of [Object.prototype]. *)
Definition no_proto_column (c : catalog) : Prop :=
  forall name t, In (name, t) c -> ~ In "__proto__" (keys (columns t)).

Definition well_formed (c : catalog) : Prop := conforms c /\ no_proto_column c.

(** The column that an assignment of the SET clause names. *)
Definition assigned_column (pair : string) : string :=
  nth 0 (map trim (split "=" pair)) EmptyString.

(** Every assignment of an UPDATE names a declared column of the table
    (vacuously so when the statement does not parse or names no table). *)
Definition assigns_declared (c : catalog) (sql : string) : bool :=
  match exec update_re sql with
  | Some m =>
      match tables_get c (group 1 m) with
      | Own t =>
          forallb (fun pair =>
                     existsb (String.eqb (assigned_column pair)) (keys (columns t)))
                  (split "," (group 2 m))
      | _ => true
      end
  | None => true
  end.

(** A sequence of statements in which every UPDATE assigns declared
    columns only, each judged on the engine that it runs on. *)
Fixpoint well_targeted (db : engine) (stmts : list string) : Prop :=
  match stmts with
  | [] => True
  | s :: rest =>
      (command_of s = Some "UPDATE" ->
       assigns_declared (tables db) (normalize s) = true) /\
      well_targeted (fst (execute db s)) rest
  end.

(** *** Statement forms *)

(** A text on one line: [.] matches each of its code units. *)
Fixpoint one_line (s : string) : bool :=
  match s with
  | EmptyString => true
  | String c s' => negb (is_line_terminator c) && one_line s'
  end.

(** What [(.+)] can match: a non-empty text on one line. *)
Definition phrase (s : string) : Prop := s <> EmptyString /\ one_line s = true.

Definition last_char (s : string) : option ascii :=
  match rev s with
  | String d _ => Some d
  | EmptyString => None
  end.

(** The last code unit is neither white space nor a semicolon, so that
    [trim] and the removal of the terminator leave the end as it is. *)
Definition tidy (s : string) : bool :=
  match last_char s with
  | Some d => negb (is_space d) && negb (Ascii.eqb d ";")
  | None => false
  end.

(** A clause that can end a statement: one line whose last code unit is
    neither white space nor a semicolon. *)
Definition clause (s : string) : Prop := one_line s = true /\ tidy s = true.

(** The statement leaves the catalog as it is and returns [r]. *)
Definition answers (db : engine) (sql : string) (r : result) : Prop :=
  execute db sql = (mkEngine (tables db) (history db ++ [sql]), Returned r).

(** [p] is a prefix of [s], letter case apart. *)
Fixpoint ci_prefix (p s : string) : bool :=
  match p with
  | EmptyString => true
  | String a p' =>
      match s with
      | String b s' => same_char a b && ci_prefix p' s'
      | EmptyString => false
      end
  end.

(** [p] occurs in [s], letter case apart. *)
Fixpoint ci_includes (p s : string) : bool :=
  ci_prefix p s ||
  match s with
  | EmptyString => false
  | String _ s' => ci_includes p s'
  end.

(** After the [FROM] that introduces the table [t], the statement
    [... FROM t WHERE cond] holds no further [ FROM ]. *)
Definition single_from (t cond : string) : bool :=
  negb (ci_includes " FROM " (String " " (t ++ " WHERE " ++ cond))).

(** The column list that [_select] derives from the text between SELECT
    and FROM. *)
Definition selected_columns (cols : string) (t : table) : list string :=
  if String.eqb cols "*" then keys (columns t) else map trim (split "," cols).

(** Every opening parenthesis of the text is the last code unit of its
    line. *)
Fixpoint parens_end_lines (s : string) : bool :=
  match s with
  | EmptyString => true
  | String a s' =>
      (if Ascii.eqb a "("
       then match s' with
            | EmptyString => true
            | String b _ => is_line_terminator b
            end
       else true) && parens_end_lines s'
  end.

(** *** Values and operands *)

(** The code unit [c] does not occur in [s]. *)
Fixpoint lacks (c : ascii) (s : string) : bool :=
  match s with
  | EmptyString => true
  | String b s' => negb (Ascii.eqb c b) && lacks c s'
  end.

(** An operand of a simple condition: a text without any of the code
    units that the operators are made of. *)
Definition operand (s : string) : bool :=
  lacks "<" s && lacks ">" s && lacks "=" s && lacks "!" s.

(** What [_parseValues] returns from the final state of its scanner. *)
Definition flush (st : scanner) : list prim :=
  if truthy (trim (current st))
  then values st ++ [_parseValue (trim (current st))]
  else values st.

(** *** Primary keys *)

(** The check of [_insert] on the primary key passes: the table has no
    primary key, or no row holds the new key value. *)
Definition fresh_key (t : table) (vals : list prim) : bool :=
  match primary_key t with
  | Some (pkCol, pkIndex) =>
      negb (existsb (fun row => strict_eq (obj_get row pkCol) (element vals pkIndex))
                    (rows t))
  | None => true
  end.

(** The primary key of a table, when it is a declared column that rows
    store as an own property. *)
Definition key_column (t : table) : option string :=
  match primary_key t with
  | Some (pk, Some _) => if String.eqb pk "__proto__" then None else Some pk
  | _ => None
  end.

(** No row holds, under [pk], a value strictly equal to that of a later
    row. *)
Fixpoint distinct_keys (pk : string) (rs : list obj) : Prop :=
  match rs with
  | [] => True
  | r :: rs' =>
      (forall r', In r' rs' -> strict_eq (obj_get r pk) (obj_get r' pk) = false) /\
      distinct_keys pk rs'
  end.

(** The invariant that INSERT maintains: column names are not repeated,
    and the rows of a table with a key column have distinct keys. *)
Definition keys_enforced (c : catalog) : Prop :=
  forall name t, In (name, t) c ->
    NoDup (keys (columns t)) /\
    forall pk, key_column t = Some pk -> distinct_keys pk (rows t).

(** *** Steps of the catalog *)

(** The ways in which one statement changes the catalog: not at all, by
    new rows for one table, by one new empty table, or by the removal of
    one name. *)
Inductive step (c : catalog) : catalog -> Prop :=
| Unchanged : step c c
| Rewritten (name : string) (t : table) (rs : list obj) :
    tables_get c name = Own t ->
    step c (replace name (mkTable (columns t) (constraints t) rs (indexes t)) c)
| Created (name : string) (cols : props string) (cstr : props constraint) :
    tables_get c name = Absent ->
    step c (own_put name (mkTable cols cstr [] []) c)
| Dropped (name : string) : step c (own_delete name c).

(** *** Engines used in the examples *)

(** The engine after the scenario of the specification: the table [users]
    with the rows of Alice and Bob. *)
Definition users_db : engine :=
  run_all constructor
    [ "CREATE TABLE users (id INT PRIMARY KEY, name TEXT, email TEXT UNIQUE, age INT)";
      "INSERT INTO users VALUES (1,'Alice','a@x.com',25)";
      "INSERT INTO users VALUES (2,'Bob','b@x.com',30)" ].

(** A table [t] with the rows [(1, 0)] and [(2, 0)]. *)
Definition two_rows_db : engine :=
  run_all constructor
    [ "CREATE TABLE t (id INT PRIMARY KEY, x INT)";
      "INSERT INTO t VALUES (1, 0)";
      "INSERT INTO t VALUES (2, 0)" ].

(** A table whose only row has the primary key [true]. *)
Definition true_key_db : engine :=
  run_all constructor
    [ "CREATE TABLE t (id INT PRIMARY KEY)";
      "INSERT INTO t VALUES (true)" ].

(** An UPDATE that assigns a column that the table does not declare. *)
Definition extra_key_db : engine :=
  run_all constructor
    [ "CREATE TABLE t (a INT)";
      "INSERT INTO t VALUES (1)";
      "UPDATE t SET b=2" ].

(** The table of [users_db]. *)
Definition users_table : table :=
  mkTable
    [("id", "INT"); ("name", "TEXT"); ("email", "TEXT"); ("age", "INT")]
    [("primaryKey", CKey "id"); ("email", CUnique)]
    [ mkObj true [("id", PNum (Number "1")); ("name", PStr "'Alice'");
                  ("email", PStr "'a@x.com'"); ("age", PNum (Number "25"))];
      mkObj true [("id", PNum (Number "2")); ("name", PStr "'Bob'");
                  ("email", PStr "'b@x.com'"); ("age", PNum (Number "30"))] ]
    [].

(** The table of [two_rows_db]. *)
Definition two_rows_table : table :=
  mkTable
    [("id", "INT"); ("x", "INT")]
    [("primaryKey", CKey "id")]
    [ mkObj true [("id", PNum (Number "1")); ("x", PNum (Number "0"))];
      mkObj true [("id", PNum (Number "2")); ("x", PNum (Number "0"))] ]
    [].

(** * Properties *)

(** ** The monad *)

Ltac monad_unfold :=
  unfold bind, ret, throw, get, put, lift, as_result in *.

(** ** Strings *)

Section StringFacts.

Lemma append_assoc (a b c : string) : ((a ++ b) ++ c = a ++ (b ++ c))%string.
Proof. induction a as [|x a IH]; simpl; [reflexivity | rewrite IH; reflexivity]. Qed.

Lemma append_empty_r (a : string) : (a ++ EmptyString = a)%string.
Proof. induction a as [|x a IH]; simpl; [reflexivity | rewrite IH; reflexivity]. Qed.

Lemma length_append (a b : string) :
  String.length (a ++ b) = String.length a + String.length b.
Proof. induction a as [|x a IH]; simpl; [reflexivity | rewrite IH; reflexivity]. Qed.

Lemma rev_onto_spec (s acc : string) : rev_onto s acc = (rev s ++ acc)%string.
Proof.
  unfold rev. revert acc. induction s as [|x s IH]; intros acc; simpl; [reflexivity|].
  rewrite IH. rewrite (IH (String x EmptyString)). rewrite append_assoc. reflexivity.
Qed.

Lemma rev_append (a b : string) : rev (a ++ b) = (rev b ++ rev a)%string.
Proof.
  induction a as [|x a IH].
  - simpl. rewrite append_empty_r. reflexivity.
  - change (rev (String x a ++ b)) with (rev_onto (a ++ b) (String x EmptyString)).
    change (rev (String x a)) with (rev_onto a (String x EmptyString)).
    rewrite (rev_onto_spec (a ++ b)), (rev_onto_spec a), IH, append_assoc.
    reflexivity.
Qed.

Lemma take_append (a b : string) : take (String.length a) (a ++ b) = a.
Proof. induction a as [|x a IH]; simpl; [destruct b; reflexivity | rewrite IH; reflexivity]. Qed.

Lemma list_ascii_of_string_append (a b : string) :
  list_ascii_of_string (a ++ b) = (list_ascii_of_string a ++ list_ascii_of_string b)%list.
Proof. induction a as [|x a IH]; simpl; [reflexivity | rewrite IH; reflexivity]. Qed.

End StringFacts.

(** ** The matcher *)

Section MatcherFacts.
Context {A : Type}.

(** A successful match is a success of the continuation at some position. *)
Lemma lit_success (p s : string) (k : string -> option A) (x : A) :
  lit p s k = Some x -> exists rest, k rest = Some x.
Proof.
  revert s. induction p as [|a p IH]; intros s; simpl.
  - eauto.
  - destruct s as [|b s]; [discriminate|].
    destruct (same_char a b); [apply IH | discriminate].
Qed.

Lemma star_success (c : cclass) (s : string) (k : string -> option A) (x : A) :
  star c s k = Some x -> exists rest, k rest = Some x.
Proof.
  induction s as [|a s IH]; simpl.
  - eauto.
  - destruct (in_class c a); [|eauto].
    destruct (star c s k) as [r|] eqn:E.
    + intros H. inversion H; subst. apply IH. reflexivity.
    + eauto.
Qed.

Lemma plus_success (c : cclass) (s : string) (k : string -> option A) (x : A) :
  plus c s k = Some x -> exists rest, k rest = Some x.
Proof.
  destruct s as [|a s]; simpl; [discriminate|].
  destruct (in_class c a); [apply star_success | discriminate].
Qed.

(** With a continuation that never fails, a greedy repetition never gives
    a code unit back: the continuation runs where the class stops. *)
Lemma star_total (c : cclass) (s : string) (k : string -> option A) :
  (forall rest, k rest <> None) -> star c s k <> None.
Proof.
  intros Hk. induction s as [|a s IH]; simpl.
  - apply Hk.
  - destruct (in_class c a); [|apply Hk].
    destruct (star c s k); [discriminate | contradiction IH; reflexivity].
Qed.

Lemma star_greedy (c : cclass) (s : string) (k : string -> option A) (x : A) :
  (forall rest, k rest <> None) ->
  star c s k = Some x ->
  exists rest, stops c rest /\ k rest = Some x.
Proof.
  intros Hk. induction s as [|a s IH]; simpl.
  - intros H. exists EmptyString. split; [exact I | exact H].
  - destruct (in_class c a) eqn:Ea.
    + destruct (star c s k) as [r|] eqn:E.
      * intros H. inversion H; subst. apply IH. reflexivity.
      * exfalso. exact (star_total c s k Hk E).
    + intros H. exists (String a s). split; [exact Ea | exact H].
Qed.

End MatcherFacts.

Lemma exec_success (r : regex) (s : string) (m : captures) :
  exec r s = Some m -> exists s', match_here r s' = Some m.
Proof.
  induction s as [|a s IH]; simpl.
  - destruct (match_here r EmptyString) eqn:E; [|discriminate].
    intros H; inversion H; subst. eauto.
  - destruct (match_here r (String a s)) eqn:E.
    + intros H; inversion H; subst. eauto.
    + exact IH.
Qed.

(** [" WHERE "] does not start where [.+] stops. *)
Lemma where_not_at_stop (rest : string) (k : string -> option captures) :
  stops Dot rest -> lit " WHERE " rest k = None.
Proof.
  destruct rest as [|a rest]; simpl; [reflexivity|].
  intros H. unfold same_char.
  destruct (Ascii.eqb (upper_char " ") (upper_char a)) eqn:E; [|reflexivity].
  apply Ascii.eqb_eq in E. exfalso.
  unfold is_line_terminator in H.
  destruct a as [[] [] [] [] [] [] [] []]; vm_compute in E; vm_compute in H; discriminate.
Qed.

(** ** Side conditions of the embedding *)

Lemma split_go_nonempty (sep s : string) (skip : nat) (cur : string) :
  split_go sep s skip cur <> [].
Proof.
  revert skip cur. induction s as [|c s IH]; intros skip cur; simpl; [discriminate|].
  destruct skip; [|apply IH].
  destruct (startsWith sep (String c s)); [discriminate | apply IH].
Qed.

(** Where a separator occurs, [split] yields at least two pieces: the
    destructuring of [_evaluateWhere] always finds its [right]. *)
Lemma split_includes (sep s : string) :
  sep <> EmptyString -> includes sep s = true -> 2 <= List.length (split sep s).
Proof.
  intros Hsep. unfold split. destruct sep as [|a sep]; [contradiction Hsep; reflexivity|].
  generalize EmptyString as cur.
  induction s as [|c s IH]; intros cur; [discriminate|].
  cbn [includes split_go].
  destruct (startsWith (String a sep) (String c s)).
  - intros _. cbn [List.length].
    destruct (split_go (String a sep) s (String.length (String a sep) - 1) EmptyString) eqn:E.
    + contradiction (split_go_nonempty _ _ _ _ E).
    + simpl. lia.
  - cbn [orb]. apply IH.
Qed.

(** A projected row has [Object.prototype] or [null] as prototype. *)
Lemma project_proto (columnNames : list string) (row : obj) :
  rec_proto (project columnNames row) = ProtoObject \/
  rec_proto (project columnNames row) = ProtoNull.
Proof.
  unfold project.
  assert (H : rec_proto empty_record = ProtoObject \/ rec_proto empty_record = ProtoNull)
    by (left; reflexivity).
  revert H. generalize empty_record as selected.
  induction columnNames as [|col cols IH]; intros selected H; cbn [fold_left]; [exact H|].
  apply IH. destruct (obj_has row col); [|exact H].
  unfold rec_set.
  destruct (String.eqb col "__proto__") eqn:Ec; cbn [andb]; [|exact H].
  apply String.eqb_eq in Ec. subst col.
  destruct (negb _ && _); [|exact H].
  unfold obj_get. destruct (own_get "__proto__" (obj_own row)) as [[]|]; cbn; auto.
  destruct (obj_proto row); cbn; auto.
Qed.

(** ** What the handlers leave in the catalog *)

Section Frame.

Lemma read_only_fails_cleanly {A} (m : M A) : read_only m -> fails_cleanly m.
Proof. intros H c c' e E. exact (H _ _ _ E). Qed.

Lemma select_read_only sql : read_only (_select sql).
Proof.
  intros c c' x. unfold _select.
  destruct (exec select_re sql) as [m|]; monad_unfold;
    [destruct (tables_get c (group 2 m))|]; intros E; inversion E; reflexivity.
Qed.

Lemma showTables_read_only : read_only _showTables.
Proof.
  intros c c' x. unfold _showTables. monad_unfold.
  intros E; inversion E; reflexivity.
Qed.

Lemma describe_read_only sql : read_only (_describe sql).
Proof.
  intros c c' x. unfold _describe.
  destruct (exec describe_re sql) as [m|]; monad_unfold;
    [destruct (tables_get c (group 1 m))|]; intros E; inversion E; reflexivity.
Qed.

Lemma createTable_fails_cleanly sql : fails_cleanly (_createTable sql).
Proof.
  intros c c' e. unfold _createTable.
  destruct (exec create_re sql) as [m|]; monad_unfold.
  - destruct (tables_get c (group 1 m));
      try (intros E; inversion E; reflexivity).
    destruct (fold_left column_definition _ _);
      intros E; inversion E; reflexivity.
  - intros E; inversion E; reflexivity.
Qed.

Lemma insert_fails_cleanly sql : fails_cleanly (_insert sql).
Proof.
  intros c c' e. unfold _insert.
  destruct (exec insert_re sql) as [m|]; monad_unfold.
  - destruct (tables_get c (group 1 m)) as [t| |];
      try (intros E; inversion E; reflexivity).
    destruct (negb _); [intros E; inversion E; reflexivity|].
    destruct (primary_key t) as [[pkCol pkIndex]|].
    + destruct (existsb _ _); intros E; inversion E; reflexivity.
    + intros E; inversion E.
  - intros E; inversion E; reflexivity.
Qed.

Lemma update_fails_cleanly sql : fails_cleanly (_update sql).
Proof.
  intros c c' e. unfold _update.
  destruct (exec update_re sql) as [m|]; monad_unfold.
  - destruct (tables_get c (group 1 m)) as [t| |];
      try (intros E; inversion E; reflexivity);
      destruct (fold_left assignment _ _);
      intros E; inversion E; reflexivity.
  - intros E; inversion E; reflexivity.
Qed.

Lemma delete_fails_cleanly sql : fails_cleanly (_delete sql).
Proof.
  intros c c' e. unfold _delete.
  destruct (exec delete_re sql) as [m|]; monad_unfold.
  - destruct (tables_get c (group 1 m)) as [t| |];
      intros E; inversion E; reflexivity.
  - intros E; inversion E; reflexivity.
Qed.

Lemma dropTable_fails_cleanly sql : fails_cleanly (_dropTable sql).
Proof.
  intros c c' e. unfold _dropTable.
  destruct (exec drop_re sql) as [m|]; monad_unfold.
  - destruct (tables_get c (group 1 m)) as [t| |];
      intros E; inversion E; reflexivity.
  - intros E; inversion E; reflexivity.
Qed.

Lemma as_result_returns (m : M message) c c' r :
  as_result m c = (c', inr r) -> exists x, m c = (c', inr x) /\ r = RMessage x.
Proof.
  unfold as_result, bind, ret. destruct (m c) as [c1 [e|x]]; intros E; inversion E.
  eauto.
Qed.

Lemma as_result_fails_cleanly (m : M message) :
  fails_cleanly m -> fails_cleanly (as_result m).
Proof.
  intros H c c' e. unfold as_result, bind, ret.
  destruct (m c) as [c1 [e1|x]] eqn:E; intros E'; inversion E'; subst.
  exact (H _ _ _ E).
Qed.

Ltac dispatch_cases command :=
  unfold dispatch;
  destruct (String.eqb command "CREATE");
  [|destruct (String.eqb command "INSERT");
    [|destruct (String.eqb command "SELECT");
      [|destruct (String.eqb command "UPDATE");
        [|destruct (String.eqb command "DELETE");
          [|destruct (String.eqb command "DROP");
            [|destruct (String.eqb command "SHOW");
              [|destruct (String.eqb command "DESCRIBE")]]]]]]].

Lemma dispatch_fails_cleanly command sql : fails_cleanly (dispatch command sql).
Proof.
  dispatch_cases command.
  - apply as_result_fails_cleanly, createTable_fails_cleanly.
  - apply as_result_fails_cleanly, insert_fails_cleanly.
  - apply read_only_fails_cleanly, select_read_only.
  - apply as_result_fails_cleanly, update_fails_cleanly.
  - apply as_result_fails_cleanly, delete_fails_cleanly.
  - apply as_result_fails_cleanly, dropTable_fails_cleanly.
  - apply read_only_fails_cleanly, showTables_read_only.
  - apply read_only_fails_cleanly, describe_read_only.
  - intros c c' e E. inversion E.
Qed.

(** Only the [default] branch returns an error object without throwing. *)
Lemma dispatch_returns_error command sql c c' e :
  dispatch command sql c = (c', inr (RError e)) -> c' = c.
Proof.
  dispatch_cases command; intros E;
    try (apply as_result_returns in E; destruct E as (x & _ & Hx); discriminate).
  - exact (select_read_only _ _ _ _ E).
  - exact (showTables_read_only _ _ _ E).
  - exact (describe_read_only _ _ _ _ E).
  - inversion E; reflexivity.
Qed.

Lemma execute_history db sql : history (fst (execute db sql)) = history db ++ [sql].
Proof.
  unfold execute. destruct (words (normalize sql)); [reflexivity|].
  destruct (dispatch _ _ _) as [c [e|r]]; reflexivity.
Qed.

End Frame.

(** ** C5: a statement that fails leaves the catalog as it was *)

(** C5.  For every engine state and every statement, if [execute] returns
    an error Result then the catalog (every table's columns, constraints
    and rows) after the call equals the catalog before the call. *)
Theorem failed_statement_preserves_catalog :
  forall (db db' : engine) (sql : string) (e : error),
    execute db sql = (db', Returned (RError e)) ->
    tables db' = tables db.
Proof.
  intros db db' sql e. unfold execute.
  destruct (words (normalize sql)) as [|p0 ps]; [discriminate|].
  destruct (dispatch (toUpperCase p0) (normalize sql) (tables db))
    as [c [e1|r]] eqn:D; intros E; inversion E; subst; simpl.
  - exact (dispatch_fails_cleanly _ _ _ _ _ D).
  - exact (dispatch_returns_error _ _ _ _ _ D).
Qed.

(** The failures that the specification singles out.  A CREATE TABLE that
    names an existing table fails, and so does an INSERT whose value list
    has not one value per column; the duplicate primary key is the subject
    of [insert_duplicate_iff_strict] below.  Each is an error Result, so
    that the theorem above applies. *)
Lemma create_existing_table_fails (db : engine) (sql : string) (m : captures) (t : table) :
  command_of sql = Some "CREATE" ->
  exec create_re (normalize sql) = Some m ->
  tables_get (tables db) (group 1 m) = Own t ->
  execute db sql
  = (mkEngine (tables db) (history db ++ [sql]),
     Returned (RError (TableExists (group 1 m)))).
Proof.
  intros Hcmd Hm Ht. unfold command_of in Hcmd. unfold execute.
  destruct (words (normalize sql)) as [|p0 ps]; [discriminate|].
  inversion Hcmd as [Hp0]. rewrite Hp0.
  change (dispatch "CREATE" (normalize sql) (tables db))
    with (as_result (_createTable (normalize sql)) (tables db)).
  unfold as_result, _createTable. rewrite Hm. monad_unfold. rewrite Ht.
  reflexivity.
Qed.

Lemma insert_wrong_arity_fails (db : engine) (sql : string) (m : captures) (t : table) :
  command_of sql = Some "INSERT" ->
  exec insert_re (normalize sql) = Some m ->
  tables_get (tables db) (group 1 m) = Own t ->
  List.length (_parseValues (group 2 m)) <> List.length (keys (columns t)) ->
  execute db sql
  = (mkEngine (tables db) (history db ++ [sql]),
     Returned (RError (Arity (List.length (keys (columns t)))
                             (List.length (_parseValues (group 2 m)))))).
Proof.
  intros Hcmd Hm Ht Hlen. unfold command_of in Hcmd. unfold execute.
  destruct (words (normalize sql)) as [|p0 ps]; [discriminate|].
  inversion Hcmd as [Hp0]. rewrite Hp0.
  change (dispatch "INSERT" (normalize sql) (tables db))
    with (as_result (_insert (normalize sql)) (tables db)).
  unfold as_result, _insert. rewrite Hm. monad_unfold. rewrite Ht.
  apply Nat.eqb_neq in Hlen. rewrite Hlen. reflexivity.
Qed.

(** The three failures on [users_db]. *)
Example second_create_fails :
  execute users_db "CREATE TABLE users (id INT)"
  = (mkEngine (tables users_db)
              (history users_db ++ ["CREATE TABLE users (id INT)"]),
     Returned (RError (TableExists "users"))).
Proof. vm_compute. reflexivity. Qed.

Example duplicate_key_insert_fails :
  execute users_db "INSERT INTO users VALUES (2,'Carol','c@x.com',41)"
  = (mkEngine (tables users_db)
              (history users_db ++ ["INSERT INTO users VALUES (2,'Carol','c@x.com',41)"]),
     Returned (RError (DuplicateKey (VPrim (PNum (Number "2")))))).
Proof. vm_compute. reflexivity. Qed.

Example wrong_arity_insert_fails :
  execute users_db "INSERT INTO users VALUES (3,'Carol')"
  = (mkEngine (tables users_db)
              (history users_db ++ ["INSERT INTO users VALUES (3,'Carol')"]),
     Returned (RError (Arity 4 2))).
Proof. vm_compute. reflexivity. Qed.

Lemma failed_statement_preserves_catalog_witness :
  tables (fst (execute users_db "INSERT INTO users VALUES (2,'Carol','c@x.com',41)"))
  = tables users_db.
Proof.
  apply (failed_statement_preserves_catalog users_db _
           "INSERT INTO users VALUES (2,'Carol','c@x.com',41)"
           (DuplicateKey (VPrim (PNum (Number "2"))))).
  vm_compute. reflexivity.
Defined.

(** ** C10: reading statements leave the catalog alone *)

(** C10.  For every engine state and every input whose command word is
    SELECT, SHOW or DESCRIBE, [execute] leaves the catalog unchanged,
    whether the statement succeeds or fails; the command history grows by
    the submitted text. *)
Theorem reading_statements_preserve_catalog :
  forall (db : engine) (sql command : string),
    command_of sql = Some command ->
    In command ["SELECT"; "SHOW"; "DESCRIBE"] ->
    tables (fst (execute db sql)) = tables db /\
    history (fst (execute db sql)) = history db ++ [sql].
Proof.
  intros db sql command Hc Hin. split; [|apply execute_history].
  unfold command_of in Hc. unfold execute.
  destruct (words (normalize sql)) as [|p0 ps]; [discriminate|].
  inversion Hc; subst command; clear Hc.
  destruct (dispatch (toUpperCase p0) (normalize sql) (tables db))
    as [c x] eqn:D.
  assert (c = tables db) as ->.
  { revert D. unfold dispatch.
    destruct Hin as [H|[H|[H|[]]]]; rewrite <- H; simpl.
    - apply select_read_only.
    - apply showTables_read_only.
    - apply describe_read_only. }
  destruct x; reflexivity.
Qed.

Lemma reading_statements_preserve_catalog_witness :
  tables (fst (execute users_db "select * from users where age > 25;"))
  = tables users_db /\
  history (fst (execute users_db "select * from users where age > 25;"))
  = history users_db ++ ["select * from users where age > 25;"].
Proof.
  apply (reading_statements_preserve_catalog users_db _ "SELECT").
  - vm_compute. reflexivity.
  - simpl. auto.
Defined.

(** ** C3: what [execute] hands back *)

(** [execute] returns a Result exactly when the statement has a command
    word: every throw of a handler is caught. *)
Lemma execute_returns_iff (db : engine) (sql : string) :
  (exists r, snd (execute db sql) = Returned r) <-> command_of sql <> None.
Proof.
  unfold execute, command_of.
  destruct (words (normalize sql)) as [|p0 ps]; simpl.
  - split; [intros [r H]; discriminate | intros H; contradiction H; reflexivity].
  - destruct (dispatch _ _ _) as [c [e|r]]; simpl; split; intros; eauto; discriminate.
Qed.

(** C3.  On the empty string, on a string of white space and on a lone
    terminator, [execute] does not return a Result: reading the command
    word throws a [TypeError] outside the [try] block, and the exception
    reaches the caller.  The text is recorded in the history first. *)
Theorem empty_statement_throws :
  forall db : engine,
    execute db EmptyString
    = (mkEngine (tables db) (history db ++ [EmptyString]), Thrown TypeError) /\
    execute db "   "
    = (mkEngine (tables db) (history db ++ ["   "]), Thrown TypeError) /\
    execute db ";"
    = (mkEngine (tables db) (history db ++ [";"]), Thrown TypeError).
Proof. intros db. repeat split. Qed.

(** ** C9: the snapshot round trip *)

(** The outcome of a statement and the catalog it leaves depend on the
    catalog only, not on the history. *)
Lemma execute_depends_on_tables (db1 db2 : engine) (sql : string) :
  tables db1 = tables db2 ->
  snd (execute db1 sql) = snd (execute db2 sql) /\
  tables (fst (execute db1 sql)) = tables (fst (execute db2 sql)).
Proof.
  intros H. unfold execute. rewrite H.
  destruct (words (normalize sql)) as [|p0 ps]; [split; reflexivity|].
  destruct (dispatch _ _ _) as [c [e|r]]; split; reflexivity.
Qed.

(** C9.  Exporting the catalog with [toJSON], importing it into a fresh
    engine with [fromJSON] and running [SELECT * FROM t] there gives the
    same outcome (rows, their columns, their order, the count and the
    column list, or the same error) as running it on the original
    engine, for every table name [t]. *)
Theorem snapshot_round_trip :
  forall (db : engine) (t : string),
    snd (execute (fromJSON constructor (toJSON db)) ("SELECT * FROM " ++ t))
    = snd (execute db ("SELECT * FROM " ++ t)).
Proof.
  intros db t. apply execute_depends_on_tables. reflexivity.
Qed.

Example snapshot_round_trip_users :
  snd (execute (fromJSON constructor (toJSON users_db)) "SELECT * FROM users")
  = Returned
      (RData
         [ mkRecord ProtoObject
             [ ("id", VPrim (PNum (Number "1")));
               ("name", VPrim (PStr "'Alice'"));
               ("email", VPrim (PStr "'a@x.com'"));
               ("age", VPrim (PNum (Number "25"))) ];
           mkRecord ProtoObject
             [ ("id", VPrim (PNum (Number "2")));
               ("name", VPrim (PStr "'Bob'"));
               ("email", VPrim (PStr "'b@x.com'"));
               ("age", VPrim (PNum (Number "30"))) ] ]
         2 (Some ["id"; "name"; "email"; "age"])).
Proof. vm_compute. reflexivity. Qed.

(** ** What [SELECT * FROM t] returns *)

Section SelectStar.

Lemma word_not_space (c : ascii) : is_word c = true -> is_space c = false.
Proof. destruct c as [[] [] [] [] [] [] [] []]; vm_compute; congruence. Qed.

Lemma word_is_dot (c : ascii) : is_word c = true -> in_class Dot c = true.
Proof. destruct c as [[] [] [] [] [] [] [] []]; vm_compute; congruence. Qed.

Lemma is_word_upper (c : ascii) : is_word (upper_char c) = is_word c.
Proof. destruct c as [[] [] [] [] [] [] [] []]; vm_compute; reflexivity. Qed.

Lemma word_differs (c a : ascii) :
  is_word a = false -> is_word c = true -> same_char a c = false.
Proof.
  intros Ha Hc. unfold same_char.
  destruct (Ascii.eqb (upper_char a) (upper_char c)) eqn:E; [|reflexivity].
  apply Ascii.eqb_eq in E. exfalso.
  rewrite <- (is_word_upper a), E, is_word_upper, Hc in Ha. discriminate.
Qed.

(** A greedy repetition whose continuation fails everywhere fails. *)
Lemma star_fails {A : Type} (c : cclass) (s : string) (k : string -> option A) :
  (forall rest, k rest = None) -> star c s k = None.
Proof.
  intros Hk. induction s as [|a s IH]; simpl; [apply Hk|].
  destruct (in_class c a); [rewrite IH|]; apply Hk.
Qed.

(** A greedy repetition over a text that is in the class throughout, with
    a continuation that succeeds at the end, runs to the end. *)
Lemma star_to_end {A : Type} (c : cclass) (s : string) (k : string -> option A) (x : A) :
  (forall a, In a (list_ascii_of_string s) -> in_class c a = true) ->
  k EmptyString = Some x -> star c s k = Some x.
Proof.
  intros Hs Hk. induction s as [|a s IH]; simpl; [exact Hk|].
  rewrite (Hs a) by (left; reflexivity).
  rewrite IH; [reflexivity|]. intros b Hb. apply Hs. right. exact Hb.
Qed.

Lemma all_word_In (s : string) (a : ascii) :
  all_word s = true -> In a (list_ascii_of_string s) -> is_word a = true.
Proof.
  induction s as [|c s IH]; simpl; [contradiction|].
  intros H [Ha|Ha]; apply andb_prop in H; destruct H as [H1 H2];
    [subst; exact H1 | exact (IH H2 Ha)].
Qed.

(** [" FROM "] and [" WHERE "] contain a space, a word does not: neither
    text starts inside or at the end of a word. *)
Lemma lit_space_in_word {A : Type} (p s rest : string) (k : string -> option A) :
  all_word s = true ->
  lit (p ++ String " " rest) s k = None.
Proof.
  revert s. induction p as [|a p IH]; intros s Hs; simpl.
  - destruct s as [|c s]; [reflexivity|]. simpl in Hs.
    apply andb_prop in Hs. destruct Hs as [Hc _].
    rewrite (word_differs c " " eq_refl Hc). reflexivity.
  - destruct s as [|c s]; [reflexivity|]. simpl in Hs.
    apply andb_prop in Hs. destruct Hs as [_ Hs].
    destruct (same_char a c); [apply IH; exact Hs | reflexivity].
Qed.

Lemma take_all (s : string) : take (String.length s) s = s.
Proof. induction s as [|c s IH]; simpl; [reflexivity | rewrite IH; reflexivity]. Qed.

Lemma lit_refl {A : Type} (p s : string) (k : string -> option A) :
  lit p (p ++ s) k = k s.
Proof.
  induction p as [|a p IH]; simpl; [reflexivity|].
  unfold same_char. rewrite Ascii.eqb_refl. exact IH.
Qed.

Lemma lit_step {A : Type} (a b : ascii) (p s : string) (k : string -> option A) :
  lit (String a p) (String b s) k = if same_char a b then lit p s k else None.
Proof. reflexivity. Qed.

Lemma star_step {A : Type} (c : cclass) (a : ascii) (s : string) (k : string -> option A) :
  star c (String a s) k =
  if in_class c a then
    match star c s k with Some r => Some r | None => k (String a s) end
  else k (String a s).
Proof. reflexivity. Qed.

Lemma star_fails_on_word {A : Type} (s : string) (k : string -> option A) :
  (forall r, all_word r = true -> k r = None) ->
  all_word s = true ->
  star Dot s k = None.
Proof.
  intros Hk. induction s as [|a s IH]; intros Hs; [apply Hk; reflexivity|].
  cbn [star]. pose proof Hs as Hs'.
  cbn [all_word] in Hs. apply andb_prop in Hs. destruct Hs as [Ha Hs].
  rewrite (word_is_dot a Ha), (IH Hs). apply Hk. exact Hs'.
Qed.

Lemma consumed_all (s : string) : consumed s EmptyString = s.
Proof. unfold consumed. cbn [String.length]. rewrite Nat.sub_0_r. apply take_all. Qed.

Lemma consumed_prefix (p s : string) : consumed (p ++ s) s = p.
Proof.
  unfold consumed. rewrite length_append.
  replace (String.length p + String.length s - String.length s) with (String.length p) by lia.
  apply take_append.
Qed.

(** Deciding the tests of the matcher on concrete code units. *)
Ltac decide_chars :=
  repeat match goal with
         | |- context [same_char ?a ?b] =>
             let v := eval vm_compute in (same_char a b) in
             change (same_char a b) with v
         | |- context [in_class ?c ?a] =>
             let v := eval vm_compute in (in_class c a) in
             change (in_class c a) with v
         end.

(** The match of the SELECT pattern on [SELECT * FROM t] for a word [t]:
    the greedy [(.+)] comes back to the last [ FROM ], [\w+] takes the
    whole name, and the WHERE group stays unset. *)
Lemma select_star_match (t : string) :
  word t ->
  match_here select_re ("SELECT * FROM " ++ t) = Some [(2, t); (1, "*")].
Proof.
  intros [Hne Hw].
  unfold match_here, select_re, seq. cbn [fold_right run].
  change ("SELECT * FROM " ++ t)%string with ("SELECT " ++ ("* FROM " ++ t))%string.
  rewrite lit_refl.
  change ("* FROM " ++ t)%string with (String "*" (" FROM " ++ t)).
  cbn [plus]. change (in_class Dot "*") with true. cbv iota.
  change (" FROM " ++ t)%string
    with (String " " (String "F" (String "R" (String "O" (String "M" (String " " t)))))).
  rewrite !star_step.
  rewrite star_fails_on_word; [|intros r Hr; apply (lit_space_in_word EmptyString); exact Hr|exact Hw].
  rewrite !lit_step. decide_chars. cbv iota.
  pose proof (fun k => lit_space_in_word (A:=captures) "FROM" t EmptyString k Hw) as E.
  cbn [append] in E. rewrite E. cbv iota. cbn [lit].
  destruct t as [|c t]; [contradiction Hne; reflexivity|].
  cbn [all_word] in Hw. apply andb_prop in Hw. destruct Hw as [Hc Hw].
  cbn [plus]. change (in_class Word c) with (is_word c). rewrite Hc.
  apply star_to_end.
  - intros a Ha. exact (all_word_In _ _ Hw Ha).
  - cbn [lit]. rewrite consumed_all.
    change (String "*" (String " " (String "F" (String "R" (String "O" (String "M" (String " " (String c t))))))))
      with ("*" ++ String " " (String "F" (String "R" (String "O" (String "M" (String " " (String c t)))))))%string.
    rewrite consumed_prefix. reflexivity.
Qed.

Lemma select_star_exec (t : string) :
  word t ->
  exec select_re ("SELECT * FROM " ++ t) = Some [(2, t); (1, "*")].
Proof.
  intros H. cbn [append exec]. 
  change (String "S" (String "E" (String "L" (String "E" (String "C" (String "T" (String " " (String "*" (String " " (String "F" (String "R" (String "O" (String "M" (String " " t))))))))))))))
    with ("SELECT * FROM " ++ t)%string.
  rewrite (select_star_match t H). reflexivity.
Qed.


Lemma words_select (t : string) :
  exists ps, words ("SELECT * FROM " ++ t) = "SELECT" :: ps.
Proof.
  unfold words, split. cbn [append]. 
  cbn [split_go startsWith Ascii.eqb Bool.eqb andb String.length Nat.sub filter truthy append].
  eexists. reflexivity.
Qed.

Lemma rev_unit (c : ascii) (s : string) : rev (String c s) = (rev s ++ String c EmptyString)%string.
Proof. unfold rev at 1. cbn [rev_onto]. apply rev_onto_spec. Qed.

Lemma rev_involutive (s : string) : rev (rev s) = s.
Proof.
  induction s as [|c s IH]; [reflexivity|].
  rewrite rev_unit, rev_append, IH. reflexivity.
Qed.

Lemma all_word_append (a b : string) :
  all_word (a ++ b) = all_word a && all_word b.
Proof.
  induction a as [|c a IH]; [reflexivity|].
  cbn [append all_word]. rewrite IH, andb_assoc. reflexivity.
Qed.

Lemma all_word_rev (s : string) : all_word (rev s) = all_word s.
Proof.
  induction s as [|c s IH]; [reflexivity|].
  rewrite rev_unit, all_word_append, IH. cbn [all_word].
  rewrite andb_true_r. apply andb_comm.
Qed.

Lemma rev_word (t : string) :
  word t -> exists c r, rev t = String c r /\ is_word c = true.
Proof.
  intros [Hne Hw]. rewrite <- all_word_rev in Hw.
  destruct (rev t) as [|c r] eqn:E.
  - exfalso. apply Hne. rewrite <- (rev_involutive t), E. reflexivity.
  - cbn [all_word] in Hw. apply andb_prop in Hw. destruct Hw as [Hc _]. eauto.
Qed.

Lemma normalize_select (t : string) :
  word t -> normalize ("SELECT * FROM " ++ t) = ("SELECT * FROM " ++ t)%string.
Proof.
  intros Ht. destruct (rev_word t Ht) as (c & r & Er & Hc).
  assert (Etrim : trim ("SELECT * FROM " ++ t) = ("SELECT * FROM " ++ t)%string).
  { unfold trim. change (trimStart ("SELECT * FROM " ++ t)) with ("SELECT * FROM " ++ t)%string.
    unfold trimEnd. rewrite rev_append, Er. cbn [append trimStart].
    rewrite (word_not_space c Hc).
    change (String c (r ++ rev "SELECT * FROM "))%string
      with (String c r ++ rev "SELECT * FROM ")%string.
    rewrite <- Er, <- rev_append. apply rev_involutive. }
  unfold normalize. rewrite Etrim.
  unfold endsWith. rewrite rev_append, Er. cbn [rev rev_onto append startsWith].
  destruct (Ascii.eqb ";" c) eqn:E; [|reflexivity].
  apply Ascii.eqb_eq in E. subst c. discriminate.
Qed.

(** On an existing table, [SELECT * FROM t] returns every row, in row
    order, projected on the declared columns in [Object.keys] order. *)
Lemma select_star (db : engine) (t : string) (tb : table) :
  word t ->
  tables_get (tables db) t = Own tb ->
  snd (execute db ("SELECT * FROM " ++ t))
  = Returned (RData (map (project (keys (columns tb))) (rows tb))
                    (List.length (rows tb))
                    (Some (keys (columns tb)))).
Proof.
  intros Ht Htb. unfold execute. rewrite (normalize_select t Ht).
  destruct (words_select t) as [ps ->].
  change (toUpperCase "SELECT") with "SELECT".
  change (dispatch "SELECT" ("SELECT * FROM " ++ t)) with (_select ("SELECT * FROM " ++ t)).
  unfold _select. rewrite (select_star_exec t Ht). monad_unfold.
  change (group 2 [(2, t); (1, "*")]) with t. rewrite Htb.
  cbn. rewrite length_map. reflexivity.
Qed.

End SelectStar.

(** The same rows come back from an engine that imported the snapshot. *)
Lemma imported_select_star (db : engine) (t : string) (tb : table) :
  word t ->
  tables_get (tables db) t = Own tb ->
  snd (execute (fromJSON constructor (toJSON db)) ("SELECT * FROM " ++ t))
  = Returned (RData (map (project (keys (columns tb))) (rows tb))
                    (List.length (rows tb))
                    (Some (keys (columns tb)))).
Proof. intros Ht Htb. apply select_star; assumption. Qed.

(** ** C8 and C4: the predicate evaluator *)

(** Every operator of the list has its [case]. *)
Lemma compare_with_operators (op : string) (x y : value) :
  In op operators -> compare_with op x y <> None.
Proof.
  unfold operators. simpl.
  intros [H|[H|[H|[H|[H|[H|[H|[]]]]]]]]; subst op; discriminate.
Qed.

Lemma evaluate_from_find (ops : list string) (row : obj) (condition : string) :
  (forall op, In op ops -> In op operators) ->
  evaluate_from ops row condition =
  match find (fun op => includes op condition) ops with
  | Some op =>
      match compare_with op (obj_get row (fst (operands op condition)))
                         (VPrim (_parseValue (snd (operands op condition)))) with
      | Some b => b
      | None => false
      end
  | None => false
  end.
Proof.
  induction ops as [|op ops IH]; intros Hin; [reflexivity|].
  cbn [evaluate_from find]. destruct (includes op condition).
  - destruct (operands op condition) as [lhs rhs]. cbn [fst snd].
    destruct (compare_with op (obj_get row lhs) (VPrim (_parseValue rhs))) eqn:E;
      [reflexivity|].
    exfalso. eapply compare_with_operators; [|exact E]. apply Hin. left. reflexivity.
  - apply IH. intros o Ho. apply Hin. right. exact Ho.
Qed.

Lemma evaluateWhere_selected (row : obj) (condition : string) :
  _evaluateWhere row condition =
  match selected_operator condition with
  | Some op =>
      match compare_with op (obj_get row (fst (operands op condition)))
                         (VPrim (_parseValue (snd (operands op condition)))) with
      | Some b => b
      | None => false
      end
  | None => false
  end.
Proof. apply evaluate_from_find. auto. Qed.

(** C8.  The evaluator tries the operators in the order [>=], [<=], [!=],
    [<>], [=], [<], [>] and evaluates the condition with the first one
    that occurs in the text, split at that operator.  In [age<=30] that
    operator is [<=], with [age] and [30] as operands, so a row whose age
    is 30 satisfies the condition. *)
Theorem operator_priority :
  forall (row : obj) (condition : string),
    operators = [">="; "<="; "!="; "<>"; "="; "<"; ">"] /\
    _evaluateWhere row condition =
      match find (fun op => includes op condition) operators with
      | Some op =>
          match compare_with op (obj_get row (fst (operands op condition)))
                             (VPrim (_parseValue (snd (operands op condition)))) with
          | Some b => b
          | None => false
          end
      | None => false
      end /\
    find (fun op => includes op "age<=30") operators = Some "<=" /\
    operands "<=" "age<=30" = ("age", "30") /\
    (obj_get row "age" = VPrim (PNum (Number "30")) ->
     _evaluateWhere row "age<=30" = true).
Proof.
  intros row condition.
  split; [reflexivity|].
  split; [apply evaluateWhere_selected|].
  split; [reflexivity|].
  split; [reflexivity|].
  intros H. rewrite evaluateWhere_selected.
  change (selected_operator "age<=30") with (Some "<=").
  cbv iota beta.
  change (operands "<=" "age<=30") with ("age", "30").
  cbn [fst snd]. rewrite H. vm_compute. reflexivity.
Qed.

Lemma operator_priority_witness :
  _evaluateWhere (mkObj true [("id", PNum (Number "2")); ("age", PNum (Number "30"))])
                 "age<=30" = true.
Proof.
  apply (operator_priority
           (mkObj true [("id", PNum (Number "2")); ("age", PNum (Number "30"))])
           "age<=30").
  vm_compute. reflexivity.
Defined.

(** In an ordering comparison [null] converts to the number [+0]. *)
Lemma less_than_null_left (y : value) :
  less_than (VPrim PNull) y = less_than (VPrim (PNum zero)) y.
Proof. reflexivity. Qed.

Lemma less_than_null_right (x : value) :
  less_than x (VPrim PNull) = less_than x (VPrim (PNum zero)).
Proof. unfold less_than. destruct (as_string x); reflexivity. Qed.

Lemma compare_with_null_left (op : string) (y : value) :
  In op ordering_operators ->
  compare_with op (VPrim PNull) y = compare_with op (VPrim (PNum zero)) y.
Proof.
  simpl. intros [H|[H|[H|[H|[]]]]]; subst op; unfold compare_with; simpl;
    unfold lt, gt, le, ge; rewrite ?less_than_null_left, ?less_than_null_right;
    reflexivity.
Qed.

Lemma compare_with_null_right (op : string) (x : value) :
  In op ordering_operators ->
  compare_with op x (VPrim PNull) = compare_with op x (VPrim (PNum zero)).
Proof.
  simpl. intros [H|[H|[H|[H|[]]]]]; subst op; unfold compare_with; simpl;
    unfold lt, gt, le, ge; rewrite ?less_than_null_left, ?less_than_null_right;
    reflexivity.
Qed.

(** C4, as the code has it.  When the operator of a condition is one of
    [<], [>], [<=], [>=] and the row's column value or the literal is
    [null], the predicate is the comparison with [null] replaced by the
    number 0. *)
Theorem null_ordering_as_zero :
  forall (row : obj) (condition op : string),
    selected_operator condition = Some op ->
    In op ordering_operators ->
    let lhs := fst (operands op condition) in
    let rhs := snd (operands op condition) in
    (obj_get row lhs = VPrim PNull ->
     Some (_evaluateWhere row condition)
     = compare_with op (VPrim (PNum zero)) (VPrim (_parseValue rhs))) /\
    (_parseValue rhs = PNull ->
     Some (_evaluateWhere row condition)
     = compare_with op (obj_get row lhs) (VPrim (PNum zero))).
Proof.
  intros row condition op Hsel Hop lhs rhs.
  assert (Hops : In op operators).
  { revert Hop. unfold ordering_operators, operators. simpl. intuition. }
  rewrite evaluateWhere_selected, Hsel. fold lhs rhs.
  split; intros H; rewrite H.
  - rewrite compare_with_null_left by exact Hop.
    destruct (compare_with op _ _) eqn:E; [reflexivity|].
    exfalso. exact (compare_with_operators _ _ _ Hops E).
  - rewrite compare_with_null_right by exact Hop.
    destruct (compare_with op _ _) eqn:E; [reflexivity|].
    exfalso. exact (compare_with_operators _ _ _ Hops E).
Qed.

Lemma null_ordering_as_zero_witness :
  Some (_evaluateWhere (mkObj true [("age", PNull)]) "age <= 0")
  = compare_with "<=" (VPrim (PNum zero)) (VPrim (_parseValue "0")).
Proof.
  refine (proj1 (null_ordering_as_zero (mkObj true [("age", PNull)])
                                      "age <= 0" "<=" _ _) _).
  - reflexivity.
  - simpl. auto.
  - reflexivity.
Defined.

(** C4 as stated fails: a row whose [age] is [null] satisfies [age <= 0],
    and a row whose [age] is 0 satisfies [age >= null]. *)
Lemma null_ordering_counterexample :
  selected_operator "age <= 0" = Some "<=" /\
  obj_get (mkObj true [("age", PNull)]) (fst (operands "<=" "age <= 0")) = VPrim PNull /\
  _evaluateWhere (mkObj true [("age", PNull)]) "age <= 0" = true /\
  selected_operator "age >= null" = Some ">=" /\
  _parseValue (snd (operands ">=" "age >= null")) = PNull /\
  _evaluateWhere (mkObj true [("age", PNum (Number "0"))]) "age >= null" = true /\
  ~ (forall (row : obj) (condition op : string),
        selected_operator condition = Some op ->
        In op ordering_operators ->
        obj_get row (fst (operands op condition)) = VPrim PNull \/
        _parseValue (snd (operands op condition)) = PNull ->
        _evaluateWhere row condition = false).
Proof.
  repeat (split; [vm_compute; reflexivity|]).
  intros H.
  specialize (H (mkObj true [("age", PNull)]) "age <= 0" "<=").
  assert (E : _evaluateWhere (mkObj true [("age", PNull)]) "age <= 0" = true)
    by (vm_compute; reflexivity).
  rewrite H in E; [discriminate|reflexivity|simpl; auto|left; reflexivity].
Qed.

(** ** C1: the WHERE clause of UPDATE *)

(** In the pattern of [_update] the greedy [(.+)] of the SET clause runs
    to the end of the line, where the optional WHERE group matches the
    empty text: the third capture is never set. *)
Lemma update_where_never_captured (sql : string) (m : captures) :
  exec update_re sql = Some m -> capture 3 m = None.
Proof.
  intros H. apply exec_success in H. destruct H as [s H].
  unfold match_here, update_re, seq in H. cbn [fold_right run] in H.
  apply lit_success in H. destruct H as [r1 H].
  apply plus_success in H. destruct H as [r2 H].
  apply lit_success in H. destruct H as [r3 H].
  destruct r3 as [|a r3]; [discriminate|]. cbn [plus] in H.
  destruct (in_class Dot a); [|discriminate].
  apply star_greedy in H.
  - destruct H as (rest & Hstop & H).
    rewrite (where_not_at_stop rest _ Hstop) in H.
    inversion H; subst. reflexivity.
  - intros rest. destruct (lit " WHERE " rest _); discriminate.
Qed.

Lemma update_row_unconditional (updates row : obj) :
  update_row None updates row = (assign row updates, true).
Proof. reflexivity. Qed.

(** Whatever follows SET, a successful UPDATE assigns to every row of the
    table and counts every row. *)
Lemma update_counts_every_row (sql : string) (c c' : catalog) (n : nat) :
  _update sql c = (c', inr (RowsUpdated n)) ->
  exists m t updates,
    exec update_re sql = Some m /\
    tables_get c (group 1 m) = Own t /\
    n = List.length (rows t) /\
    c' = replace (group 1 m)
           (mkTable (columns t) (constraints t)
                    (map (fun row => assign row updates) (rows t)) (indexes t)) c.
Proof.
  unfold _update. destruct (exec update_re sql) as [m|] eqn:Em; [|discriminate].
  rewrite (update_where_never_captured _ _ Em). monad_unfold.
  destruct (tables_get c (group 1 m)) as [t| |] eqn:Et.
  - destruct (fold_left assignment _ _) as [e|updates]; [discriminate|].
    intros H. inversion H; subst. exists m, t, updates.
    repeat split; try assumption.
    + clear. induction (rows t) as [|r rs IH]; simpl; auto.
    + f_equal. f_equal. rewrite map_map. apply map_ext. reflexivity.
  - destruct (fold_left assignment _ _); discriminate.
  - discriminate.
Qed.

(** C1.  [UPDATE t SET x=1 WHERE id=2] on the rows [(1, 0)] and [(2, 0)]:
    the WHERE text is taken as part of the assigned literal, both rows get
    the string ["1 WHERE id"] in [x], and two rows are reported, where
    the claim has the row with [id = 2] alone updated, to the number 1. *)
Theorem update_where_ignored :
  execute two_rows_db "UPDATE t SET x=1 WHERE id=2"
  = (mkEngine
       [("t",
         mkTable [("id", "INT"); ("x", "INT")] [("primaryKey", CKey "id")]
                 [ mkObj true [("id", PNum (Number "1")); ("x", PStr "1 WHERE id")];
                   mkObj true [("id", PNum (Number "2")); ("x", PStr "1 WHERE id")] ]
                 [])]
       (history two_rows_db ++ ["UPDATE t SET x=1 WHERE id=2"]),
     Returned (RMessage (RowsUpdated 2))).
Proof. vm_compute. reflexivity. Qed.

(** Without WHERE every row is updated, as the claim says. *)
Example update_without_where :
  execute two_rows_db "UPDATE t SET x=1"
  = (mkEngine
       [("t",
         mkTable [("id", "INT"); ("x", "INT")] [("primaryKey", CKey "id")]
                 [ mkObj true [("id", PNum (Number "1")); ("x", PNum (Number "1"))];
                   mkObj true [("id", PNum (Number "2")); ("x", PNum (Number "1"))] ]
                 [])]
       (history two_rows_db ++ ["UPDATE t SET x=1"]),
     Returned (RMessage (RowsUpdated 2))).
Proof. vm_compute. reflexivity. Qed.

(** ** C2: quoted literals *)

Lemma slice_quoted (q : ascii) (s : string) : slice (quoted q s) 1 (-1) = s.
Proof.
  unfold slice, quoted. cbn [String.length].
  rewrite length_append. cbn [String.length].
  set (n := String.length s).
  change (1 <? 0)%Z with false. change (-1 <? 0)%Z with true. cbv iota.
  replace (Z.min 1 (Z.of_nat (S (n + 1)))) with 1%Z by lia.
  replace (Z.to_nat (Z.max (Z.max (Z.of_nat (S (n + 1)) + -1) 0 - 1) 0)) with n by lia.
  change (Z.to_nat 1) with 1. cbn [drop]. apply take_append.
Qed.

Lemma endsWith_quoted (q : ascii) (s : string) :
  endsWith (String q EmptyString) (quoted q s) = true.
Proof.
  unfold endsWith, quoted.
  change (String q (s ++ String q EmptyString))
    with ((String q EmptyString ++ (s ++ String q EmptyString))%string).
  rewrite !rev_append. unfold rev at 1 2. simpl. rewrite Ascii.eqb_refl. reflexivity.
Qed.

(** The part of C2 that holds: [_parseValue], which classifies the literals
    of WHERE and SET, returns the text between the quotes. *)
Lemma parseValue_quoted (q : ascii) (s : string) :
  is_quote q -> _parseValue (quoted q s) = PStr s.
Proof.
  intros [Hq|Hq]; subst q; unfold _parseValue.
  - change squote with (String (ascii_of_N 39) EmptyString).
    rewrite endsWith_quoted. simpl. rewrite slice_quoted. reflexivity.
  - change dquote with (String (ascii_of_N 34) EmptyString).
    rewrite endsWith_quoted. simpl. rewrite slice_quoted. reflexivity.
Qed.

(** Inside quotes the scanner of [_parseValues] accumulates every code
    unit other than the closing quote. *)
Lemma scan_inside_quotes (q : ascii) (s : string) (vs : list prim) (cur : string) :
  (forall c, In c (list_ascii_of_string s) -> c <> q) ->
  fold_left scan_char (list_ascii_of_string s)
            (mkScanner vs cur true (String q EmptyString))
  = mkScanner vs (cur ++ s) true (String q EmptyString).
Proof.
  revert cur. induction s as [|c s IH]; intros cur Hs; simpl.
  - rewrite append_empty_r. reflexivity.
  - assert (Hc : c <> q) by (apply Hs; left; reflexivity).
    unfold scan_char at 2. cbn [inQuotes quoteChar values current negb].
    rewrite !andb_false_r. cbn [String.eqb].
    destruct (Ascii.eqb c q) eqn:E; [apply Ascii.eqb_eq in E; contradiction|].
    cbn [andb]. rewrite IH.
    + rewrite append_assoc. reflexivity.
    + intros c' Hc'. apply Hs. right. exact Hc'.
Qed.

(** The part of C2 that fails: in a value list the scanner stores a quoted
    token as it stands, quotes included, without calling [_parseValue]. *)
Lemma parseValues_quoted (q : ascii) (s : string) :
  is_quote q ->
  (forall c, In c (list_ascii_of_string s) -> c <> q) ->
  _parseValues (quoted q s) = [PStr (quoted q s)].
Proof.
  intros Hq Hs. unfold _parseValues, quoted.
  cbn [list_ascii_of_string fold_left].
  rewrite list_ascii_of_string_append, fold_left_app.
  assert (E1 : scan_char (mkScanner [] EmptyString false EmptyString) q
               = mkScanner [] (String q EmptyString) true (String q EmptyString)).
  { destruct Hq; subst q; reflexivity. }
  rewrite E1, (scan_inside_quotes q s) by exact Hs.
  cbn [list_ascii_of_string fold_left].
  assert (E2 : scan_char (mkScanner [] (String q EmptyString ++ s) true (String q EmptyString)) q
               = mkScanner [PStr ((String q EmptyString ++ s) ++ String q EmptyString)]
                           EmptyString false (String q EmptyString)).
  { unfold scan_char. cbn [inQuotes quoteChar values current negb].
    rewrite !andb_false_r. rewrite String.eqb_refl. reflexivity. }
  rewrite E2. reflexivity.
Qed.

(** C2.  The scenario of the specification: after the two inserts,
    [SELECT name, age FROM users WHERE age >= 30] returns one row and count
    1, but the name in it is the token with its quotes, ['Bob'], where the
    claim has [Bob]. *)
Theorem scenario_keeps_quotes :
  snd (execute users_db "SELECT name, age FROM users WHERE age >= 30")
  = Returned
      (RData
         [ mkRecord ProtoObject
             [ ("name", VPrim (PStr "'Bob'"));
               ("age", VPrim (PNum (Number "30"))) ] ]
         1 (Some ["name"; "age"])) /\
  _parseValues "'Bob'" = [PStr "'Bob'"] /\
  _parseValue "'Bob'" = PStr "Bob".
Proof. repeat split. Qed.

(** ** C6: the primary-key check of INSERT *)

Lemma command_dispatch_insert (sql : string) (c : catalog) :
  dispatch "INSERT" sql c = as_result (_insert sql) c.
Proof. reflexivity. Qed.

(** C6, as the code has it.  For a table whose primary key is the declared
    column [pkCol] and an INSERT with one value per column, [execute]
    returns the duplicate-key error and leaves the catalog unchanged if
    and only if some existing row holds under [pkCol] a value strictly
    equal ([===]: same kind and same value, no coercion) to the inserted
    primary-key value; otherwise it appends one row. *)
Theorem insert_duplicate_iff_strict :
  forall (db : engine) (sql : string) (m : captures) (t : table) (pkCol : string),
    command_of sql = Some "INSERT" ->
    exec insert_re (normalize sql) = Some m ->
    tables_get (tables db) (group 1 m) = Own t ->
    own_get "primaryKey" (constraints t) = Some (CKey pkCol) ->
    pkCol <> EmptyString ->
    List.length (_parseValues (group 2 m)) = List.length (keys (columns t)) ->
    let pkValue :=
      element (_parseValues (group 2 m)) (indexOf pkCol (keys (columns t))) in
    let duplicate :=
      exists row, In row (rows t) /\ strict_eq (obj_get row pkCol) pkValue = true in
    ((snd (execute db sql) = Returned (RError (DuplicateKey pkValue)) /\
      tables (fst (execute db sql)) = tables db) <-> duplicate) /\
    (~ duplicate ->
     exists row,
       execute db sql
       = (mkEngine
            (replace (group 1 m)
               (mkTable (columns t) (constraints t) (rows t ++ [row]) (indexes t))
               (tables db))
            (history db ++ [sql]),
          Returned (RMessage RowInserted))).
Proof.
  intros db sql m t pkCol Hcmd Hm Ht Hpk Hne Hlen pkValue duplicate.
  unfold command_of in Hcmd. unfold execute.
  destruct (words (normalize sql)) as [|p0 ps]; [discriminate|].
  inversion Hcmd as [Hp0]. rewrite Hp0, command_dispatch_insert.
  unfold as_result, _insert. rewrite Hm. monad_unfold. rewrite Ht, Hlen.
  rewrite Nat.eqb_refl. cbn [negb].
  unfold primary_key. rewrite Hpk.
  assert (Htr : truthy pkCol = true) by (destruct pkCol; [contradiction Hne|]; reflexivity).
  rewrite Htr. fold pkValue.
  destruct (existsb (fun row => strict_eq (obj_get row pkCol) pkValue) (rows t)) eqn:Ex.
  - assert (Hd : duplicate).
    { apply existsb_exists in Ex. exact Ex. }
    split.
    + split; [intros _; exact Hd | intros _; split; reflexivity].
    + intros Hn. contradiction.
  - assert (Hd : ~ duplicate).
    { intros Hd. apply existsb_exists in Hd. rewrite Hd in Ex. discriminate. }
    split.
    + split; [intros [H _]; discriminate | intros H; contradiction].
    + intros _. eexists. reflexivity.
Qed.

Lemma insert_duplicate_iff_strict_witness :
  snd (execute users_db "INSERT INTO users VALUES (2,'Carol','c@x.com',41)")
  = Returned (RError (DuplicateKey (VPrim (PNum (Number "2"))))) /\
  tables (fst (execute users_db "INSERT INTO users VALUES (2,'Carol','c@x.com',41)"))
  = tables users_db.
Proof.
  refine (proj2 (proj1 (insert_duplicate_iff_strict users_db
            "INSERT INTO users VALUES (2,'Carol','c@x.com',41)"
            [(2, "2,'Carol','c@x.com',41"); (1, "users")]
            (mkTable
               [("id", "INT"); ("name", "TEXT"); ("email", "TEXT"); ("age", "INT")]
               [("primaryKey", CKey "id"); ("email", CUnique)]
               [ mkObj true [("id", PNum (Number "1")); ("name", PStr "'Alice'");
                             ("email", PStr "'a@x.com'"); ("age", PNum (Number "25"))];
                 mkObj true [("id", PNum (Number "2")); ("name", PStr "'Bob'");
                             ("email", PStr "'b@x.com'"); ("age", PNum (Number "30"))] ]
               [])
            "id" _ _ _ _ _ _)) _).
  - vm_compute. reflexivity.
  - vm_compute. reflexivity.
  - vm_compute. reflexivity.
  - reflexivity.
  - discriminate.
  - vm_compute. reflexivity.
  - exists (mkObj true [("id", PNum (Number "2")); ("name", PStr "'Bob'");
                        ("email", PStr "'b@x.com'"); ("age", PNum (Number "30"))]).
    split; [right; left; reflexivity | vm_compute; reflexivity].
Defined.

(** C6 as stated fails: [true] and [1] are equal under the coercive
    equality of the predicate evaluator, yet inserting the key [1] next
    to the key [true] is no duplicate: the row is appended. *)
Lemma coercive_duplicate_counterexample :
  tables true_key_db
  = [("t", mkTable [("id", "INT")] [("primaryKey", CKey "id")]
                   [mkObj true [("id", PBool true)]] [])] /\
  loose_eq (VPrim (PBool true)) (VPrim (PNum (Number "1"))) = true /\
  execute true_key_db "INSERT INTO t VALUES (1)"
  = (mkEngine
       [("t", mkTable [("id", "INT")] [("primaryKey", CKey "id")]
                      [ mkObj true [("id", PBool true)];
                        mkObj true [("id", PNum (Number "1"))] ] [])]
       (history true_key_db ++ ["INSERT INTO t VALUES (1)"]),
     Returned (RMessage RowInserted)).
Proof. repeat split. Qed.

(** ** C7: the keys of a row *)

Section OwnFacts.
Context {V : Type}.

Lemma own_get_In (k : string) (v : V) (l : props V) :
  own_get k l = Some v -> In (k, v) l.
Proof.
  induction l as [|[k' v'] l IH]; simpl; [discriminate|].
  destruct (String.eqb k k') eqn:E.
  - apply String.eqb_eq in E. subst k'. intros H; inversion H; subst. left. reflexivity.
  - intros H. right. apply IH. exact H.
Qed.

Lemma own_has_In (k : string) (l : props V) :
  own_has k l = true -> In k (keys l).
Proof.
  unfold own_has. destruct (own_get k l) as [v|] eqn:E; [|discriminate].
  intros _. apply own_get_In in E. apply (in_map fst) in E. exact E.
Qed.

Lemma keys_replace (k : string) (v : V) (l : props V) :
  keys (replace k v l) = keys l.
Proof.
  induction l as [|[k' v'] l IH]; simpl; [reflexivity|].
  destruct (String.eqb k k'); simpl; [reflexivity | rewrite IH; reflexivity].
Qed.

Lemma In_replace (k : string) (v : V) (l : props V) (n : string) (x : V) :
  In (n, x) (replace k v l) -> In (n, x) l \/ (n = k /\ x = v).
Proof.
  induction l as [|[k' v'] l IH]; simpl; [contradiction|].
  destruct (String.eqb k k') eqn:E; simpl.
  - apply String.eqb_eq in E. subst k'.
    intros [H|H]; [inversion H; subst; right; split; reflexivity | left; right; exact H].
  - intros [H|H]; [left; left; exact H|].
    destruct (IH H) as [H'|H']; [left; right; exact H' | right; exact H'].
Qed.

Lemma In_insert_index (i : Z) (k : string) (v : V) (l : props V) (e : string * V) :
  In e (insert_index i k v l) <-> e = (k, v) \/ In e l.
Proof.
  induction l as [|[k' v'] l IH]; simpl.
  - intuition.
  - destruct (array_index k') as [j|].
    + destruct (j <? i)%Z; simpl; [rewrite IH|]; intuition.
    + simpl. intuition.
Qed.

Lemma In_own_put (k : string) (v : V) (l : props V) (n : string) (x : V) :
  In (n, x) (own_put k v l) -> In (n, x) l \/ (n = k /\ x = v).
Proof.
  unfold own_put. destruct (own_has k l).
  - apply In_replace.
  - destruct (array_index k) as [i|].
    + rewrite In_insert_index. intros [H|H]; [inversion H; auto | auto].
    + rewrite in_app_iff. simpl. intros [H|[H|[]]]; [auto | inversion H; auto].
Qed.

Lemma keys_own_put (k : string) (v : V) (l : props V) (x : string) :
  In x (keys (own_put k v l)) <-> x = k \/ In x (keys l).
Proof.
  unfold own_put. destruct (own_has k l) eqn:E.
  - rewrite keys_replace. apply own_has_In in E. split; [auto|].
    intros [H|H]; [subst; exact E | exact H].
  - unfold keys. destruct (array_index k) as [i|].
    + rewrite !in_map_iff. split.
      * intros ([n y] & Hn & Hin). simpl in Hn. subst n.
        apply In_insert_index in Hin. destruct Hin as [H|H].
        -- inversion H. auto.
        -- right. exists (x, y). auto.
      * intros [H|([n y] & Hn & Hin)].
        -- subst x. exists (k, v). split; [reflexivity|].
           apply In_insert_index. auto.
        -- exists (n, y). split; [exact Hn|]. apply In_insert_index. auto.
    + rewrite map_app, in_app_iff. simpl. intuition.
Qed.

Lemma In_own_delete (k : string) (l : props V) (e : string * V) :
  In e (own_delete k l) -> In e l.
Proof. unfold own_delete. rewrite filter_In. intuition. Qed.

End OwnFacts.

Lemma set_plain_no_proto {V : Type} (k : string) (v : V) (l : props V) :
  ~ In "__proto__" (keys l) -> ~ In "__proto__" (keys (set_plain k v l)).
Proof.
  intros Hl. unfold set_plain.
  destruct (String.eqb k "__proto__") eqn:Ek.
  - apply String.eqb_eq in Ek. subst k.
    destruct (own_has "__proto__" l) eqn:Eh.
    + apply own_has_In in Eh. contradiction.
    + exact Hl.
  - apply String.eqb_neq in Ek. cbn [andb].
    rewrite keys_own_put. intros [H|H]; [congruence | contradiction].
Qed.

(** [obj_set] never removes a key and adds at most the key it sets; it
    adds that key unless the key is [__proto__]. *)
Lemma obj_set_keeps (o : obj) (k : string) (p : prim) (x : string) :
  In x (keys (obj_own o)) -> In x (keys (obj_own (obj_set o k p))).
Proof.
  intros H. unfold obj_set.
  destruct (_ && _ && _); [destruct p; exact H|].
  cbn [obj_own]. apply keys_own_put. auto.
Qed.

Lemma obj_set_adds (o : obj) (k : string) (p : prim) (x : string) :
  In x (keys (obj_own (obj_set o k p))) -> x = k \/ In x (keys (obj_own o)).
Proof.
  unfold obj_set.
  destruct (_ && _ && _); [destruct p; auto|].
  cbn [obj_own]. apply keys_own_put.
Qed.

Lemma obj_set_sets (o : obj) (k : string) (p : prim) :
  k <> "__proto__" -> In k (keys (obj_own (obj_set o k p))).
Proof.
  intros Hk. unfold obj_set. apply String.eqb_neq in Hk. rewrite Hk.
  cbn [andb obj_own]. apply keys_own_put. auto.
Qed.

(** The keys of the row that [_insert] builds. *)
Lemma built_row_keys (l : list (string * prim)) (r : obj) (x : string) :
  (forall k, In k (map fst l) -> k <> "__proto__") ->
  In x (keys (obj_own (fold_left (fun r cv => obj_set r (fst cv) (snd cv)) l r)))
  <-> In x (keys (obj_own r)) \/ In x (map fst l).
Proof.
  revert r. induction l as [|[k v] l IH]; intros r Hl; simpl.
  - intuition.
  - rewrite IH by (intros k' Hk'; apply Hl; right; exact Hk').
    split.
    + intros [H|H]; [|auto]. apply obj_set_adds in H. intuition.
    + intros [H|[H|H]].
      * left. apply obj_set_keeps. exact H.
      * left. subst x. apply obj_set_sets. apply Hl. left. reflexivity.
      * auto.
Qed.

(** [Object.assign] keeps the keys of the target and adds at most the keys
    of the source. *)
Lemma assign_keys (target source : obj) (x : string) :
  (In x (keys (obj_own target)) -> In x (keys (obj_own (assign target source)))) /\
  (In x (keys (obj_own (assign target source))) ->
   In x (keys (obj_own target)) \/ In x (keys (obj_own source))).
Proof.
  unfold assign. revert target.
  induction (obj_own source) as [|[k v] l IH]; intros target; simpl.
  - intuition.
  - destruct (IH (obj_set target k v)) as [IH1 IH2]. split.
    + intros H. apply IH1. apply obj_set_keeps. exact H.
    + intros H. destruct (IH2 H) as [H'|H']; [|auto].
      apply obj_set_adds in H'. intuition.
Qed.

Lemma assignment_step (u0 : obj) (pair : string) :
  assignment (inr u0) pair =
  match nth_error (map trim (split "=" pair)) 1 with
  | Some val => inr (obj_set u0 (assigned_column pair) (_parseValue val))
  | None => inl TypeError
  end.
Proof. reflexivity. Qed.

Lemma assignment_thrown (pairs : list string) (e : error) :
  fold_left assignment pairs (inl e) = inl e.
Proof. induction pairs as [|p ps IH]; [reflexivity | exact IH]. Qed.

(** The keys of [updates] are among the assigned columns. *)
Lemma updates_keys (pairs : list string) (u0 u : obj) (x : string) :
  fold_left assignment pairs (inr u0) = inr u ->
  In x (keys (obj_own u)) ->
  In x (keys (obj_own u0)) \/ In x (map assigned_column pairs).
Proof.
  revert u0. induction pairs as [|pair pairs IH]; intros u0; cbn [fold_left map].
  - intros H; inversion H; subst. auto.
  - rewrite assignment_step.
    destruct (nth_error (map trim (split "=" pair)) 1) as [val|].
    + intros H Hx. destruct (IH _ H Hx) as [H'|H']; [|right; right; exact H'].
      apply obj_set_adds in H'. destruct H' as [H'|H']; [|auto].
      right. left. symmetry. exact H'.
    + rewrite assignment_thrown. discriminate.
Qed.

Section Invariant.

Lemma tables_get_In (c : catalog) (name : string) (t : table) :
  tables_get c name = Own t -> In (name, t) c.
Proof.
  unfold tables_get. destruct (own_get name c) as [t'|] eqn:E.
  - intros H; inversion H; subst. apply own_get_In. exact E.
  - destruct (inherited name); discriminate.
Qed.

(** Replacing a table by one with the same columns and conforming rows. *)
Lemma well_formed_replace (c : catalog) (name : string) (t t' : table) :
  well_formed c ->
  In (name, t) c ->
  columns t' = columns t ->
  (forall r, In r (rows t') -> row_conforms t r) ->
  well_formed (replace name t' c).
Proof.
  intros [Hc Hp] Hin Hcols Hrows. split.
  - intros n tb Hn r Hr. apply In_replace in Hn. destruct Hn as [Hn|[_ Hn]].
    + exact (Hc _ _ Hn _ Hr).
    + subst tb. intros k. unfold row_conforms in Hrows.
      rewrite Hcols. apply Hrows. exact Hr.
  - intros n tb Hn. apply In_replace in Hn. destruct Hn as [Hn|[_ Hn]].
    + exact (Hp _ _ Hn).
    + subst tb. rewrite Hcols. exact (Hp _ _ Hin).
Qed.

Lemma column_definitions_no_proto (defs : list string)
      (cols cols' : props string) (cstr cstr' : props constraint) :
  fold_left column_definition defs (inr (cols, cstr)) = inr (cols', cstr') ->
  ~ In "__proto__" (keys cols) -> ~ In "__proto__" (keys cols').
Proof.
  revert cols cstr. induction defs as [|d defs IH]; intros cols cstr; cbn [fold_left].
  - intros H; inversion H; subst. auto.
  - unfold column_definition at 2.
    destruct (nth_error (split_ws (trim d)) 1) as [p1|].
    + intros H Hn. eapply IH; [exact H|]. apply set_plain_no_proto. exact Hn.
    + intros H. exfalso. clear IH. revert H.
      induction defs as [|d' ds IHd]; cbn [fold_left]; [discriminate | exact IHd].
Qed.

Lemma createTable_well_formed (sql : string) (c c' : catalog) (x : error + message) :
  well_formed c -> _createTable sql c = (c', x) -> well_formed c'.
Proof.
  intros Hwf. unfold _createTable.
  destruct (exec create_re sql) as [m|]; monad_unfold;
    [|intros E; inversion E; subst; exact Hwf].
  destruct (tables_get c (group 1 m));
    try (intros E; inversion E; subst; exact Hwf).
  destruct (fold_left column_definition _ _) as [e|[cols cstr]] eqn:Ed;
    intros E; inversion E; subst; [exact Hwf|].
  destruct Hwf as [Hc Hp]. cbn [fst snd]. split.
  - intros n tb Hn r Hr. apply In_own_put in Hn. destruct Hn as [Hn|[_ Hn]].
    + exact (Hc _ _ Hn _ Hr).
    + subst tb. contradiction Hr.
  - intros n tb Hn. apply In_own_put in Hn. destruct Hn as [Hn|[_ Hn]].
    + exact (Hp _ _ Hn).
    + subst tb. cbn [columns].
      eapply column_definitions_no_proto; [exact Ed|]. intros [].
Qed.

Lemma map_fst_combine {A B : Type} (l : list A) (l' : list B) :
  List.length l = List.length l' -> map fst (combine l l') = l.
Proof.
  revert l'. induction l as [|a l IH]; intros [|b l']; simpl; try discriminate.
  - reflexivity.
  - intros H. inversion H. rewrite IH by assumption. reflexivity.
Qed.

Lemma insert_well_formed (sql : string) (c c' : catalog) (x : error + message) :
  well_formed c -> _insert sql c = (c', x) -> well_formed c'.
Proof.
  intros Hwf. unfold _insert.
  destruct (exec insert_re sql) as [m|]; monad_unfold;
    [|intros E; inversion E; subst; exact Hwf].
  destruct (tables_get c (group 1 m)) as [t| |] eqn:Et;
    try (intros E; inversion E; subst; exact Hwf).
  destruct (Nat.eqb _ _) eqn:Elen; cbn [negb];
    [|intros E; inversion E; subst; exact Hwf].
  apply Nat.eqb_eq in Elen. apply tables_get_In in Et.
  assert (Hnew : c' = replace (group 1 m)
                   (mkTable (columns t) (constraints t)
                      (rows t ++
                       [fold_left (fun r cv => obj_set r (fst cv) (snd cv))
                                  (combine (keys (columns t)) (_parseValues (group 2 m)))
                                  empty_obj])
                      (indexes t)) c ->
                 well_formed c').
  { intros ->. apply (well_formed_replace c _ t); auto.
    cbn [rows]. intros r Hr. apply in_app_iff in Hr. destruct Hr as [Hr|[Hr|[]]].
    - destruct Hwf as [Hc _]. exact (Hc _ _ Et _ Hr).
    - subst r. intros k. rewrite built_row_keys.
      + rewrite map_fst_combine by (symmetry; exact Elen). simpl. intuition.
      + rewrite map_fst_combine by (symmetry; exact Elen).
        intros k' Hk' ->. destruct Hwf as [_ Hp]. exact (Hp _ _ Et Hk'). }
  destruct (primary_key t) as [[pkCol pkIndex]|].
  - destruct (existsb _ _); intros E; inversion E; subst;
      [exact Hwf | apply Hnew; reflexivity].
  - intros E; inversion E; subst. apply Hnew; reflexivity.
Qed.

Lemma update_well_formed (sql : string) (c c' : catalog) (x : error + message) :
  well_formed c -> assigns_declared c sql = true ->
  _update sql c = (c', x) -> well_formed c'.
Proof.
  intros Hwf. unfold _update, assigns_declared.
  destruct (exec update_re sql) as [m|]; monad_unfold;
    [|intros _ E; inversion E; subst; exact Hwf].
  destruct (tables_get c (group 1 m)) as [t| |] eqn:Et.
  - intros Hdecl.
    destruct (fold_left assignment _ _) as [e|updates] eqn:Eu;
      intros E; inversion E; subst; [exact Hwf|].
    apply tables_get_In in Et.
    apply (well_formed_replace c _ t); auto.
    cbn [rows]. intros r Hr. rewrite map_map in Hr. apply in_map_iff in Hr.
    destruct Hr as (r0 & Hr0 & Hin).
    assert (H0 : row_conforms t r0) by (destruct Hwf as [Hc _]; exact (Hc _ _ Et _ Hin)).
    unfold update_row in Hr0.
    destruct (_ || _); cbn [fst] in Hr0; subst r; [|exact H0].
    intros k. destruct (assign_keys r0 updates k) as [K1 K2]. split.
    + intros Hk. destruct (K2 Hk) as [Hk'|Hk']; [apply H0; exact Hk'|].
      destruct (updates_keys _ _ _ _ Eu Hk') as [[]|Hcol].
      apply in_map_iff in Hcol. destruct Hcol as (pair & Hpair & Hp).
      rewrite forallb_forall in Hdecl. specialize (Hdecl _ Hp).
      apply existsb_exists in Hdecl. destruct Hdecl as (col & Hcol & Heq).
      apply String.eqb_eq in Heq. subst. exact Hcol.
    + intros Hk. apply K1. apply H0. exact Hk.
  - intros _. destruct (fold_left assignment _ _);
      intros E; inversion E; subst; exact Hwf.
  - intros _ E; inversion E; subst; exact Hwf.
Qed.

Lemma delete_well_formed (sql : string) (c c' : catalog) (x : error + message) :
  well_formed c -> _delete sql c = (c', x) -> well_formed c'.
Proof.
  intros Hwf. unfold _delete.
  destruct (exec delete_re sql) as [m|]; monad_unfold;
    [|intros E; inversion E; subst; exact Hwf].
  destruct (tables_get c (group 1 m)) as [t| |] eqn:Et;
    try (intros E; inversion E; subst; exact Hwf).
  intros E; inversion E; subst. apply tables_get_In in Et.
  apply (well_formed_replace c _ t); auto.
  cbn [rows]. intros r Hr.
  assert (Hin : In r (rows t)).
  { destruct (capture 2 m) as [w|]; [|contradiction Hr].
    destruct (truthy w); [|contradiction Hr].
    apply filter_In in Hr. apply Hr. }
  destruct Hwf as [Hc _]. exact (Hc _ _ Et _ Hin).
Qed.

Lemma dropTable_well_formed (sql : string) (c c' : catalog) (x : error + message) :
  well_formed c -> _dropTable sql c = (c', x) -> well_formed c'.
Proof.
  intros Hwf. unfold _dropTable.
  destruct (exec drop_re sql) as [m|]; monad_unfold;
    [|intros E; inversion E; subst; exact Hwf].
  assert (Hdel : well_formed (own_delete (group 1 m) c)).
  { destruct Hwf as [Hc Hp]. split.
    - intros n tb Hn. apply In_own_delete in Hn. exact (Hc _ _ Hn).
    - intros n tb Hn. apply In_own_delete in Hn. exact (Hp _ _ Hn). }
  destruct (tables_get c (group 1 m));
    intros E; inversion E; subst; assumption.
Qed.

Lemma as_result_state (m : M message) (c c' : catalog) (x : error + result) :
  as_result m c = (c', x) -> exists y, m c = (c', y).
Proof.
  unfold as_result, bind, ret. destruct (m c) as [c1 [e|r]];
    intros E; inversion E; subst; eauto.
Qed.

(** One statement preserves the invariant, provided an UPDATE assigns
    declared columns only. *)
Lemma execute_well_formed (db : engine) (sql : string) :
  well_formed (tables db) ->
  (command_of sql = Some "UPDATE" -> assigns_declared (tables db) (normalize sql) = true) ->
  well_formed (tables (fst (execute db sql))).
Proof.
  intros Hwf Hupd. unfold command_of in Hupd. unfold execute.
  destruct (words (normalize sql)) as [|p0 ps]; [exact Hwf|].
  destruct (dispatch (toUpperCase p0) (normalize sql) (tables db)) as [c x] eqn:D.
  assert (Hc : well_formed c).
  { revert D. unfold dispatch.
    destruct (String.eqb (toUpperCase p0) "CREATE").
    { intros D. apply as_result_state in D. destruct D as [y D].
      exact (createTable_well_formed _ _ _ _ Hwf D). }
    destruct (String.eqb (toUpperCase p0) "INSERT").
    { intros D. apply as_result_state in D. destruct D as [y D].
      exact (insert_well_formed _ _ _ _ Hwf D). }
    destruct (String.eqb (toUpperCase p0) "SELECT").
    { intros D. rewrite (select_read_only _ _ _ _ D). exact Hwf. }
    destruct (String.eqb (toUpperCase p0) "UPDATE") eqn:Eu.
    { intros D. apply as_result_state in D. destruct D as [y D].
      apply String.eqb_eq in Eu.
      refine (update_well_formed _ _ _ _ Hwf _ D).
      apply Hupd. rewrite Eu. reflexivity. }
    destruct (String.eqb (toUpperCase p0) "DELETE").
    { intros D. apply as_result_state in D. destruct D as [y D].
      exact (delete_well_formed _ _ _ _ Hwf D). }
    destruct (String.eqb (toUpperCase p0) "DROP").
    { intros D. apply as_result_state in D. destruct D as [y D].
      exact (dropTable_well_formed _ _ _ _ Hwf D). }
    destruct (String.eqb (toUpperCase p0) "SHOW").
    { intros D. rewrite (showTables_read_only _ _ _ D). exact Hwf. }
    destruct (String.eqb (toUpperCase p0) "DESCRIBE").
    { intros D. rewrite (describe_read_only _ _ _ _ D). exact Hwf. }
    intros D. inversion D; subst. exact Hwf. }
  destruct x; exact Hc.
Qed.

Lemma run_all_well_formed (stmts : list string) (db : engine) :
  well_formed (tables db) -> well_targeted db stmts ->
  well_formed (tables (run_all db stmts)).
Proof.
  revert db. induction stmts as [|s rest IH]; intros db Hwf Ht.
  - exact Hwf.
  - destruct Ht as [Hs Hrest]. unfold run_all. cbn [fold_left].
    apply IH; [|exact Hrest]. apply execute_well_formed; assumption.
Qed.

End Invariant.

(** C7, as the code has it.  After any sequence of statements run on a new
    engine in which every UPDATE assigns declared columns only, the own
    keys of every row of every table are exactly the declared columns of
    the table. *)
Theorem rows_keep_declared_columns :
  forall stmts : list string,
    well_targeted constructor stmts ->
    conforms (tables (run_all constructor stmts)).
Proof.
  intros stmts Ht.
  apply (run_all_well_formed stmts constructor); [|exact Ht].
  split; intros n t [].
Qed.

Lemma rows_keep_declared_columns_witness :
  conforms
    (tables
       (run_all constructor
          [ "CREATE TABLE t (a INT PRIMARY KEY, b TEXT)";
            "INSERT INTO t VALUES (1, 'x')";
            "INSERT INTO t VALUES (2, 'y')";
            "UPDATE t SET b = 'z', a = 3";
            "SELECT zip, a FROM t";
            "DELETE FROM t WHERE b = q";
            "DESCRIBE t" ])).
Proof.
  apply (rows_keep_declared_columns
           [ "CREATE TABLE t (a INT PRIMARY KEY, b TEXT)";
             "INSERT INTO t VALUES (1, 'x')";
             "INSERT INTO t VALUES (2, 'y')";
             "UPDATE t SET b = 'z', a = 3";
             "SELECT zip, a FROM t";
             "DELETE FROM t WHERE b = q";
             "DESCRIBE t" ]).
  cbn [well_targeted].
  repeat split; intros _; vm_compute; reflexivity.
Defined.

(** C7 as stated fails: [UPDATE t SET b=2] on a table with the single
    column [a] gives the row the key [b]. *)
Lemma undeclared_column_counterexample :
  tables extra_key_db
  = [("t", mkTable [("a", "INT")] []
                   [mkObj true [("a", PNum (Number "1")); ("b", PNum (Number "2"))]]
                   [])] /\
  ~ conforms (tables extra_key_db).
Proof.
  assert (E : tables extra_key_db
              = [("t", mkTable [("a", "INT")] []
                         [mkObj true [("a", PNum (Number "1")); ("b", PNum (Number "2"))]]
                         [])])
    by (vm_compute; reflexivity).
  split; [exact E|]. rewrite E. intros H.
  specialize (H "t" _ (or_introl eq_refl) _ (or_introl eq_refl) "b").
  cbn in H. destruct H as [H _].
  destruct H as [H|[]]; [right; left; reflexivity | discriminate].
Qed.

(** * Further properties of the engine and of its callers *)

(** ** Own properties: reading after writing *)

Section Lookup.
Context {V : Type}.

Lemma own_get_replace (k k' : string) (v : V) (l : props V) :
  own_get k' (replace k v l) =
  if String.eqb k' k then match own_get k l with Some _ => Some v | None => None end
  else own_get k' l.
Proof.
  induction l as [|[k0 v0] l IH]; cbn [replace own_get].
  - destruct (String.eqb k' k); reflexivity.
  - destruct (String.eqb k k0) eqn:E0.
    + apply String.eqb_eq in E0. subst k0. cbn [own_get].
      destruct (String.eqb k' k); reflexivity.
    + cbn [own_get]. destruct (String.eqb k' k0) eqn:E1.
      * apply String.eqb_eq in E1. subst k0.
        rewrite String.eqb_sym, E0. reflexivity.
      * exact IH.
Qed.

Lemma own_get_insert_index (i : Z) (k k' : string) (v : V) (l : props V) :
  own_get k l = None ->
  own_get k' (insert_index i k v l) = if String.eqb k' k then Some v else own_get k' l.
Proof.
  induction l as [|[k0 v0] l IH]; cbn [insert_index own_get]; intros Hk.
  - reflexivity.
  - destruct (String.eqb k k0) eqn:E0; [discriminate|].
    assert (Hhead : own_get k' ((k, v) :: (k0, v0) :: l)
                    = if String.eqb k' k then Some v else own_get k' ((k0, v0) :: l))
      by reflexivity.
    destruct (array_index k0) as [j|]; [destruct (j <? i)%Z|]; try exact Hhead.
    cbn [own_get]. destruct (String.eqb k' k0) eqn:E1.
    + apply String.eqb_eq in E1. subst k0. rewrite String.eqb_sym, E0. reflexivity.
    + apply IH. exact Hk.
Qed.

Lemma own_get_append (k k' : string) (v : V) (l : props V) :
  own_get k l = None ->
  own_get k' (l ++ [(k, v)]) = if String.eqb k' k then Some v else own_get k' l.
Proof.
  induction l as [|[k0 v0] l IH]; cbn [app own_get]; intros Hk.
  - destruct (String.eqb k' k); reflexivity.
  - destruct (String.eqb k k0) eqn:E0; [discriminate|].
    destruct (String.eqb k' k0) eqn:E1.
    + apply String.eqb_eq in E1. subst k0. rewrite String.eqb_sym, E0. reflexivity.
    + apply IH. exact Hk.
Qed.

(** Reading after writing. *)
Lemma own_get_own_put (k k' : string) (v : V) (l : props V) :
  own_get k' (own_put k v l) = if String.eqb k' k then Some v else own_get k' l.
Proof.
  unfold own_put, own_has. destruct (own_get k l) as [v0|] eqn:E.
  - rewrite own_get_replace, E. reflexivity.
  - destruct (array_index k).
    + apply own_get_insert_index. exact E.
    + apply own_get_append. exact E.
Qed.

Lemma own_get_own_delete (k k' : string) (l : props V) :
  own_get k' (own_delete k l) = if String.eqb k' k then None else own_get k' l.
Proof.
  unfold own_delete. induction l as [|[k0 v0] l IH]; cbn [filter own_get fst].
  - destruct (String.eqb k' k); reflexivity.
  - destruct (String.eqb k k0) eqn:E0; cbn [negb].
    + apply String.eqb_eq in E0. subst k0. rewrite IH.
      destruct (String.eqb k' k); reflexivity.
    + cbn [own_get]. destruct (String.eqb k' k0) eqn:E1; [|exact IH].
      apply String.eqb_eq in E1. subst k0. rewrite String.eqb_sym, E0. reflexivity.
Qed.

End Lookup.

(** ** The patterns on statements of the documented forms *)

Section Runs.
Context {A : Type}.

Lemma one_line_In (s : string) :
  one_line s = true ->
  forall a, In a (list_ascii_of_string s) -> in_class Dot a = true.
Proof.
  induction s as [|c s IH]; simpl; [contradiction|].
  intros H a [Ha|Ha]; apply andb_prop in H; destruct H as [H1 H2];
    [subst; exact H1 | exact (IH H2 a Ha)].
Qed.

(** A greedy repetition over [s ++ r], where [s] is in the class, the
    class stops at [r] and the continuation succeeds at [r]. *)
Lemma star_run (c : cclass) (s r : string) (k : string -> option A) (x : A) :
  (forall a, In a (list_ascii_of_string s) -> in_class c a = true) ->
  stops c r -> k r = Some x -> star c (s ++ r) k = Some x.
Proof.
  intros Hs Hr Hk. induction s as [|a s IH]; cbn [append].
  - destruct r as [|b r]; [exact Hk|]. cbn [star]. cbn in Hr. rewrite Hr. exact Hk.
  - cbn [star]. rewrite (Hs a) by (left; reflexivity).
    rewrite IH; [reflexivity|]. intros b Hb. apply Hs. right. exact Hb.
Qed.

Lemma plus_run (c : cclass) (s r : string) (k : string -> option A) (x : A) :
  s <> EmptyString ->
  (forall a, In a (list_ascii_of_string s) -> in_class c a = true) ->
  stops c r -> k r = Some x -> plus c (s ++ r) k = Some x.
Proof.
  intros Hne Hs Hr Hk. destruct s as [|a s]; [contradiction Hne; reflexivity|].
  cbn [append plus]. rewrite (Hs a) by (left; reflexivity).
  apply star_run; [|exact Hr|exact Hk]. intros b Hb. apply Hs. right. exact Hb.
Qed.

(** A greedy repetition that has to give back the last code unit. *)
Lemma star_back_one (c : cclass) (s : string) (a : ascii) (k : string -> option A) (x : A) :
  (forall b, In b (list_ascii_of_string s) -> in_class c b = true) ->
  in_class c a = true ->
  k EmptyString = None -> k (String a EmptyString) = Some x ->
  star c (s ++ String a EmptyString) k = Some x.
Proof.
  intros Hs Ha H0 H1. induction s as [|b s IH]; cbn [append star].
  - rewrite Ha, H0. exact H1.
  - rewrite (Hs b) by (left; reflexivity).
    rewrite IH; [reflexivity|]. intros b' Hb'. apply Hs. right. exact Hb'.
Qed.

Lemma plus_back_one (c : cclass) (s : string) (a : ascii) (k : string -> option A) (x : A) :
  s <> EmptyString ->
  (forall b, In b (list_ascii_of_string s) -> in_class c b = true) ->
  in_class c a = true ->
  k EmptyString = None -> k (String a EmptyString) = Some x ->
  plus c (s ++ String a EmptyString) k = Some x.
Proof.
  intros Hne Hs Ha H0 H1. destruct s as [|b s]; [contradiction Hne; reflexivity|].
  cbn [append plus]. rewrite (Hs b) by (left; reflexivity).
  apply star_back_one; auto. intros b' Hb'. apply Hs. right. exact Hb'.
Qed.

Lemma plus_to_end (c : cclass) (s : string) (k : string -> option A) (x : A) :
  s <> EmptyString ->
  (forall a, In a (list_ascii_of_string s) -> in_class c a = true) ->
  k EmptyString = Some x -> plus c s k = Some x.
Proof.
  intros Hne Hs Hk. destruct s as [|a s]; [contradiction Hne; reflexivity|].
  cbn [plus]. rewrite (Hs a) by (left; reflexivity).
  apply star_to_end; [|exact Hk]. intros b Hb. apply Hs. right. exact Hb.
Qed.

End Runs.

Lemma word_chars (t : string) :
  all_word t = true ->
  forall a, In a (list_ascii_of_string t) -> in_class Word a = true.
Proof. intros H a. exact (all_word_In t a H). Qed.

Lemma exec_here (r : regex) (s : string) (m : captures) :
  match_here r s = Some m -> exec r s = Some m.
Proof. intros H. destruct s; cbn [exec]; rewrite H; reflexivity. Qed.

(** [DROP TABLE t] *)
Lemma drop_match (t : string) :
  word t -> exec drop_re ("DROP TABLE " ++ t) = Some [(1, t)].
Proof.
  intros [Hne Hw]. apply exec_here.
  unfold match_here, drop_re, seq. cbn [fold_right run].
  rewrite lit_refl.
  rewrite (plus_to_end Word t _ [(1, t)]); auto.
  - exact (word_chars t Hw).
  - cbn [lit]. rewrite consumed_all. reflexivity.
Qed.

(** [DESCRIBE t] *)
Lemma describe_match (t : string) :
  word t -> exec describe_re ("DESCRIBE " ++ t) = Some [(1, t)].
Proof.
  intros [Hne Hw]. apply exec_here.
  unfold match_here, describe_re, seq. cbn [fold_right run].
  rewrite lit_refl.
  rewrite (plus_to_end Word t _ [(1, t)]); auto.
  - exact (word_chars t Hw).
  - cbn [lit]. rewrite consumed_all. reflexivity.
Qed.

(** [DELETE FROM t] *)
Lemma delete_all_match (t : string) :
  word t -> exec delete_re ("DELETE FROM " ++ t) = Some [(1, t)].
Proof.
  intros [Hne Hw]. apply exec_here.
  unfold match_here, delete_re, seq. cbn [fold_right run].
  rewrite lit_refl.
  rewrite (plus_to_end Word t _ [(1, t)]); auto.
  - exact (word_chars t Hw).
  - cbn [lit]. rewrite consumed_all. reflexivity.
Qed.

(** [DELETE FROM t WHERE cond] *)
Lemma delete_where_match (t cond : string) :
  word t -> phrase cond ->
  exec delete_re ("DELETE FROM " ++ t ++ " WHERE " ++ cond) = Some [(2, cond); (1, t)].
Proof.
  intros [Hne Hw] [Hc Hl]. apply exec_here.
  unfold match_here, delete_re, seq. cbn [fold_right run].
  rewrite lit_refl.
  rewrite (plus_run Word t (" WHERE " ++ cond) _ [(2, cond); (1, t)]); auto.
  - exact (word_chars t Hw).
  - reflexivity.
  - rewrite lit_refl.
    rewrite (plus_to_end Dot cond _ [(2, cond); (1, t)]); auto.
    + exact (one_line_In cond Hl).
    + rewrite consumed_all, consumed_prefix. reflexivity.
Qed.

(** [UPDATE t SET assignments] *)
Lemma update_match (t setc : string) :
  word t -> phrase setc ->
  exec update_re ("UPDATE " ++ t ++ " SET " ++ setc) = Some [(2, setc); (1, t)].
Proof.
  intros [Hne Hw] [Hc Hl]. apply exec_here.
  unfold match_here, update_re, seq. cbn [fold_right run].
  rewrite lit_refl.
  rewrite (plus_run Word t (" SET " ++ setc) _ [(2, setc); (1, t)]); auto.
  - exact (word_chars t Hw).
  - reflexivity.
  - rewrite lit_refl.
    rewrite (plus_to_end Dot setc _ [(2, setc); (1, t)]); auto.
    + exact (one_line_In setc Hl).
    + cbn [lit]. rewrite consumed_all, consumed_prefix. reflexivity.
Qed.

(** [INSERT INTO t VALUES (list)] *)
Lemma insert_match (t vs : string) :
  word t -> phrase vs ->
  exec insert_re ("INSERT INTO " ++ t ++ " VALUES (" ++ vs ++ ")") = Some [(2, vs); (1, t)].
Proof.
  intros [Hne Hw] [Hc Hl]. apply exec_here.
  unfold match_here, insert_re, seq. cbn [fold_right run].
  rewrite lit_refl.
  rewrite (plus_run Word t (" VALUES (" ++ vs ++ ")") _ [(2, vs); (1, t)]); auto.
  - exact (word_chars t Hw).
  - reflexivity.
  - rewrite lit_refl.
    rewrite (plus_back_one Dot vs ")" _ [(2, vs); (1, t)]); auto.
    + exact (one_line_In vs Hl).
    + cbn [lit same_char]. rewrite consumed_prefix, consumed_prefix. reflexivity.
Qed.

(** [CREATE TABLE t (definitions)] *)
Lemma create_match (t defs : string) :
  word t -> phrase defs ->
  exec create_re ("CREATE TABLE " ++ t ++ " (" ++ defs ++ ")") = Some [(2, defs); (1, t)].
Proof.
  intros [Hne Hw] [Hc Hl]. apply exec_here.
  unfold match_here, create_re, seq. cbn [fold_right run].
  rewrite lit_refl.
  rewrite (plus_run Word t (" (" ++ defs ++ ")") _ [(2, defs); (1, t)]); auto.
  - exact (word_chars t Hw).
  - reflexivity.
  - rewrite lit_refl.
    rewrite (plus_back_one Dot defs ")" _ [(2, defs); (1, t)]); auto.
    + exact (one_line_In defs Hl).
    + cbn [lit same_char]. rewrite consumed_prefix, consumed_prefix. reflexivity.
Qed.

(** ** Trimming *)

Section Trim.

Lemma trimStart_head (s : string) :
  trimStart s = EmptyString \/
  exists c r, trimStart s = String c r /\ is_space c = false.
Proof.
  induction s as [|c s IH]; [left; reflexivity|].
  cbn [trimStart]. destruct (is_space c) eqn:E; [exact IH|].
  right. exists c, s. split; [reflexivity | exact E].
Qed.

Lemma trimStart_fixed (c : ascii) (r : string) :
  is_space c = false -> trimStart (String c r) = String c r.
Proof. intros H. cbn [trimStart]. rewrite H. reflexivity. Qed.

(** [trimStart] keeps a text from its last non-space code unit on. *)
Lemma trimStart_keeps (a : string) (c : ascii) (b : string) :
  is_space c = false ->
  exists a', trimStart (a ++ String c b) = (a' ++ String c b)%string.
Proof.
  intros Hc. induction a as [|x a IH]; cbn [append].
  - exists EmptyString. apply trimStart_fixed. exact Hc.
  - cbn [trimStart]. destruct (is_space x); [exact IH|].
    exists (String x a). reflexivity.
Qed.

Lemma rev_empty (s : string) : rev s = EmptyString -> s = EmptyString.
Proof.
  intros H. rewrite <- (rev_involutive s), H. reflexivity.
Qed.

(** The result of [trim] is empty or starts and ends with code units that
    are no white space. *)
Lemma trim_shape (s : string) :
  trim s = EmptyString \/
  exists c r d r', trim s = String c r /\ is_space c = false /\
                   rev (trim s) = String d r' /\ is_space d = false.
Proof.
  unfold trim, trimEnd.
  destruct (trimStart_head s) as [E|(c & r & E & Hc)].
  - left. rewrite E. reflexivity.
  - rewrite E.
    destruct (trimStart_head (rev (String c r))) as [E'|(d & r' & E' & Hd)].
    + exfalso. rewrite rev_unit in E'.
      destruct (trimStart_keeps (rev r) c EmptyString Hc) as [a' Ha].
      rewrite Ha in E'. destruct a'; discriminate.
    + right. rewrite E', rev_involutive.
      rewrite rev_unit in E'.
      destruct (trimStart_keeps (rev r) c EmptyString Hc) as [a' Ha].
      rewrite Ha in E'.
      assert (Hrev : rev (String d r') = String c (rev a')).
      { rewrite <- E', rev_append. reflexivity. }
      exists c, (rev a'), d, r'. repeat split; assumption.
Qed.

Lemma trim_fixed (s : string) (c d : ascii) (r r' : string) :
  s = String c r -> is_space c = false ->
  rev s = String d r' -> is_space d = false ->
  trim s = s.
Proof.
  intros Hs Hc Hr Hd. unfold trim, trimEnd. subst s.
  rewrite (trimStart_fixed c r Hc), Hr, (trimStart_fixed d r' Hd), <- Hr.
  apply rev_involutive.
Qed.


End Trim.

(** ** Statements without a command word *)

Section Throws.

Lemma split_go_head (sep s cur : string) :
  exists x xs, split_go sep s 0 cur = (cur ++ x)%string :: xs.
Proof.
  revert cur. induction s as [|c s IH]; intros cur; cbn [split_go].
  - exists EmptyString, []. rewrite append_empty_r. reflexivity.
  - destruct (startsWith sep (String c s)).
    + exists EmptyString. eexists. rewrite append_empty_r. reflexivity.
    + destruct (IH (cur ++ String c EmptyString)%string) as (x & xs & E).
      exists (String c x), xs. rewrite E, append_assoc. reflexivity.
Qed.

(** A text that starts with anything but a space has a first word. *)
Lemma words_head (c : ascii) (r : string) :
  c <> " "%char -> exists p ps, words (String c r) = String c p :: ps.
Proof.
  intros Hc. unfold words, split. cbn [split_go startsWith append].
  destruct (Ascii.eqb " " c) eqn:E; [apply Ascii.eqb_eq in E; congruence|].
  cbn [andb]. destruct (split_go_head " " r (String c EmptyString)) as (x & xs & Ex).
  rewrite Ex. cbn [append filter truthy]. eauto.
Qed.

Lemma not_space (c : ascii) : is_space c = false -> c <> " "%char.
Proof. intros H ->. discriminate. Qed.

Lemma take_succ (n : nat) (c : ascii) (r : string) :
  take (S n) (String c r) = String c (take n r).
Proof. reflexivity. Qed.

Lemma slice_drop_last (c d : ascii) (r : string) :
  exists p, slice (String c (String d r)) 0 (-1) = String c p.
Proof.
  unfold slice. cbn [String.length].
  set (n := String.length r).
  change (0 <? 0)%Z with false. change (-1 <? 0)%Z with true. cbv iota.
  replace (Z.min 0 (Z.of_nat (S (S n)))) with 0%Z by lia.
  replace (Z.to_nat (Z.max (Z.max (Z.of_nat (S (S n)) + -1) 0 - 0) 0)) with (S n) by lia.
  change (Z.to_nat 0) with 0. cbn [drop]. rewrite take_succ. eauto.
Qed.

Lemma endsWith_single (c : ascii) : endsWith ";" (String c EmptyString) = true -> c = ";"%char.
Proof.
  unfold endsWith, rev. cbn [rev_onto startsWith]. rewrite andb_true_r.
  intros E. apply Ascii.eqb_eq in E. auto.
Qed.

(** The command words of a statement, from its trimmed text. *)
Lemma words_normalize (sql : string) :
  words (normalize sql) = [] <-> trim sql = EmptyString \/ trim sql = ";".
Proof.
  unfold normalize.
  destruct (trim_shape sql) as [E|(c & r & d & r' & E & Hc & Er & Hd)].
  - rewrite E. cbn. intuition.
  - rewrite E. split.
    + intros H.
      destruct (endsWith ";" (String c r)) eqn:Ee.
      * destruct r as [|d0 r0].
        -- apply endsWith_single in Ee. subst c. right. reflexivity.
        -- exfalso. destruct (slice_drop_last c d0 r0) as [p Ep]. rewrite Ep in H.
           destruct (words_head c p (not_space c Hc)) as (p' & ps & Ew).
           rewrite Ew in H. discriminate.
      * exfalso. destruct (words_head c r (not_space c Hc)) as (p' & ps & Ew).
        rewrite Ew in H. discriminate.
    + intros [H|H]; [discriminate|]. rewrite H. reflexivity.
Qed.

(** The statements on which [execute] throws. *)
Lemma execute_throws (db : engine) (sql : string) :
  (exists e, snd (execute db sql) = Thrown e) <->
  (trim sql = EmptyString \/ trim sql = ";").
Proof.
  rewrite <- words_normalize. unfold execute.
  destruct (words (normalize sql)) as [|p0 ps]; cbn [snd].
  - split; [reflexivity | eauto].
  - destruct (dispatch _ _ _) as [c [e|r]]; cbn [snd];
      (split; [intros [e' H]; discriminate | discriminate]).
Qed.

End Throws.

(** [execute] lets an exception through exactly when the statement, once
    trimmed, is empty or the lone terminator [;]. *)
Theorem execute_throws_iff :
  forall (db : engine) (sql : string),
    (exists e, snd (execute db sql) = Thrown e) <->
    (trim sql = EmptyString \/ trim sql = ";").
Proof. exact execute_throws. Qed.


(** The route [POST /sql] passes the exception on for the non-empty
    queries that consist of white space and at most one terminator: the
    guard of the route stops the empty query only. *)
Theorem post_sql_throws_iff :
  forall (db : engine) (query : string),
    (exists db' e, WebServer.post_sql db query = WebServer.Answered db' (Thrown e)) <->
    query <> EmptyString /\ (trim query = EmptyString \/ trim query = ";").
Proof.
  intros db query. unfold WebServer.post_sql. destruct query as [|c r].
  - cbn. split; [intros (db' & e & H); discriminate | intros [H _]; contradiction H; reflexivity].
  - cbn [truthy negb].
    pose proof (execute_throws db (String c r)) as T.
    destruct (execute db (String c r)) as [db1 out]. cbn [snd] in T.
    split.
    + intros (db' & e & H). inversion H; subst. split; [discriminate|].
      apply T. eauto.
    + intros [_ H]. destruct T as [_ T]. destruct (T H) as [e He]. subst out. eauto.
Qed.

(** ** Statements in normal form *)

Section Statements.

Lemma last_char_append (a b : string) :
  b <> EmptyString -> last_char (a ++ b) = last_char b.
Proof.
  intros Hb. unfold last_char. rewrite rev_append.
  destruct (rev b) as [|d r] eqn:E; [|reflexivity].
  contradiction Hb. apply rev_empty. exact E.
Qed.

Lemma tidy_append (a b : string) : tidy b = true -> tidy (a ++ b) = true.
Proof.
  unfold tidy. intros H. rewrite last_char_append; [exact H|].
  intros ->. discriminate.
Qed.

Lemma tidy_word (t : string) : word t -> tidy t = true.
Proof.
  intros Ht. destruct (rev_word t Ht) as (c & r & E & Hc).
  unfold tidy, last_char. rewrite E. rewrite (word_not_space c Hc). cbn [negb andb].
  destruct (Ascii.eqb c ";") eqn:Ec; [|reflexivity].
  apply Ascii.eqb_eq in Ec. subst c. discriminate.
Qed.

Lemma tidy_paren (s : string) : tidy (s ++ ")") = true.
Proof. apply tidy_append. reflexivity. Qed.

(** A statement that [normalize] leaves as it is. *)
Lemma normalize_fixed (c : ascii) (r : string) :
  is_space c = false -> tidy (String c r) = true -> normalize (String c r) = String c r.
Proof.
  intros Hc Ht. unfold tidy, last_char in Ht.
  destruct (rev (String c r)) as [|d r'] eqn:E; [discriminate|].
  apply andb_prop in Ht. destruct Ht as [Hd Hs].
  apply negb_true_iff in Hd. apply negb_true_iff in Hs.
  unfold normalize. rewrite (trim_fixed (String c r) c d r r' eq_refl Hc E Hd).
  unfold endsWith. rewrite E. unfold rev. cbn [rev_onto startsWith].
  rewrite Ascii.eqb_sym, Hs. reflexivity.
Qed.

Lemma split_go_keyword (kw rest cur : string) :
  (forall a, In a (list_ascii_of_string kw) -> a <> " "%char) ->
  split_go " " (kw ++ String " " rest) 0 cur
  = (cur ++ kw)%string :: split_go " " rest 0 EmptyString.
Proof.
  revert cur. induction kw as [|a kw IH]; intros cur Hkw; cbn [append split_go startsWith].
  - rewrite Ascii.eqb_refl. cbn [andb String.length Nat.sub]. rewrite append_empty_r. reflexivity.
  - destruct (Ascii.eqb " " a) eqn:E.
    + apply Ascii.eqb_eq in E. exfalso. apply (Hkw a); [left; reflexivity | auto].
    + cbn [andb]. rewrite IH by (intros b Hb; apply Hkw; right; exact Hb).
      rewrite append_assoc. reflexivity.
Qed.

(** The first word of a statement that starts with a keyword and a space. *)
Lemma words_keyword (c : ascii) (kw rest : string) :
  (forall a, In a (list_ascii_of_string (String c kw)) -> a <> " "%char) ->
  words (String c kw ++ String " " rest) = String c kw :: words rest.
Proof.
  intros H. unfold words, split.
  change (String c kw ++ String " " rest)%string with (String c (kw ++ String " " rest)).
  change (String c (kw ++ String " " rest)) with (String c kw ++ String " " rest)%string.
  rewrite split_go_keyword by exact H. cbn [append filter truthy].
  destruct rest; reflexivity.
Qed.

(** [execute] on a statement in normal form that starts with a keyword:
    the handler of the keyword runs on the statement as it stands. *)
Lemma execute_keyword (db : engine) (c : ascii) (kw rest : string) :
  is_space c = false ->
  (forall a, In a (list_ascii_of_string (String c kw)) -> a <> " "%char) ->
  tidy rest = true ->
  let sql := (String c kw ++ String " " rest)%string in
  execute db sql
  = (mkEngine (fst (dispatch (toUpperCase (String c kw)) sql (tables db)))
              (history db ++ [sql]),
     Returned match snd (dispatch (toUpperCase (String c kw)) sql (tables db)) with
              | inr r => r
              | inl e => RError e
              end).
Proof.
  intros Hc Hkw Ht sql. unfold execute.
  assert (Ht' : tidy (String c (kw ++ String " " rest)) = true).
  { change (tidy (String c kw ++ (" " ++ rest)) = true).
    apply tidy_append, tidy_append, Ht. }
  assert (Hn : normalize sql = sql).
  { exact (normalize_fixed c (kw ++ String " " rest) Hc Ht'). }
  rewrite Hn. unfold sql at 1. rewrite words_keyword by exact Hkw.
  destruct (dispatch _ _ _) as [c' [e|r]]; reflexivity.
Qed.

End Statements.

(** A keyword: letters only. *)
Ltac keyword_chars :=
  let a := fresh "a" in let H := fresh "H" in
  intros a H; cbn in H;
  repeat (destruct H as [H|H]; [subst a; discriminate|]); contradiction.

Lemma execute_create (db : engine) (rest : string) :
  tidy rest = true ->
  execute db ("CREATE " ++ rest)
  = (mkEngine (fst (_createTable ("CREATE " ++ rest) (tables db)))
              (history db ++ ["CREATE " ++ rest]%string),
     Returned match snd (_createTable ("CREATE " ++ rest) (tables db)) with
              | inr r => RMessage r
              | inl e => RError e
              end).
Proof.
  intros Ht.
  pose proof (execute_keyword db "C" "REATE" rest eq_refl ltac:(keyword_chars) Ht) as E.
  cbv zeta in E.
  change ("CREATE" ++ String " " rest)%string with ("CREATE " ++ rest)%string in E.
  rewrite E. change (toUpperCase "CREATE") with "CREATE".
  change (dispatch "CREATE" ("CREATE " ++ rest)) with (as_result (_createTable ("CREATE " ++ rest))).
  unfold as_result, bind, ret.
  destruct (_createTable ("CREATE " ++ rest) (tables db)) as [c' [e|r]]; reflexivity.
Qed.

Lemma execute_insert (db : engine) (rest : string) :
  tidy rest = true ->
  execute db ("INSERT " ++ rest)
  = (mkEngine (fst (_insert ("INSERT " ++ rest) (tables db)))
              (history db ++ ["INSERT " ++ rest]%string),
     Returned match snd (_insert ("INSERT " ++ rest) (tables db)) with
              | inr r => RMessage r
              | inl e => RError e
              end).
Proof.
  intros Ht.
  pose proof (execute_keyword db "I" "NSERT" rest eq_refl ltac:(keyword_chars) Ht) as E.
  cbv zeta in E.
  change ("INSERT" ++ String " " rest)%string with ("INSERT " ++ rest)%string in E.
  rewrite E. change (toUpperCase "INSERT") with "INSERT".
  change (dispatch "INSERT" ("INSERT " ++ rest)) with (as_result (_insert ("INSERT " ++ rest))).
  unfold as_result, bind, ret.
  destruct (_insert ("INSERT " ++ rest) (tables db)) as [c' [e|r]]; reflexivity.
Qed.

Lemma execute_select (db : engine) (rest : string) :
  tidy rest = true ->
  execute db ("SELECT " ++ rest)
  = (mkEngine (fst (_select ("SELECT " ++ rest) (tables db)))
              (history db ++ ["SELECT " ++ rest]%string),
     Returned match snd (_select ("SELECT " ++ rest) (tables db)) with
              | inr r => r
              | inl e => RError e
              end).
Proof.
  intros Ht.
  pose proof (execute_keyword db "S" "ELECT" rest eq_refl ltac:(keyword_chars) Ht) as E.
  cbv zeta in E.
  change ("SELECT" ++ String " " rest)%string with ("SELECT " ++ rest)%string in E.
  rewrite E. reflexivity.
Qed.

Lemma execute_update (db : engine) (rest : string) :
  tidy rest = true ->
  execute db ("UPDATE " ++ rest)
  = (mkEngine (fst (_update ("UPDATE " ++ rest) (tables db)))
              (history db ++ ["UPDATE " ++ rest]%string),
     Returned match snd (_update ("UPDATE " ++ rest) (tables db)) with
              | inr r => RMessage r
              | inl e => RError e
              end).
Proof.
  intros Ht.
  pose proof (execute_keyword db "U" "PDATE" rest eq_refl ltac:(keyword_chars) Ht) as E.
  cbv zeta in E.
  change ("UPDATE" ++ String " " rest)%string with ("UPDATE " ++ rest)%string in E.
  rewrite E. change (toUpperCase "UPDATE") with "UPDATE".
  change (dispatch "UPDATE" ("UPDATE " ++ rest)) with (as_result (_update ("UPDATE " ++ rest))).
  unfold as_result, bind, ret.
  destruct (_update ("UPDATE " ++ rest) (tables db)) as [c' [e|r]]; reflexivity.
Qed.

Lemma execute_delete (db : engine) (rest : string) :
  tidy rest = true ->
  execute db ("DELETE " ++ rest)
  = (mkEngine (fst (_delete ("DELETE " ++ rest) (tables db)))
              (history db ++ ["DELETE " ++ rest]%string),
     Returned match snd (_delete ("DELETE " ++ rest) (tables db)) with
              | inr r => RMessage r
              | inl e => RError e
              end).
Proof.
  intros Ht.
  pose proof (execute_keyword db "D" "ELETE" rest eq_refl ltac:(keyword_chars) Ht) as E.
  cbv zeta in E.
  change ("DELETE" ++ String " " rest)%string with ("DELETE " ++ rest)%string in E.
  rewrite E. change (toUpperCase "DELETE") with "DELETE".
  change (dispatch "DELETE" ("DELETE " ++ rest)) with (as_result (_delete ("DELETE " ++ rest))).
  unfold as_result, bind, ret.
  destruct (_delete ("DELETE " ++ rest) (tables db)) as [c' [e|r]]; reflexivity.
Qed.

Lemma execute_drop (db : engine) (rest : string) :
  tidy rest = true ->
  execute db ("DROP " ++ rest)
  = (mkEngine (fst (_dropTable ("DROP " ++ rest) (tables db)))
              (history db ++ ["DROP " ++ rest]%string),
     Returned match snd (_dropTable ("DROP " ++ rest) (tables db)) with
              | inr r => RMessage r
              | inl e => RError e
              end).
Proof.
  intros Ht.
  pose proof (execute_keyword db "D" "ROP" rest eq_refl ltac:(keyword_chars) Ht) as E.
  cbv zeta in E.
  change ("DROP" ++ String " " rest)%string with ("DROP " ++ rest)%string in E.
  rewrite E. change (toUpperCase "DROP") with "DROP".
  change (dispatch "DROP" ("DROP " ++ rest)) with (as_result (_dropTable ("DROP " ++ rest))).
  unfold as_result, bind, ret.
  destruct (_dropTable ("DROP " ++ rest) (tables db)) as [c' [e|r]]; reflexivity.
Qed.

Lemma execute_describe (db : engine) (rest : string) :
  tidy rest = true ->
  execute db ("DESCRIBE " ++ rest)
  = (mkEngine (fst (_describe ("DESCRIBE " ++ rest) (tables db)))
              (history db ++ ["DESCRIBE " ++ rest]%string),
     Returned match snd (_describe ("DESCRIBE " ++ rest) (tables db)) with
              | inr r => r
              | inl e => RError e
              end).
Proof.
  intros Ht.
  pose proof (execute_keyword db "D" "ESCRIBE" rest eq_refl ltac:(keyword_chars) Ht) as E.
  cbv zeta in E.
  change ("DESCRIBE" ++ String " " rest)%string with ("DESCRIBE " ++ rest)%string in E.
  rewrite E. reflexivity.
Qed.

(** ** Looking a table up after a write, and DELETE of every row *)

Section Catalog.

Lemma tables_get_replace (c : catalog) (t t' : string) (tb : table) :
  tables_get (replace t tb c) t' =
  if String.eqb t' t then
    match tables_get c t with
    | Own _ => Own tb
    | other => other
    end
  else tables_get c t'.
Proof.
  unfold tables_get. rewrite own_get_replace.
  destruct (String.eqb t' t) eqn:E; [|reflexivity].
  apply String.eqb_eq in E. subst t'.
  destruct (own_get t c); [reflexivity|]. destruct (inherited t); reflexivity.
Qed.

Lemma tables_get_own_put (c : catalog) (t t' : string) (tb : table) :
  tables_get (own_put t tb c) t' = if String.eqb t' t then Own tb else tables_get c t'.
Proof.
  unfold tables_get. rewrite own_get_own_put.
  destruct (String.eqb t' t); reflexivity.
Qed.

Lemma tables_get_own_delete (c : catalog) (t t' : string) :
  tables_get (own_delete t c) t' =
  if String.eqb t' t then (if inherited t then Inherited else Absent)
  else tables_get c t'.
Proof.
  unfold tables_get. rewrite own_get_own_delete.
  destruct (String.eqb t' t) eqn:E; [|reflexivity].
  apply String.eqb_eq in E. subst t'. reflexivity.
Qed.

Lemma filter_complement {A : Type} (p : A -> bool) (l : list A) :
  List.length l - List.length (filter (fun x => negb (p x)) l)
  = List.length (filter p l).
Proof.
  induction l as [|x l IH]; [reflexivity|].
  cbn [filter]. destruct (p x); cbn [negb List.length].
  - assert (H := filter_length_le (fun x => negb (p x)) l).
    rewrite <- IH. lia.
  - exact IH.
Qed.

Lemma phrase_truthy (s : string) : s <> EmptyString -> truthy s = true.
Proof. destruct s; [intros H; contradiction H; reflexivity | reflexivity]. Qed.

Lemma tidy_nonempty (s : string) : tidy s = true -> s <> EmptyString.
Proof. intros H ->. discriminate. Qed.

End Catalog.

(** [DELETE FROM t] empties the table and reports the number of rows it
    had; the definition of the table stays, so that DESCRIBE answers as
    before. *)
Theorem delete_all_keeps_definition :
  forall (db : engine) (t : string) (tb : table),
    word t ->
    tables_get (tables db) t = Own tb ->
    let db' := fst (execute db ("DELETE FROM " ++ t)) in
    snd (execute db ("DELETE FROM " ++ t))
    = Returned (RMessage (RowsDeleted (List.length (rows tb)))) /\
    tables_get (tables db') t
    = Own (mkTable (columns tb) (constraints tb) [] (indexes tb)) /\
    (forall t', t' <> t -> tables_get (tables db') t' = tables_get (tables db) t') /\
    snd (execute db' ("DESCRIBE " ++ t)) = snd (execute db ("DESCRIBE " ++ t)).
Proof.
  intros db t tb Ht Htb.
  assert (E : execute db ("DELETE FROM " ++ t)
              = (mkEngine (replace t (mkTable (columns tb) (constraints tb) [] (indexes tb))
                                   (tables db))
                          (history db ++ ["DELETE FROM " ++ t]%string),
                 Returned (RMessage (RowsDeleted (List.length (rows tb)))))).
  { change ("DELETE FROM " ++ t)%string with ("DELETE " ++ ("FROM " ++ t))%string.
    rewrite execute_delete by (apply (tidy_append "FROM "), tidy_word, Ht).
    change ("DELETE " ++ ("FROM " ++ t))%string with ("DELETE FROM " ++ t)%string.
    unfold _delete. rewrite (delete_all_match t Ht).
    unfold bind, get, put, ret, throw.
    change (group 1 [(1, t)]) with t. change (capture 2 [(1, t)]) with (@None string).
    rewrite Htb. cbn [fst snd List.length]. rewrite Nat.sub_0_r. reflexivity. }
  cbv zeta. rewrite E. cbn [fst snd tables].
  split; [reflexivity|]. split; [|split].
  - rewrite tables_get_replace, String.eqb_refl, Htb. reflexivity.
  - intros t' Hn. rewrite tables_get_replace.
    apply String.eqb_neq in Hn. rewrite Hn. reflexivity.
  - change ("DESCRIBE " ++ t)%string with ("DESCRIBE " ++ t)%string.
    rewrite !execute_describe by (apply tidy_word, Ht). cbn [snd tables].
    unfold _describe. rewrite (describe_match t Ht).
    unfold bind, get, ret, throw. change (group 1 [(1, t)]) with t.
    rewrite tables_get_replace, String.eqb_refl, Htb. reflexivity.
Qed.

Lemma delete_all_keeps_definition_witness :
  snd (execute users_db "DELETE FROM users")
  = Returned (RMessage (RowsDeleted (List.length (rows users_table)))) /\
  snd (execute (fst (execute users_db "DELETE FROM users")) "DESCRIBE users")
  = snd (execute users_db "DESCRIBE users").
Proof.
  assert (Hw : word "users") by (split; [discriminate | reflexivity]).
  pose proof (delete_all_keeps_definition users_db "users" users_table Hw eq_refl) as H.
  cbv zeta in H. split; apply H.
Defined.

(** ** Statement forms and missing tables *)

Section Forms.

Lemma clause_phrase (s : string) : clause s -> phrase s.
Proof. intros [Hl Ht]. split; [exact (tidy_nonempty s Ht) | exact Hl]. Qed.

Lemma own_delete_absent {V : Type} (k : string) (l : props V) :
  own_get k l = None -> own_delete k l = l.
Proof.
  unfold own_delete. induction l as [|[k' v] l IH]; [reflexivity|].
  cbn [own_get filter fst].
  destruct (String.eqb k k') eqn:E; [discriminate|].
  intros H. cbn [negb]. rewrite (IH H). reflexivity.
Qed.


Lemma inherited_word (t : string) : inherited t = true -> word t.
Proof.
  unfold inherited, object_prototype_names. cbn [existsb].
  repeat (destruct (String.eqb t _) eqn:E;
          [apply String.eqb_eq in E; subst t; intros _; split; [discriminate | reflexivity]|
           clear E]).
  discriminate.
Qed.

Lemma assignments_fail (l : list string) (acc : error + obj) (e : error) :
  (forall e', acc = inl e' -> e' = TypeError) ->
  fold_left assignment l acc = inl e -> e = TypeError.
Proof.
  revert acc. induction l as [|p l IH]; intros acc Hacc; cbn [fold_left].
  - intros H. apply Hacc. exact H.
  - apply IH. intros e'. unfold assignment. destruct acc as [e0|u].
    + intros H. apply Hacc. exact H.
    + destruct (nth_error _ 1); [discriminate|]. intros H. inversion H. reflexivity.
Qed.

(** The statement forms, reduced to the handlers. *)

Lemma form_drop (db : engine) (t : string) :
  word t ->
  execute db ("DROP TABLE " ++ t)
  = (mkEngine match tables_get (tables db) t with
              | Absent => tables db
              | _ => own_delete t (tables db)
              end
              (history db ++ ["DROP TABLE " ++ t]%string),
     Returned match tables_get (tables db) t with
              | Absent => RError (NoTable t)
              | _ => RMessage (TableDropped t)
              end).
Proof.
  intros Ht.
  change ("DROP TABLE " ++ t)%string with ("DROP " ++ ("TABLE " ++ t))%string.
  rewrite execute_drop by (apply (tidy_append "TABLE "), tidy_word, Ht).
  change ("DROP " ++ ("TABLE " ++ t))%string with ("DROP TABLE " ++ t)%string.
  unfold _dropTable. rewrite (drop_match t Ht).
  unfold bind, get, put, ret, throw. change (group 1 [(1, t)]) with t.
  destruct (tables_get (tables db) t); reflexivity.
Qed.

Lemma form_describe (db : engine) (t : string) :
  word t ->
  execute db ("DESCRIBE " ++ t)
  = (mkEngine (fst (_describe ("DESCRIBE " ++ t) (tables db)))
              (history db ++ ["DESCRIBE " ++ t]%string),
     Returned match snd (_describe ("DESCRIBE " ++ t) (tables db)) with
              | inr r => r | inl e => RError e end) /\
  exec describe_re ("DESCRIBE " ++ t) = Some [(1, t)].
Proof.
  intros Ht. split; [|exact (describe_match t Ht)].
  apply execute_describe, tidy_word, Ht.
Qed.

Lemma form_select_star (db : engine) (t : string) :
  word t ->
  execute db ("SELECT * FROM " ++ t)
  = (mkEngine (fst (_select ("SELECT * FROM " ++ t) (tables db)))
              (history db ++ ["SELECT * FROM " ++ t]%string),
     Returned match snd (_select ("SELECT * FROM " ++ t) (tables db)) with
              | inr r => r | inl e => RError e end) /\
  exec select_re ("SELECT * FROM " ++ t) = Some [(2, t); (1, "*")].
Proof.
  intros Ht. split; [|exact (select_star_exec t Ht)].
  change ("SELECT * FROM " ++ t)%string with ("SELECT " ++ ("* FROM " ++ t))%string.
  apply execute_select. apply (tidy_append "* FROM "), tidy_word, Ht.
Qed.

Lemma form_delete_all (db : engine) (t : string) :
  word t ->
  execute db ("DELETE FROM " ++ t)
  = (mkEngine (fst (_delete ("DELETE FROM " ++ t) (tables db)))
              (history db ++ ["DELETE FROM " ++ t]%string),
     Returned match snd (_delete ("DELETE FROM " ++ t) (tables db)) with
              | inr r => RMessage r | inl e => RError e end) /\
  exec delete_re ("DELETE FROM " ++ t) = Some [(1, t)].
Proof.
  intros Ht. split; [|exact (delete_all_match t Ht)].
  change ("DELETE FROM " ++ t)%string with ("DELETE " ++ ("FROM " ++ t))%string.
  apply execute_delete. apply (tidy_append "FROM "), tidy_word, Ht.
Qed.

Lemma form_delete_where (db : engine) (t cond : string) :
  word t -> clause cond ->
  execute db ("DELETE FROM " ++ t ++ " WHERE " ++ cond)
  = (mkEngine (fst (_delete ("DELETE FROM " ++ t ++ " WHERE " ++ cond) (tables db)))
              (history db ++ ["DELETE FROM " ++ t ++ " WHERE " ++ cond]%string),
     Returned match snd (_delete ("DELETE FROM " ++ t ++ " WHERE " ++ cond) (tables db)) with
              | inr r => RMessage r | inl e => RError e end) /\
  exec delete_re ("DELETE FROM " ++ t ++ " WHERE " ++ cond) = Some [(2, cond); (1, t)].
Proof.
  intros Ht Hc. split; [|exact (delete_where_match t cond Ht (clause_phrase cond Hc))].
  change ("DELETE FROM " ++ t ++ " WHERE " ++ cond)%string
    with ("DELETE " ++ ("FROM " ++ t ++ " WHERE " ++ cond))%string.
  apply execute_delete.
  apply (tidy_append "FROM "), tidy_append, (tidy_append " WHERE "), Hc.
Qed.

Lemma form_update (db : engine) (t setc : string) :
  word t -> clause setc ->
  execute db ("UPDATE " ++ t ++ " SET " ++ setc)
  = (mkEngine (fst (_update ("UPDATE " ++ t ++ " SET " ++ setc) (tables db)))
              (history db ++ ["UPDATE " ++ t ++ " SET " ++ setc]%string),
     Returned match snd (_update ("UPDATE " ++ t ++ " SET " ++ setc) (tables db)) with
              | inr r => RMessage r | inl e => RError e end) /\
  exec update_re ("UPDATE " ++ t ++ " SET " ++ setc) = Some [(2, setc); (1, t)].
Proof.
  intros Ht Hc. split; [|exact (update_match t setc Ht (clause_phrase setc Hc))].
  apply execute_update.
  apply tidy_append, (tidy_append " SET "), Hc.
Qed.

Lemma form_insert (db : engine) (t vs : string) :
  word t -> phrase vs ->
  execute db ("INSERT INTO " ++ t ++ " VALUES (" ++ vs ++ ")")
  = (mkEngine (fst (_insert ("INSERT INTO " ++ t ++ " VALUES (" ++ vs ++ ")") (tables db)))
              (history db ++ ["INSERT INTO " ++ t ++ " VALUES (" ++ vs ++ ")"]%string),
     Returned match snd (_insert ("INSERT INTO " ++ t ++ " VALUES (" ++ vs ++ ")") (tables db)) with
              | inr r => RMessage r | inl e => RError e end) /\
  exec insert_re ("INSERT INTO " ++ t ++ " VALUES (" ++ vs ++ ")") = Some [(2, vs); (1, t)].
Proof.
  intros Ht Hc. split; [|exact (insert_match t vs Ht Hc)].
  change ("INSERT INTO " ++ t ++ " VALUES (" ++ vs ++ ")")%string
    with ("INSERT " ++ ("INTO " ++ t ++ " VALUES (" ++ vs ++ ")"))%string.
  apply execute_insert.
  apply (tidy_append "INTO "), tidy_append, (tidy_append " VALUES ("), tidy_paren.
Qed.

Lemma form_create (db : engine) (t defs : string) :
  word t -> phrase defs ->
  execute db ("CREATE TABLE " ++ t ++ " (" ++ defs ++ ")")
  = (mkEngine (fst (_createTable ("CREATE TABLE " ++ t ++ " (" ++ defs ++ ")") (tables db)))
              (history db ++ ["CREATE TABLE " ++ t ++ " (" ++ defs ++ ")"]%string),
     Returned match snd (_createTable ("CREATE TABLE " ++ t ++ " (" ++ defs ++ ")") (tables db)) with
              | inr r => RMessage r | inl e => RError e end) /\
  exec create_re ("CREATE TABLE " ++ t ++ " (" ++ defs ++ ")") = Some [(2, defs); (1, t)].
Proof.
  intros Ht Hc. split; [|exact (create_match t defs Ht Hc)].
  change ("CREATE TABLE " ++ t ++ " (" ++ defs ++ ")")%string
    with ("CREATE " ++ ("TABLE " ++ t ++ " (" ++ defs ++ ")"))%string.
  apply execute_create.
  apply (tidy_append "TABLE "), tidy_append, (tidy_append " ("), tidy_paren.
Qed.

End Forms.

Ltac run_form F :=
  let E := fresh "E" in let P := fresh "P" in
  destruct F as [E P]; [try assumption..|];
  unfold answers; rewrite E; clear E;
  unfold _describe, _select, _delete, _update, _insert, _createTable;
  rewrite P; clear P;
  unfold bind, get, put, ret, throw, lift;
  cbv beta iota;
  repeat match goal with
         | |- context [group ?n ?m] =>
             let v := eval cbv in (group n m) in change (group n m) with v
         end.

(** A statement that names a table which does not exist, and which no
    member of [Object.prototype] stands in for, answers that the table
    does not exist and changes nothing; this holds for every statement
    but CREATE TABLE. *)
Theorem missing_table_rejected :
  forall (db : engine) (t : string),
    word t ->
    tables_get (tables db) t = Absent ->
    answers db ("DROP TABLE " ++ t) (RError (NoTable t)) /\
    answers db ("DESCRIBE " ++ t) (RError (NoTable t)) /\
    answers db ("SELECT * FROM " ++ t) (RError (NoTable t)) /\
    answers db ("DELETE FROM " ++ t) (RError (NoTable t)) /\
    (forall cond, clause cond ->
       answers db ("DELETE FROM " ++ t ++ " WHERE " ++ cond) (RError (NoTable t))) /\
    (forall setc, clause setc ->
       answers db ("UPDATE " ++ t ++ " SET " ++ setc) (RError (NoTable t))) /\
    (forall vs, phrase vs ->
       answers db ("INSERT INTO " ++ t ++ " VALUES (" ++ vs ++ ")") (RError (NoTable t))).
Proof.
  intros db t Ht Habs. repeat split.
  - unfold answers. rewrite (form_drop db t Ht), Habs. reflexivity.
  - run_form (form_describe db t). rewrite Habs. reflexivity.
  - run_form (form_select_star db t). rewrite Habs. reflexivity.
  - run_form (form_delete_all db t). rewrite Habs. reflexivity.
  - intros cond Hc. run_form (form_delete_where db t cond). rewrite Habs. reflexivity.
  - intros setc Hc. run_form (form_update db t setc). rewrite Habs. reflexivity.
  - intros vs Hc. run_form (form_insert db t vs). rewrite Habs. reflexivity.
Qed.

Lemma missing_table_rejected_witness :
  answers constructor "DROP TABLE users" (RError (NoTable "users")) /\
  answers constructor "DESCRIBE users" (RError (NoTable "users")).
Proof.
  assert (Hw : word "users") by (split; [discriminate | reflexivity]).
  pose proof (missing_table_rejected constructor "users" Hw eq_refl) as H.
  split; apply H.
Defined.

(** ** Names of [Object.prototype], DROP TABLE and CREATE TABLE *)

(** A name that [Object.prototype] defines, and that is no table of the
    catalog, passes for a table: CREATE TABLE finds it existing, DROP TABLE
    reports it dropped, and the statements that read its rows or columns
    fail on the missing member.  None of them changes the catalog. *)
Theorem prototype_names_pass_for_tables :
  forall (db : engine) (t : string),
    inherited t = true ->
    own_get t (tables db) = None ->
    (forall defs, phrase defs ->
       answers db ("CREATE TABLE " ++ t ++ " (" ++ defs ++ ")") (RError (TableExists t))) /\
    answers db ("DROP TABLE " ++ t) (RMessage (TableDropped t)) /\
    answers db ("DESCRIBE " ++ t) (RError TypeError) /\
    answers db ("SELECT * FROM " ++ t) (RError TypeError) /\
    answers db ("DELETE FROM " ++ t) (RError TypeError) /\
    (forall setc, clause setc ->
       answers db ("UPDATE " ++ t ++ " SET " ++ setc) (RError TypeError)) /\
    (forall vs, phrase vs ->
       answers db ("INSERT INTO " ++ t ++ " VALUES (" ++ vs ++ ")") (RError TypeError)).
Proof.
  intros db t Hin Hown.
  pose proof (inherited_word t Hin) as Ht.
  assert (Hget : tables_get (tables db) t = Inherited)
    by (unfold tables_get; rewrite Hown, Hin; reflexivity).
  repeat split.
  - intros defs Hd. run_form (form_create db t defs). rewrite Hget. reflexivity.
  - unfold answers. rewrite (form_drop db t Ht), Hget.
    rewrite (own_delete_absent t (tables db) Hown). reflexivity.
  - run_form (form_describe db t). rewrite Hget. reflexivity.
  - run_form (form_select_star db t). rewrite Hget. reflexivity.
  - run_form (form_delete_all db t). rewrite Hget. reflexivity.
  - intros setc Hc. run_form (form_update db t setc). rewrite Hget.
    destruct (fold_left assignment (split "," setc) (inr empty_obj)) as [e|u] eqn:E;
      [|reflexivity].
    apply assignments_fail in E; [subst e; reflexivity | discriminate].
  - intros vs Hc. run_form (form_insert db t vs). rewrite Hget. reflexivity.
Qed.

Lemma prototype_names_pass_for_tables_witness :
  answers constructor "DROP TABLE toString" (RMessage (TableDropped "toString")).
Proof.
  refine (proj1 (proj2 (prototype_names_pass_for_tables constructor "toString" _ _)));
    reflexivity.
Defined.





(** A column definition of a single word has no type to read: the
    statement fails with a [TypeError] and creates nothing, whatever the
    other definitions are. *)
Theorem create_untyped_column_fails :
  forall (db : engine) (t defs : string),
    word t -> phrase defs ->
    tables_get (tables db) t = Absent ->
    (exists d, In d (split "," defs) /\ List.length (split_ws (trim d)) < 2) ->
    answers db ("CREATE TABLE " ++ t ++ " (" ++ defs ++ ")") (RError TypeError).
Proof.
  intros db t defs Ht Hd Habs (d & Hin & Hlen).
  run_form (form_create db t defs). rewrite Habs.
  assert (F : forall l acc,
              match acc with inl e => e = TypeError | inr _ => True end ->
              In d l -> fold_left column_definition l acc = inl TypeError).
  { assert (G : forall l, fold_left column_definition l (inl TypeError) = inl TypeError)
      by (induction l as [|x l IH]; [reflexivity | exact IH]).
    induction l as [|x l IH]; intros acc Hacc; [contradiction|].
    intros [->|Hl].
    - cbn [fold_left]. unfold column_definition at 2.
      destruct acc as [e|[cs ks]]; [subst e; apply G|].
      destruct (nth_error (split_ws (trim d)) 1) eqn:En; [|apply G].
      assert (1 < List.length (split_ws (trim d)))
        by (apply nth_error_Some; rewrite En; discriminate).
      lia.
    - cbn [fold_left]. apply IH; [|exact Hl].
      unfold column_definition. destruct acc as [e0|[cs ks]]; [exact Hacc|].
      destruct (nth_error _ 1); [exact I | reflexivity]. }
  rewrite (F _ (inr ([], [])) I Hin).
  reflexivity.
Qed.

Lemma create_untyped_column_fails_witness :
  answers constructor "CREATE TABLE t (id INT, name)" (RError TypeError).
Proof.
  apply (create_untyped_column_fails constructor "t" "id INT, name").
  - split; [discriminate | reflexivity].
  - split; [discriminate | reflexivity].
  - reflexivity.
  - exists " name". split; [vm_compute; auto | vm_compute; lia].
Defined.

(** ** INSERT: the stored row *)

Section RowFacts.

Lemma obj_set_get (o : obj) (k k' : string) (p : prim) :
  k' <> "__proto__" ->
  own_get k' (obj_own (obj_set o k p))
  = if String.eqb k' k then Some p else own_get k' (obj_own o).
Proof.
  intros Hk. unfold obj_set.
  destruct (String.eqb k "__proto__" && negb (own_has k (obj_own o)) && obj_proto o) eqn:E.
  - apply andb_true_iff in E. destruct E as [E _].
    apply andb_true_iff in E. destruct E as [E _].
    apply String.eqb_eq in E. subst k.
    apply String.eqb_neq in Hk. rewrite Hk. destruct p; reflexivity.
  - cbn [obj_own]. apply own_get_own_put.
Qed.

Lemma built_row_skips (l : list (string * prim)) (r : obj) (k : string) :
  k <> "__proto__" -> ~ In k (map fst l) ->
  own_get k (obj_own (fold_left (fun r cv => obj_set r (fst cv) (snd cv)) l r))
  = own_get k (obj_own r).
Proof.
  intros Hk. revert r. induction l as [|[k0 v0] l IH]; intros r Hn; cbn [fold_left fst snd].
  - reflexivity.
  - rewrite IH by (intros H; apply Hn; right; exact H).
    rewrite (obj_set_get r k0 k v0 Hk).
    destruct (String.eqb k k0) eqn:E; [|reflexivity].
    apply String.eqb_eq in E. subst k0. contradiction Hn. left. reflexivity.
Qed.

Lemma built_row_get (l : list (string * prim)) (r : obj) (k : string) (v : prim) :
  k <> "__proto__" -> NoDup (map fst l) -> In (k, v) l ->
  own_get k (obj_own (fold_left (fun r cv => obj_set r (fst cv) (snd cv)) l r)) = Some v.
Proof.
  intros Hk. revert r. induction l as [|[k0 v0] l IH]; intros r Hnd Hin; [contradiction|].
  cbn [fold_left fst snd]. cbn [map fst] in Hnd. inversion Hnd as [|x xs Hx Hxs]; subst.
  destruct Hin as [Hin|Hin].
  - inversion Hin; subst. rewrite built_row_skips by assumption.
    rewrite (obj_set_get r k k v Hk), String.eqb_refl. reflexivity.
  - apply IH; assumption.
Qed.

Lemma In_combine_nth {A B : Type} (l : list A) (l' : list B) (i : nat) (a : A) (b : B) :
  nth_error l i = Some a -> nth_error l' i = Some b -> In (a, b) (combine l l').
Proof.
  revert l l'. induction i as [|i IH]; intros [|x l] [|y l']; cbn; try discriminate.
  - intros H1 H2. inversion H1; inversion H2; subst. left. reflexivity.
  - intros H1 H2. right. exact (IH _ _ H1 H2).
Qed.

Lemma indexOf_nth (col : string) (l : list string) (i : nat) :
  indexOf col l = Some i -> nth_error l i = Some col.
Proof.
  revert i. induction l as [|x l IH]; intros i; cbn [indexOf]; [discriminate|].
  destruct (String.eqb col x) eqn:E.
  - intros H. inversion H; subst. apply String.eqb_eq in E. subst x. reflexivity.
  - destruct (indexOf col l) as [j|]; [|discriminate].
    intros H. inversion H; subst. cbn [nth_error]. apply IH. reflexivity.
Qed.

End RowFacts.

(** An INSERT with as many values as the table has columns, and with a
    primary key that no row holds, appends one row; in that row every
    column holds the value at its position. *)
Theorem insert_stores_values :
  forall (db : engine) (t vs : string) (tb : table),
    word t -> phrase vs ->
    tables_get (tables db) t = Own tb ->
    List.length (_parseValues vs) = List.length (keys (columns tb)) ->
    fresh_key tb (_parseValues vs) = true ->
    exists row,
      execute db ("INSERT INTO " ++ t ++ " VALUES (" ++ vs ++ ")")
      = (mkEngine
           (replace t (mkTable (columns tb) (constraints tb) (rows tb ++ [row]) (indexes tb))
                    (tables db))
           (history db ++ ["INSERT INTO " ++ t ++ " VALUES (" ++ vs ++ ")"]%string),
         Returned (RMessage RowInserted)) /\
      (NoDup (keys (columns tb)) ->
       forall i col v,
         nth_error (keys (columns tb)) i = Some col ->
         nth_error (_parseValues vs) i = Some v ->
         col <> "__proto__" ->
         obj_get row col = VPrim v).
Proof.
  intros db t vs tb Ht Hvs Htb Hlen Hfresh.
  exists (fold_left (fun r cv => obj_set r (fst cv) (snd cv))
                    (combine (keys (columns tb)) (_parseValues vs)) empty_obj).
  split.
  - destruct (form_insert db t vs Ht Hvs) as [E P]. rewrite E. clear E.
    unfold _insert. rewrite P. clear P.
    unfold bind, get, put, ret, throw.
    change (group 1 [(2, vs); (1, t)]) with t.
    change (group 2 [(2, vs); (1, t)]) with vs.
    rewrite Htb, Hlen, Nat.eqb_refl. cbn [negb].
    unfold fresh_key in Hfresh.
    destruct (primary_key tb) as [[pkCol pkIndex]|]; [|reflexivity].
    apply negb_true_iff in Hfresh. rewrite Hfresh. reflexivity.
  - intros Hnd i col v Hc Hv Hp. unfold obj_get.
    rewrite (built_row_get _ empty_obj col v Hp); [reflexivity| |].
    + rewrite map_fst_combine by (symmetry; exact Hlen). exact Hnd.
    + exact (In_combine_nth _ _ i col v Hc Hv).
Qed.

Lemma insert_stores_values_witness :
  exists row,
    execute users_db "INSERT INTO users VALUES (3, 'Carol', 'c@x.com', 41)"
    = (mkEngine
         (replace "users"
            (mkTable (columns users_table) (constraints users_table)
                     (rows users_table ++ [row]) (indexes users_table))
            (tables users_db))
         (history users_db ++ ["INSERT INTO users VALUES (3, 'Carol', 'c@x.com', 41)"]),
       Returned (RMessage RowInserted)) /\
    (NoDup (keys (columns users_table)) ->
     forall i col v,
       nth_error (keys (columns users_table)) i = Some col ->
       nth_error (_parseValues "3, 'Carol', 'c@x.com', 41") i = Some v ->
       col <> "__proto__" ->
       obj_get row col = VPrim v).
Proof.
  apply (insert_stores_values users_db "users" "3, 'Carol', 'c@x.com', 41" users_table).
  - split; [discriminate | reflexivity].
  - split; [discriminate | reflexivity].
  - vm_compute. reflexivity.
  - vm_compute. reflexivity.
  - vm_compute. reflexivity.
Defined.

(** ** Primary keys *)

Section KeyFacts.

Lemma In_own_has {V : Type} (k : string) (l : props V) :
  In k (keys l) -> own_has k l = true.
Proof.
  unfold own_has, keys. induction l as [|[k' v] l IH]; cbn [map fst In own_get]; [contradiction|].
  destruct (String.eqb k k') eqn:E; [reflexivity|].
  intros [H|H]; [subst k'; rewrite String.eqb_refl in E; discriminate | exact (IH H)].
Qed.

Lemma keys_insert_index {V : Type} (i : Z) (k : string) (v : V) (l : props V) (x : string) :
  In x (keys (insert_index i k v l)) <-> x = k \/ In x (keys l).
Proof.
  unfold keys. induction l as [|[k' v'] l IH]; cbn [insert_index map fst In].
  - intuition.
  - destruct (array_index k') as [j|]; [destruct (j <? i)%Z|]; cbn [map fst In];
      try rewrite IH; intuition.
Qed.

Lemma NoDup_insert_index {V : Type} (i : Z) (k : string) (v : V) (l : props V) :
  ~ In k (keys l) -> NoDup (keys l) -> NoDup (keys (insert_index i k v l)).
Proof.
  induction l as [|[k' v'] l IH]; intros Hn Hnd; cbn [insert_index].
  - constructor; [intros [] | constructor].
  - assert (Hhead : NoDup (keys ((k, v) :: (k', v') :: l)))
      by (constructor; assumption).
    destruct (array_index k') as [j|]; [destruct (j <? i)%Z|]; try exact Hhead.
    cbn [keys map fst] in *. inversion Hnd as [|x xs Hx Hxs]; subst.
    constructor.
    + intros H. apply (keys_insert_index i k v l k') in H.
      destruct H as [H|H]; [apply Hn; left; exact H | exact (Hx H)].
    + apply IH; [intros H; apply Hn; right; exact H | exact Hxs].
Qed.

Lemma NoDup_own_put {V : Type} (k : string) (v : V) (l : props V) :
  NoDup (keys l) -> NoDup (keys (own_put k v l)).
Proof.
  intros Hnd. unfold own_put. destruct (own_has k l) eqn:E.
  - rewrite keys_replace. exact Hnd.
  - assert (Hn : ~ In k (keys l))
      by (intros H; apply In_own_has in H; rewrite H in E; discriminate).
    destruct (array_index k) as [i|].
    + apply NoDup_insert_index; assumption.
    + unfold keys. rewrite map_app. cbn [map fst].
      apply NoDup_app; [exact Hnd | constructor; [intros [] | constructor]|].
      intros x Hx [Hk|[]]. subst x. exact (Hn Hx).
Qed.

Lemma NoDup_set_plain {V : Type} (k : string) (v : V) (l : props V) :
  NoDup (keys l) -> NoDup (keys (set_plain k v l)).
Proof.
  intros H. unfold set_plain. destruct (_ && _); [exact H | apply NoDup_own_put, H].
Qed.

Lemma column_definitions_NoDup (defs : list string)
      (cols cols' : props string) (cstr cstr' : props constraint) :
  fold_left column_definition defs (inr (cols, cstr)) = inr (cols', cstr') ->
  NoDup (keys cols) -> NoDup (keys cols').
Proof.
  revert cols cstr. induction defs as [|d defs IH]; intros cols cstr; cbn [fold_left].
  - intros H; inversion H; subst. auto.
  - unfold column_definition at 2.
    destruct (nth_error (split_ws (trim d)) 1) as [p1|].
    + intros H Hnd. eapply IH; [exact H|]. apply NoDup_set_plain, Hnd.
    + assert (G : forall l, fold_left column_definition l (inl TypeError) = inl TypeError)
        by (induction l as [|x l IHl]; [reflexivity | exact IHl]).
      rewrite G. discriminate.
Qed.

Lemma distinct_keys_snoc (pk : string) (rs : list obj) (row : obj) :
  distinct_keys pk rs ->
  (forall r, In r rs -> strict_eq (obj_get r pk) (obj_get row pk) = false) ->
  distinct_keys pk (rs ++ [row]).
Proof.
  induction rs as [|r rs IH]; cbn [app distinct_keys]; intros Hd Hn.
  - split; [intros r' [] | exact I].
  - destruct Hd as [Hr Hd]. split.
    + intros r' Hr'. apply in_app_iff in Hr'. destruct Hr' as [Hr'|[<-|[]]].
      * exact (Hr r' Hr').
      * apply Hn. left. reflexivity.
    + apply IH; [exact Hd|]. intros r0 H0. apply Hn. right. exact H0.
Qed.

Lemma distinct_keys_filter (pk : string) (p : obj -> bool) (rs : list obj) :
  distinct_keys pk rs -> distinct_keys pk (filter p rs).
Proof.
  induction rs as [|r rs IH]; cbn [filter distinct_keys]; [auto|].
  intros [Hr Hd]. destruct (p r); [|exact (IH Hd)].
  cbn [distinct_keys]. split; [|exact (IH Hd)].
  intros r' Hr'. apply filter_In in Hr'. apply Hr, Hr'.
Qed.

Lemma key_column_index (t : table) (pk : string) :
  key_column t = Some pk ->
  pk <> "__proto__" /\
  exists i, primary_key t = Some (pk, Some i) /\ indexOf pk (keys (columns t)) = Some i.
Proof.
  unfold key_column. destruct (primary_key t) as [[pk0 [i|]]|] eqn:E; try discriminate.
  destruct (String.eqb pk0 "__proto__") eqn:Ep; [discriminate|].
  intros H. inversion H; subst. split; [apply String.eqb_neq, Ep|].
  exists i. split; [reflexivity|].
  unfold primary_key in E.
  destruct (own_get "primaryKey" (constraints t)) as [[pkCol|]|]; try discriminate.
  destruct (truthy pkCol); inversion E; subst. reflexivity.
Qed.

Lemma key_column_same (t t' : table) :
  columns t' = columns t -> constraints t' = constraints t ->
  key_column t' = key_column t.
Proof. intros Hc Hk. unfold key_column, primary_key. rewrite Hc, Hk. reflexivity. Qed.

Lemma keys_enforced_replace (c : catalog) (name : string) (t t' : table) :
  keys_enforced c ->
  In (name, t) c ->
  columns t' = columns t -> constraints t' = constraints t ->
  (forall pk, key_column t = Some pk -> distinct_keys pk (rows t')) ->
  keys_enforced (replace name t' c).
Proof.
  intros Hc Hin Hcols Hcstr Hrows n tb Hn.
  apply In_replace in Hn. destruct Hn as [Hn|[_ Hn]]; [exact (Hc _ _ Hn)|].
  subst tb. split.
  - rewrite Hcols. apply (Hc _ _ Hin).
  - intros pk Hpk. apply Hrows. rewrite <- Hpk. symmetry. apply key_column_same; assumption.
Qed.

Lemma createTable_keys_enforced (sql : string) (c c' : catalog) (x : error + message) :
  keys_enforced c -> _createTable sql c = (c', x) -> keys_enforced c'.
Proof.
  intros Hwf. unfold _createTable.
  destruct (exec create_re sql) as [m|]; monad_unfold;
    [|intros E; inversion E; subst; exact Hwf].
  destruct (tables_get c (group 1 m));
    try (intros E; inversion E; subst; exact Hwf).
  destruct (fold_left column_definition _ _) as [e|[cols cstr]] eqn:Ed;
    intros E; inversion E; subst; [exact Hwf|].
  intros n tb Hn. apply In_own_put in Hn. destruct Hn as [Hn|[_ Hn]]; [exact (Hwf _ _ Hn)|].
  subst tb. cbn [columns rows fst snd]. split.
  - apply (column_definitions_NoDup _ _ _ _ _ Ed). constructor.
  - intros pk _. exact I.
Qed.

Lemma insert_keys_enforced (sql : string) (c c' : catalog) (x : error + message) :
  keys_enforced c -> _insert sql c = (c', x) -> keys_enforced c'.
Proof.
  intros Hwf. unfold _insert.
  destruct (exec insert_re sql) as [m|]; monad_unfold;
    [|intros E; inversion E; subst; exact Hwf].
  destruct (tables_get c (group 1 m)) as [t| |] eqn:Et;
    try (intros E; inversion E; subst; exact Hwf).
  destruct (Nat.eqb _ _) eqn:Elen; cbn [negb];
    [|intros E; inversion E; subst; exact Hwf].
  apply Nat.eqb_eq in Elen. apply tables_get_In in Et.
  destruct (Hwf _ _ Et) as [Hnd Hdist].
  set (vals := _parseValues (group 2 m)) in *.
  set (row := fold_left (fun r cv => obj_set r (fst cv) (snd cv))
                        (combine (keys (columns t)) vals) empty_obj).
  destruct (primary_key t) as [[pkCol pkIndex]|] eqn:Epk.
  - destruct (existsb _ _) eqn:Eex; intros E; inversion E; subst; [exact Hwf|].
    apply (keys_enforced_replace c _ t); auto.
    cbn [rows]. intros pk Hpk.
    destruct (key_column_index t pk Hpk) as (Hproto & i & Hprim & Hidx).
    rewrite Epk in Hprim. inversion Hprim; subst pkCol pkIndex.
    apply indexOf_nth in Hidx.
    assert (Hi : i < List.length vals)
      by (rewrite Elen; apply nth_error_Some; rewrite Hidx; discriminate).
    destruct (nth_error vals i) as [v|] eqn:Ev;
      [|apply nth_error_None in Ev; lia].
    assert (Hrow : obj_get row pk = VPrim v).
    { unfold obj_get, row. rewrite (built_row_get _ empty_obj pk v Hproto); [reflexivity| |].
      - rewrite map_fst_combine by (symmetry; exact Elen). exact Hnd.
      - exact (In_combine_nth _ _ i pk v Hidx Ev). }
    apply distinct_keys_snoc; [exact (Hdist pk Hpk)|].
    intros r Hr. rewrite Hrow.
    destruct (strict_eq (obj_get r pk) (VPrim v)) eqn:Es; [|reflexivity].
    assert (Hex : existsb (fun row => strict_eq (obj_get row pk) (element vals (Some i)))
                          (rows t) = true).
    { apply existsb_exists. exists r. split; [exact Hr|].
      cbn [element]. rewrite Ev. exact Es. }
    rewrite Hex in Eex. discriminate.
  - intros E; inversion E; subst.
    apply (keys_enforced_replace c _ t); auto.
    intros pk Hpk. unfold key_column in Hpk. rewrite Epk in Hpk. discriminate.
Qed.

Lemma delete_keys_enforced (sql : string) (c c' : catalog) (x : error + message) :
  keys_enforced c -> _delete sql c = (c', x) -> keys_enforced c'.
Proof.
  intros Hwf. unfold _delete.
  destruct (exec delete_re sql) as [m|]; monad_unfold;
    [|intros E; inversion E; subst; exact Hwf].
  destruct (tables_get c (group 1 m)) as [t| |] eqn:Et;
    try (intros E; inversion E; subst; exact Hwf).
  intros E; inversion E; subst. apply tables_get_In in Et.
  apply (keys_enforced_replace c _ t); auto.
  cbn [rows]. intros pk Hpk.
  destruct (capture 2 m) as [w|]; [|exact I].
  destruct (truthy w); [|exact I].
  apply distinct_keys_filter. exact (proj2 (Hwf _ _ Et) pk Hpk).
Qed.

Lemma dropTable_keys_enforced (sql : string) (c c' : catalog) (x : error + message) :
  keys_enforced c -> _dropTable sql c = (c', x) -> keys_enforced c'.
Proof.
  intros Hwf. unfold _dropTable.
  destruct (exec drop_re sql) as [m|]; monad_unfold;
    [|intros E; inversion E; subst; exact Hwf].
  assert (Hdel : keys_enforced (own_delete (group 1 m) c))
    by (intros n tb Hn; apply In_own_delete in Hn; exact (Hwf _ _ Hn)).
  destruct (tables_get c (group 1 m));
    intros E; inversion E; subst; assumption.
Qed.

(** One statement other than an UPDATE preserves the invariant. *)
Lemma execute_keys_enforced (db : engine) (sql : string) :
  keys_enforced (tables db) ->
  command_of sql <> Some "UPDATE" ->
  keys_enforced (tables (fst (execute db sql))).
Proof.
  intros Hwf Hupd. unfold command_of in Hupd. unfold execute.
  destruct (words (normalize sql)) as [|p0 ps]; [exact Hwf|].
  destruct (dispatch (toUpperCase p0) (normalize sql) (tables db)) as [c x] eqn:D.
  assert (Hc : keys_enforced c).
  { revert D. unfold dispatch.
    destruct (String.eqb (toUpperCase p0) "CREATE").
    { intros D. apply as_result_state in D. destruct D as [y D].
      exact (createTable_keys_enforced _ _ _ _ Hwf D). }
    destruct (String.eqb (toUpperCase p0) "INSERT").
    { intros D. apply as_result_state in D. destruct D as [y D].
      exact (insert_keys_enforced _ _ _ _ Hwf D). }
    destruct (String.eqb (toUpperCase p0) "SELECT").
    { intros D. rewrite (select_read_only _ _ _ _ D). exact Hwf. }
    destruct (String.eqb (toUpperCase p0) "UPDATE") eqn:Eu.
    { apply String.eqb_eq in Eu. contradiction Hupd. rewrite Eu. reflexivity. }
    destruct (String.eqb (toUpperCase p0) "DELETE").
    { intros D. apply as_result_state in D. destruct D as [y D].
      exact (delete_keys_enforced _ _ _ _ Hwf D). }
    destruct (String.eqb (toUpperCase p0) "DROP").
    { intros D. apply as_result_state in D. destruct D as [y D].
      exact (dropTable_keys_enforced _ _ _ _ Hwf D). }
    destruct (String.eqb (toUpperCase p0) "SHOW").
    { intros D. rewrite (showTables_read_only _ _ _ D). exact Hwf. }
    destruct (String.eqb (toUpperCase p0) "DESCRIBE").
    { intros D. rewrite (describe_read_only _ _ _ _ D). exact Hwf. }
    intros D. inversion D; subst. exact Hwf. }
  destruct x; exact Hc.
Qed.

Lemma run_all_keys_enforced (stmts : list string) (db : engine) :
  keys_enforced (tables db) ->
  Forall (fun s => command_of s <> Some "UPDATE") stmts ->
  keys_enforced (tables (run_all db stmts)).
Proof.
  revert db. induction stmts as [|s rest IH]; intros db Hwf Ht.
  - exact Hwf.
  - inversion Ht as [|x xs Hs Hrest]; subst. unfold run_all. cbn [fold_left].
    apply IH; [|exact Hrest]. apply execute_keys_enforced; assumption.
Qed.

End KeyFacts.

(** In an engine built from a new one without UPDATE statements, the rows
    of a table whose primary key is one of its columns hold pairwise
    distinct key values: INSERT enforces the key, and CREATE TABLE, DELETE
    and DROP TABLE keep it. *)
Theorem primary_keys_stay_distinct :
  forall (stmts : list string) (name : string) (t : table) (pk : string),
    Forall (fun s => command_of s <> Some "UPDATE") stmts ->
    In (name, t) (tables (run_all constructor stmts)) ->
    key_column t = Some pk ->
    distinct_keys pk (rows t).
Proof.
  intros stmts name t pk Hs Hin Hpk.
  assert (H : keys_enforced (tables (run_all constructor stmts)))
    by (apply run_all_keys_enforced; [intros n tb [] | exact Hs]).
  exact (proj2 (H name t Hin) pk Hpk).
Qed.

Lemma primary_keys_stay_distinct_witness :
  distinct_keys "id" (rows two_rows_table).
Proof.
  apply (primary_keys_stay_distinct
           [ "CREATE TABLE t (id INT PRIMARY KEY, x INT)";
             "INSERT INTO t VALUES (1, 0)";
             "INSERT INTO t VALUES (1, 5)";
             "INSERT INTO t VALUES (2, 0)";
             "DELETE FROM t WHERE x = 7" ] "t" two_rows_table "id").
  - repeat constructor; vm_compute; discriminate.
  - vm_compute. left. reflexivity.
  - vm_compute. reflexivity.
Defined.

(** ** The pattern of SELECT *)

Ltac decide_tests :=
  repeat match goal with
         | |- context [same_char ?a ?b] =>
             let v := eval vm_compute in (same_char a b) in
             change (same_char a b) with v
         | |- context [in_class ?c ?a] =>
             let v := eval vm_compute in (in_class c a) in
             change (in_class c a) with v
         end.

Section SelectFacts.

Lemma lit_ci_prefix {A : Type} (p s : string) (k : string -> option A) :
  ci_prefix p s = false -> lit p s k = None.
Proof.
  revert s. induction p as [|a p IH]; intros s; cbn [ci_prefix lit]; [discriminate|].
  destruct s as [|b s]; [reflexivity|].
  destruct (same_char a b); [apply IH | reflexivity].
Qed.

Lemma star_free {A : Type} (c : cclass) (p s : string) (k : string -> string -> option A) :
  ci_includes p s = false -> star c s (fun rest => lit p rest (k rest)) = None.
Proof.
  induction s as [|a s IH]; cbn [ci_includes]; intros H.
  - apply orb_false_iff in H. destruct H as [H _]. cbn [star]. apply lit_ci_prefix, H.
  - apply orb_false_iff in H. destruct H as [H1 H2].
    rewrite star_step, (IH H2), (lit_ci_prefix _ _ _ H1).
    destruct (in_class c a); reflexivity.
Qed.

Lemma star_through {A : Type} (c : cclass) (s r : string) (k : string -> option A) (x : A) :
  (forall a, In a (list_ascii_of_string s) -> in_class c a = true) ->
  star c r k = Some x -> star c (s ++ r) k = Some x.
Proof.
  intros Hs Hr. induction s as [|a s IH]; cbn [append]; [exact Hr|].
  rewrite star_step, (Hs a) by (left; reflexivity).
  rewrite IH; [reflexivity|]. intros b Hb. apply Hs. right. exact Hb.
Qed.

Lemma plus_through {A : Type} (c : cclass) (s r : string) (k : string -> option A) (x : A) :
  s <> EmptyString ->
  (forall a, In a (list_ascii_of_string s) -> in_class c a = true) ->
  star c r k = Some x -> plus c (s ++ r) k = Some x.
Proof.
  intros Hne Hs Hr. destruct s as [|a s]; [contradiction Hne; reflexivity|].
  cbn [append plus]. rewrite (Hs a) by (left; reflexivity).
  apply star_through; [|exact Hr]. intros b Hb. apply Hs. right. exact Hb.
Qed.

Lemma ci_includes_step (p : string) (a : ascii) (s : string) :
  ci_includes p (String a s) = ci_prefix p (String a s) || ci_includes p s.
Proof. reflexivity. Qed.

Lemma ci_prefix_step (a b : ascii) (p s : string) :
  ci_prefix (String a p) (String b s) = same_char a b && ci_prefix p s.
Proof. reflexivity. Qed.

Lemma ci_prefix_space_word (p q t : string) :
  all_word t = true -> ci_prefix (p ++ String " " q) t = false.
Proof.
  revert t. induction p as [|a p IH]; intros t Ht; cbn [append].
  - destruct t as [|c t]; [reflexivity|]. cbn [all_word] in Ht.
    apply andb_prop in Ht. destruct Ht as [Hc _].
    rewrite ci_prefix_step, (word_differs c " " eq_refl Hc). reflexivity.
  - destruct t as [|c t]; [reflexivity|]. cbn [all_word] in Ht.
    apply andb_prop in Ht. destruct Ht as [_ Ht].
    rewrite ci_prefix_step, (IH t Ht). apply andb_false_r.
Qed.

(** The text that follows the first character of [ FROM t ...] holds no
    [ FROM ] before the table name. *)
Lemma ci_includes_from (r : string) :
  ci_includes " FROM " ("FROM" ++ r) = ci_includes " FROM " r.
Proof.
  cbn [append]. rewrite !ci_includes_step, !ci_prefix_step. decide_tests.
  reflexivity.
Qed.

Lemma ci_includes_word (t : string) : all_word t = true -> ci_includes " FROM " t = false.
Proof.
  induction t as [|c t IH]; [reflexivity|].
  intros H. cbn [all_word] in H. apply andb_prop in H. destruct H as [Hc Ht].
  cbn [ci_includes ci_prefix]. rewrite (IH Ht).
  rewrite (word_differs c " " eq_refl Hc). reflexivity.
Qed.

(** [SELECT cols FROM t] *)
Lemma select_match (t cols : string) :
  word t -> phrase cols ->
  exec select_re ("SELECT " ++ cols ++ " FROM " ++ t) = Some [(2, t); (1, cols)].
Proof.
  intros [Hne Hw] [Hc Hl]. apply exec_here.
  unfold match_here, select_re, seq. cbn [fold_right run].
  rewrite lit_refl.
  rewrite (plus_through Dot cols (" FROM " ++ t) _ [(2, t); (1, cols)]); auto.
  - exact (one_line_In cols Hl).
  - change (" FROM " ++ t)%string with (String " " ("FROM " ++ t)).
    rewrite star_step. change (in_class Dot " ") with true. cbv iota.
    rewrite (star_free Dot " FROM " ("FROM " ++ t)
               (fun rest rest0 => plus Word rest0 _)).
    + change (String " " ("FROM " ++ t)) with (" FROM " ++ t)%string.
      rewrite lit_refl.
      rewrite (plus_to_end Word t _ [(2, t); (1, cols)]); auto.
      * exact (word_chars t Hw).
      * cbn [lit]. rewrite consumed_all, consumed_prefix. reflexivity.
    + change ("FROM " ++ t)%string with ("FROM" ++ String " " t)%string.
      rewrite ci_includes_from, ci_includes_step, (ci_includes_word t Hw).
      change " FROM " with (String " " ("FROM" ++ String " " EmptyString)).
      rewrite ci_prefix_step, (ci_prefix_space_word "FROM" EmptyString t Hw).
      reflexivity.
Qed.

(** [SELECT cols FROM t WHERE cond] *)
Lemma select_where_match (t cols cond : string) :
  word t -> phrase cols -> phrase cond -> single_from t cond = true ->
  exec select_re ("SELECT " ++ cols ++ " FROM " ++ t ++ " WHERE " ++ cond)
  = Some [(3, cond); (2, t); (1, cols)].
Proof.
  intros [Hne Hw] [Hc Hl] [Hcn Hcl] Hfree. apply exec_here.
  unfold match_here, select_re, seq. cbn [fold_right run].
  rewrite lit_refl.
  rewrite (plus_through Dot cols (" FROM " ++ t ++ " WHERE " ++ cond) _
             [(3, cond); (2, t); (1, cols)]); auto.
  - exact (one_line_In cols Hl).
  - change (" FROM " ++ t ++ " WHERE " ++ cond)%string
      with (String " " ("FROM " ++ t ++ " WHERE " ++ cond)).
    rewrite star_step. change (in_class Dot " ") with true. cbv iota.
    rewrite (star_free Dot " FROM " ("FROM " ++ t ++ " WHERE " ++ cond)
               (fun rest rest0 => plus Word rest0 _)).
    + change (String " " ("FROM " ++ t ++ " WHERE " ++ cond))
        with (" FROM " ++ (t ++ " WHERE " ++ cond))%string.
      rewrite lit_refl.
      rewrite (plus_run Word t (" WHERE " ++ cond) _ [(3, cond); (2, t); (1, cols)]); auto.
      * exact (word_chars t Hw).
      * reflexivity.
      * rewrite lit_refl.
        rewrite (plus_to_end Dot cond _ [(3, cond); (2, t); (1, cols)]); auto.
        -- exact (one_line_In cond Hcl).
        -- rewrite consumed_all, !consumed_prefix. reflexivity.
    + unfold single_from in Hfree. apply negb_true_iff in Hfree.
      change ("FROM " ++ t ++ " WHERE " ++ cond)%string
        with ("FROM" ++ String " " (t ++ " WHERE " ++ cond))%string.
      rewrite ci_includes_from. exact Hfree.
Qed.

End SelectFacts.

(** ** The history, projection and SELECT *)

Section SelectForms.

Lemma form_select (db : engine) (t cols : string) :
  word t -> phrase cols ->
  execute db ("SELECT " ++ cols ++ " FROM " ++ t)
  = (mkEngine (fst (_select ("SELECT " ++ cols ++ " FROM " ++ t) (tables db)))
              (history db ++ ["SELECT " ++ cols ++ " FROM " ++ t]%string),
     Returned match snd (_select ("SELECT " ++ cols ++ " FROM " ++ t) (tables db)) with
              | inr r => r | inl e => RError e end) /\
  exec select_re ("SELECT " ++ cols ++ " FROM " ++ t) = Some [(2, t); (1, cols)].
Proof.
  intros Ht Hc. split; [|exact (select_match t cols Ht Hc)].
  apply execute_select. apply tidy_append, (tidy_append " FROM "), tidy_word, Ht.
Qed.

Lemma form_select_where (db : engine) (t cols cond : string) :
  word t -> phrase cols -> clause cond -> single_from t cond = true ->
  execute db ("SELECT " ++ cols ++ " FROM " ++ t ++ " WHERE " ++ cond)
  = (mkEngine (fst (_select ("SELECT " ++ cols ++ " FROM " ++ t ++ " WHERE " ++ cond)
                            (tables db)))
              (history db ++ ["SELECT " ++ cols ++ " FROM " ++ t ++ " WHERE " ++ cond]%string),
     Returned match snd (_select ("SELECT " ++ cols ++ " FROM " ++ t ++ " WHERE " ++ cond)
                                 (tables db)) with
              | inr r => r | inl e => RError e end) /\
  exec select_re ("SELECT " ++ cols ++ " FROM " ++ t ++ " WHERE " ++ cond)
  = Some [(3, cond); (2, t); (1, cols)].
Proof.
  intros Ht Hc Hw Hf. split;
    [|exact (select_where_match t cols cond Ht Hc (clause_phrase cond Hw) Hf)].
  apply execute_select.
  apply tidy_append, (tidy_append " FROM "), tidy_append, (tidy_append " WHERE "), Hw.
Qed.

Lemma rec_set_get (o : record) (k k' : string) (v : value) :
  k' <> "__proto__" ->
  own_get k' (rec_own (rec_set o k v))
  = if String.eqb k' k then Some v else own_get k' (rec_own o).
Proof.
  intros Hk. unfold rec_set.
  destruct (String.eqb k "__proto__" && negb (own_has k (rec_own o)) &&
            match rec_proto o with ProtoNull => false | _ => true end) eqn:E.
  - apply andb_true_iff in E. destruct E as [E _].
    apply andb_true_iff in E. destruct E as [E _].
    apply String.eqb_eq in E. subst k.
    apply String.eqb_neq in Hk. rewrite Hk.
    destruct v as [|[]|]; reflexivity.
  - cbn [rec_own]. apply own_get_own_put.
Qed.

Lemma project_from (cols : list string) (row : obj) (acc : record) (k : string) :
  k <> "__proto__" ->
  own_get k (rec_own
    (fold_left (fun selected col =>
                  if obj_has row col then rec_set selected col (obj_get row col)
                  else selected) cols acc))
  = if existsb (String.eqb k) cols && obj_has row k then Some (obj_get row k)
    else own_get k (rec_own acc).
Proof.
  intros Hk. revert acc. induction cols as [|col cols IH]; intros acc; cbn [fold_left existsb].
  - reflexivity.
  - rewrite IH. destruct (String.eqb k col) eqn:E.
    + apply String.eqb_eq in E. subst col. cbn [orb].
      destruct (obj_has row k) eqn:Eh.
      * rewrite andb_true_r. rewrite (rec_set_get acc k k _ Hk), String.eqb_refl.
        destruct (existsb (String.eqb k) cols); reflexivity.
      * rewrite andb_false_r. reflexivity.
    + cbn [orb]. destruct (obj_has row col); [|reflexivity].
      rewrite (rec_set_get acc col k _ Hk), E. reflexivity.
Qed.

End SelectForms.

(** The history holds every statement that was passed to [execute], in
    order, whether it returned, failed or threw. *)
Theorem history_records_every_statement :
  forall (db : engine) (stmts : list string),
    history (run_all db stmts) = history db ++ stmts.
Proof.
  intros db stmts. revert db. induction stmts as [|s rest IH]; intros db.
  - symmetry. apply app_nil_r.
  - unfold run_all in *. cbn [fold_left]. rewrite IH, execute_history.
    rewrite <- app_assoc. reflexivity.
Qed.

(** A projected row has, under each requested name that the row has a
    member for, the value of that member, and nothing under any other
    name. *)
Theorem projection_keeps_requested_members :
  forall (columnNames : list string) (row : obj) (k : string),
    k <> "__proto__" ->
    own_get k (rec_own (project columnNames row))
    = if existsb (String.eqb k) columnNames && obj_has row k
      then Some (obj_get row k) else None.
Proof.
  intros columnNames row k Hk. unfold project.
  rewrite (project_from columnNames row empty_record k Hk). reflexivity.
Qed.

Lemma projection_keeps_requested_members_witness :
  own_get "name"
    (rec_own (project ["name"; "zip"] (mkObj true [("id", PNull); ("name", PStr "Bob")])))
  = if existsb (String.eqb "name") ["name"; "zip"] &&
       obj_has (mkObj true [("id", PNull); ("name", PStr "Bob")]) "name"
    then Some (obj_get (mkObj true [("id", PNull); ("name", PStr "Bob")]) "name")
    else None.
Proof.
  apply (projection_keeps_requested_members ["name"; "zip"]
           (mkObj true [("id", PNull); ("name", PStr "Bob")]) "name").
  discriminate.
Defined.

(** [SELECT cols FROM t] returns every row of the table, projected on the
    requested columns, and changes nothing. *)
Theorem select_returns_every_row :
  forall (db : engine) (t cols : string) (tb : table),
    word t -> phrase cols ->
    tables_get (tables db) t = Own tb ->
    answers db ("SELECT " ++ cols ++ " FROM " ++ t)
      (RData (map (project (selected_columns cols tb)) (rows tb))
             (List.length (rows tb))
             (Some (selected_columns cols tb))).
Proof.
  intros db t cols tb Ht Hc Htb.
  run_form (form_select db t cols).
  change (capture 3 [(2, t); (1, cols)]) with (@None string).
  rewrite Htb. cbn [fst snd]. rewrite length_map. reflexivity.
Qed.

Lemma select_returns_every_row_witness :
  answers users_db "SELECT name, age FROM users"
    (RData (map (project (selected_columns "name, age" users_table)) (rows users_table))
           (List.length (rows users_table))
           (Some (selected_columns "name, age" users_table))).
Proof.
  apply (select_returns_every_row users_db "users" "name, age" users_table).
  - split; [discriminate | reflexivity].
  - split; [discriminate | reflexivity].
  - vm_compute. reflexivity.
Defined.

(** [SELECT cols FROM t WHERE cond] returns the rows that satisfy the
    condition, in the order of the table, projected on the requested
    columns. *)
Theorem select_where_returns_matching :
  forall (db : engine) (t cols cond : string) (tb : table),
    word t -> phrase cols -> clause cond -> single_from t cond = true ->
    tables_get (tables db) t = Own tb ->
    let matching := filter (fun row => _evaluateWhere row cond) (rows tb) in
    answers db ("SELECT " ++ cols ++ " FROM " ++ t ++ " WHERE " ++ cond)
      (RData (map (project (selected_columns cols tb)) matching)
             (List.length matching)
             (Some (selected_columns cols tb))).
Proof.
  intros db t cols cond tb Ht Hc Hw Hf Htb. cbv zeta.
  run_form (form_select_where db t cols cond).
  change (capture 3 [(3, cond); (2, t); (1, cols)]) with (Some cond).
  rewrite Htb, (phrase_truthy cond (tidy_nonempty cond (proj2 Hw))).
  cbn [fst snd]. rewrite length_map. reflexivity.
Qed.

Lemma select_where_returns_matching_witness :
  answers users_db "SELECT name FROM users WHERE age > 26"
    (RData (map (project (selected_columns "name" users_table))
                (filter (fun row => _evaluateWhere row "age > 26") (rows users_table)))
           (List.length (filter (fun row => _evaluateWhere row "age > 26")
                                (rows users_table)))
           (Some (selected_columns "name" users_table))).
Proof.
  apply (select_where_returns_matching users_db "users" "name" "age > 26" users_table).
  - split; [discriminate | reflexivity].
  - split; [discriminate | reflexivity].
  - split; reflexivity.
  - reflexivity.
  - vm_compute. reflexivity.
Defined.

(** ** Simple conditions *)

Section SplitFacts.

Lemma startsWith_refl (p r : string) : startsWith p (p ++ r) = true.
Proof.
  induction p as [|a p IH]; [destruct r; reflexivity|].
  cbn [append startsWith]. rewrite Ascii.eqb_refl. exact IH.
Qed.

Lemma startsWith_lacks (c : ascii) (p s : string) :
  lacks c s = true -> startsWith (String c p) s = false.
Proof.
  destruct s as [|b s]; [reflexivity|]. cbn [lacks startsWith].
  intros H. apply andb_prop in H. destruct H as [H _].
  apply negb_true_iff in H. rewrite H. reflexivity.
Qed.

Lemma lacks_tail (c b : ascii) (s : string) : lacks c (String b s) = true -> lacks c s = true.
Proof. cbn [lacks]. intros H. apply andb_prop in H. apply H. Qed.

Lemma includes_lacks (c : ascii) (p s : string) :
  lacks c s = true -> includes (String c p) s = false.
Proof.
  induction s as [|b s IH]; intros H; [reflexivity|].
  change (includes (String c p) (String b s))
    with (startsWith (String c p) (String b s) || includes (String c p) s).
  rewrite (startsWith_lacks c p _ H), (IH (lacks_tail c b s H)). reflexivity.
Qed.

Lemma includes_past (c : ascii) (p s r : string) :
  lacks c s = true -> includes (String c p) (s ++ r) = includes (String c p) r.
Proof.
  induction s as [|b s IH]; intros H; [reflexivity|].
  change (includes (String c p) (String b s ++ r))
    with (startsWith (String c p) (String b (s ++ r)) || includes (String c p) (s ++ r)).
  rewrite (IH (lacks_tail c b s H)).
  cbn [lacks] in H. apply andb_prop in H. destruct H as [H _].
  apply negb_true_iff in H. cbn [startsWith]. rewrite H. reflexivity.
Qed.

Lemma includes_step (p : string) (b : ascii) (s : string) :
  includes p (String b s) = startsWith p (String b s) || includes p s.
Proof. destruct p; reflexivity. Qed.

Lemma startsWith_step (a b : ascii) (p s : string) :
  startsWith (String a p) (String b s) = Ascii.eqb a b && startsWith p s.
Proof. reflexivity. Qed.

Lemma startsWith_empty (s : string) : startsWith EmptyString s = true.
Proof. destruct s; reflexivity. Qed.

Lemma split_go_lacks (c : ascii) (p s cur : string) :
  lacks c s = true -> split_go (String c p) s 0 cur = [(cur ++ s)%string].
Proof.
  revert cur. induction s as [|b s IH]; intros cur H.
  - cbn [split_go]. rewrite append_empty_r. reflexivity.
  - cbn [split_go]. rewrite (startsWith_lacks c p _ H).
    rewrite (IH _ (lacks_tail c b s H)), append_assoc. reflexivity.
Qed.

Lemma split_go_past (c : ascii) (p s r cur : string) :
  lacks c s = true ->
  split_go (String c p) (s ++ r) 0 cur = split_go (String c p) r 0 (cur ++ s).
Proof.
  revert cur. induction s as [|b s IH]; intros cur H.
  - cbn [append]. rewrite append_empty_r. reflexivity.
  - cbn [append split_go].
    assert (Hs : startsWith (String c p) (String b (s ++ r)) = false).
    { cbn [lacks] in H. apply andb_prop in H. destruct H as [H _].
      apply negb_true_iff in H. cbn [startsWith]. rewrite H. reflexivity. }
    rewrite Hs, (IH _ (lacks_tail c b s H)), append_assoc. reflexivity.
Qed.

Lemma split_go_skip (sep p r cur : string) :
  split_go sep (p ++ r) (String.length p) cur = split_go sep r 0 cur.
Proof.
  induction p as [|a p IH]; [reflexivity|].
  cbn [append String.length split_go]. exact IH.
Qed.

Lemma split_go_at (c : ascii) (p r cur : string) :
  split_go (String c p) (String c p ++ r) 0 cur
  = cur :: split_go (String c p) r 0 EmptyString.
Proof.
  cbn [append]. 
  change (split_go (String c p) (String c (p ++ r)) 0 cur)
    with (if startsWith (String c p) (String c (p ++ r))
          then cur :: split_go (String c p) (p ++ r) (String.length (String c p) - 1) EmptyString
          else split_go (String c p) (p ++ r) 0 (cur ++ String c EmptyString)).
  change (String c (p ++ r)) with (String c p ++ r)%string.
  rewrite startsWith_refl. cbn [String.length Nat.sub]. rewrite Nat.sub_0_r.
  rewrite split_go_skip. reflexivity.
Qed.

(** A text with one occurrence of the separator splits in two. *)
Lemma split_pair (c : ascii) (p s1 s2 : string) :
  lacks c s1 = true -> lacks c s2 = true ->
  split (String c p) (s1 ++ String c p ++ s2) = [s1; s2].
Proof.
  intros H1 H2. unfold split.
  rewrite (split_go_past c p s1 _ _ H1), split_go_at, (split_go_lacks c p s2 _ H2).
  reflexivity.
Qed.

(** A text without the separator is its only piece. *)
Lemma split_lacks (c : ascii) (p s : string) :
  lacks c s = true -> split (String c p) s = [s].
Proof. intros H. unfold split. rewrite (split_go_lacks c p s _ H). reflexivity. Qed.

Lemma operand_lacks (s : string) :
  operand s = true ->
  lacks "<" s = true /\ lacks ">" s = true /\ lacks "=" s = true /\ lacks "!" s = true.
Proof.
  unfold operand. intros H.
  apply andb_prop in H. destruct H as [H H4].
  apply andb_prop in H. destruct H as [H H3].
  apply andb_prop in H. destruct H as [H1 H2]. auto.
Qed.

(** In [lhs op rhs] with operands free of operator characters, the
    evaluator selects [op] and splits the text at it. *)
Lemma simple_condition_parts (lhs rhs op : string) :
  In op operators ->
  operand lhs = true -> operand rhs = true ->
  selected_operator (lhs ++ op ++ rhs) = Some op /\
  operands op (lhs ++ op ++ rhs) = (trim lhs, trim rhs).
Proof.
  intros Hop Hl Hr.
  destruct (operand_lacks lhs Hl) as (L1 & L2 & L3 & L4).
  destruct (operand_lacks rhs Hr) as (R1 & R2 & R3 & R4).
  unfold selected_operator, operators, operands in *. cbn [In] in Hop.
  destruct Hop as [H|[H|[H|[H|[H|[H|[H|[]]]]]]]]; subst op;
    (split; [|rewrite split_pair by assumption; reflexivity]);
    cbn [find append];
    rewrite ?includes_past by assumption;
    rewrite ?includes_step;
    rewrite ?includes_lacks by assumption;
    rewrite ?startsWith_step, ?startsWith_empty;
    repeat match goal with
           | |- context [Ascii.eqb ?a ?b] =>
               let v := eval vm_compute in (Ascii.eqb a b) in
               change (Ascii.eqb a b) with v
           end;
    cbn [andb orb];
    rewrite ?startsWith_lacks by assumption;
    reflexivity.
Qed.

Lemma simple_condition (row : obj) (lhs rhs op : string) :
  In op operators ->
  operand lhs = true -> operand rhs = true ->
  compare_with op (obj_get row (trim lhs)) (VPrim (_parseValue (trim rhs)))
  = Some (_evaluateWhere row (lhs ++ op ++ rhs)).
Proof.
  intros Hop Hl Hr.
  destruct (simple_condition_parts lhs rhs op Hop Hl Hr) as [Hsel Hops].
  rewrite evaluateWhere_selected, Hsel, Hops. cbn [fst snd].
  destruct (compare_with op _ _) eqn:E; [reflexivity|].
  exfalso. exact (compare_with_operators _ _ _ Hop E).
Qed.

End SplitFacts.

(** A condition [lhs op rhs] whose operands hold none of the operator
    characters is the comparison of the language between the member of
    the row named by the left operand and the parsed right operand. *)
Theorem simple_condition_compares :
  forall (row : obj) (lhs rhs op : string),
    In op operators ->
    operand lhs = true -> operand rhs = true ->
    compare_with op (obj_get row (trim lhs)) (VPrim (_parseValue (trim rhs)))
    = Some (_evaluateWhere row (lhs ++ op ++ rhs)).
Proof. intros row lhs rhs op. apply simple_condition. Qed.

Lemma simple_condition_compares_witness :
  compare_with ">=" (obj_get (mkObj true [("age", PNum (Number "30"))]) (trim "age "))
               (VPrim (_parseValue (trim " 30")))
  = Some (_evaluateWhere (mkObj true [("age", PNum (Number "30"))]) "age >= 30").
Proof.
  apply (simple_condition_compares (mkObj true [("age", PNum (Number "30"))])
           "age " " 30" ">=").
  - simpl. auto.
  - reflexivity.
  - reflexivity.
Defined.

(** A condition on a member that the row does not have: every ordering
    comparison is false, and equality holds for the literal [null]
    alone. *)
Theorem missing_column_condition :
  forall (row : obj) (lhs rhs op : string),
    In op operators ->
    operand lhs = true -> operand rhs = true ->
    obj_get row (trim lhs) = VUndefined ->
    _evaluateWhere row (lhs ++ op ++ rhs)
    = if String.eqb op "=" then nullish (VPrim (_parseValue (trim rhs)))
      else if String.eqb op "!=" || String.eqb op "<>"
           then negb (nullish (VPrim (_parseValue (trim rhs))))
           else false.
Proof.
  intros row lhs rhs op Hop Hl Hr Hu.
  pose proof (simple_condition row lhs rhs op Hop Hl Hr) as H.
  rewrite Hu in H. apply (f_equal (fun o => match o with Some b => b | None => false end)) in H.
  rewrite <- H. clear H.
  assert (L : forall y, less_than VUndefined y = None) by reflexivity.
  assert (R : forall x, less_than x VUndefined = None).
  { intros x. unfold less_than. cbn [as_string to_number].
    destruct (as_string x); rewrite orb_true_r; reflexivity. }
  unfold operators in Hop. cbn [In] in Hop.
  destruct Hop as [H|[H|[H|[H|[H|[H|[H|[]]]]]]]]; subst op; unfold compare_with;
    cbn [String.eqb Ascii.eqb Bool.eqb orb];
    unfold lt, gt, le, ge, loose_eq; rewrite ?L, ?R; try reflexivity.
Qed.

Lemma missing_column_condition_witness :
  _evaluateWhere (mkObj true [("age", PNum (Number "30"))]) "zip != 5"
  = negb (nullish (VPrim (_parseValue (trim " 5")))).
Proof.
  apply (missing_column_condition (mkObj true [("age", PNum (Number "30"))])
           "zip " " 5" "!=").
  - simpl. auto.
  - reflexivity.
  - reflexivity.
  - reflexivity.
Defined.

(** ** Value lists without quotation marks *)

Section ScanFacts.

Lemma scan_unquoted (s : string) (vals : list prim) (cur : string) :
  lacks (ascii_of_N 39) s = true -> lacks (ascii_of_N 34) s = true ->
  flush (fold_left scan_char (list_ascii_of_string s)
                   (mkScanner vals cur false EmptyString))
  = vals ++ map _parseValue (filter truthy (map trim (split_go "," s 0 cur))).
Proof.
  revert vals cur. induction s as [|c s IH]; intros vals cur H1 H2.
  - cbn [list_ascii_of_string fold_left split_go map filter]. unfold flush.
    cbn [current values]. destruct (truthy (trim cur)); cbn [map];
      [reflexivity | rewrite app_nil_r; reflexivity].
  - cbn [list_ascii_of_string fold_left].
    pose proof (lacks_tail _ _ _ H1) as T1. pose proof (lacks_tail _ _ _ H2) as T2.
    cbn [lacks] in H1, H2.
    apply andb_prop in H1. destruct H1 as [H1 _]. apply negb_true_iff in H1.
    apply andb_prop in H2. destruct H2 as [H2 _]. apply negb_true_iff in H2.
    assert (Q1 : String.eqb (String c EmptyString) squote = false).
    { unfold squote. cbn [String.eqb]. rewrite Ascii.eqb_sym, H1. reflexivity. }
    assert (Q2 : String.eqb (String c EmptyString) dquote = false).
    { unfold dquote. cbn [String.eqb]. rewrite Ascii.eqb_sym, H2. reflexivity. }
    unfold scan_char at 2. cbn [inQuotes quoteChar current values negb].
    rewrite Q1, Q2. cbn [orb andb]. rewrite andb_false_r, andb_true_r.
    change (split_go "," (String c s) 0 cur)
      with (if startsWith "," (String c s)
            then cur :: split_go "," s (String.length "," - 1) EmptyString
            else split_go "," s 0 (cur ++ String c EmptyString)).
    rewrite startsWith_step, startsWith_empty, andb_true_r.
    destruct (Ascii.eqb "," c) eqn:E.
    + apply Ascii.eqb_eq in E. subst c.
      change (String.eqb "," ",") with true. cbv iota.
      rewrite (IH _ _ T1 T2). cbn [String.length Nat.sub map filter].
      destruct (truthy (trim cur)); cbn [map app]; [|reflexivity].
      rewrite <- app_assoc. reflexivity.
    + assert (Q3 : String.eqb (String c EmptyString) "," = false).
      { cbn [String.eqb]. rewrite Ascii.eqb_sym, E. reflexivity. }
      rewrite Q3. apply (IH _ _ T1 T2).
Qed.

End ScanFacts.

(** On a value list without quotation marks, [_parseValues] is the
    comma-separated reading: split at the commas, trim the pieces, drop
    the empty ones and parse each of the others. *)
Theorem parseValues_without_quotes :
  forall vs : string,
    lacks (ascii_of_N 39) vs = true -> lacks (ascii_of_N 34) vs = true ->
    _parseValues vs = map _parseValue (filter truthy (map trim (split "," vs))).
Proof.
  intros vs H1 H2.
  exact (scan_unquoted vs [] EmptyString H1 H2).
Qed.

Lemma parseValues_without_quotes_witness :
  _parseValues "1, ,true,x"
  = map _parseValue (filter truthy (map trim (split "," "1, ,true,x"))).
Proof. apply (parseValues_without_quotes "1, ,true,x"); reflexivity. Defined.

(** ** UPDATE: the assigned members *)

Section AssignFacts.

Lemma own_get_not_In {V : Type} (k : string) (l : props V) :
  own_get k l = None -> ~ In k (keys l).
Proof.
  intros H Hin. apply In_own_has in Hin. unfold own_has in Hin.
  rewrite H in Hin. discriminate.
Qed.

Lemma NoDup_obj_set (o : obj) (k : string) (p : prim) :
  NoDup (keys (obj_own o)) -> NoDup (keys (obj_own (obj_set o k p))).
Proof.
  intros H. unfold obj_set. destruct (_ && _ && _); [destruct p; exact H|].
  cbn [obj_own]. apply NoDup_own_put, H.
Qed.

Lemma assignments_NoDup (pairs : list string) (u0 u : obj) :
  fold_left assignment pairs (inr u0) = inr u ->
  NoDup (keys (obj_own u0)) -> NoDup (keys (obj_own u)).
Proof.
  revert u0. induction pairs as [|pair pairs IH]; intros u0; cbn [fold_left].
  - intros H; inversion H; subst. auto.
  - rewrite assignment_step.
    destruct (nth_error (map trim (split "=" pair)) 1) as [val|].
    + intros H Hnd. apply (IH _ H). apply NoDup_obj_set, Hnd.
    + rewrite assignment_thrown. discriminate.
Qed.

(** [Object.assign]: the members of the source override, the others
    stay. *)
Lemma assign_get (target source : obj) (k : string) :
  k <> "__proto__" ->
  NoDup (keys (obj_own source)) ->
  own_get k (obj_own (assign target source))
  = match own_get k (obj_own source) with
    | Some v => Some v
    | None => own_get k (obj_own target)
    end.
Proof.
  intros Hk Hnd. unfold assign.
  destruct (own_get k (obj_own source)) as [v|] eqn:E.
  - apply built_row_get; [exact Hk | exact Hnd | apply own_get_In, E].
  - apply built_row_skips; [exact Hk | apply own_get_not_In, E].
Qed.

Lemma update_rows (updates : obj) (rs : list obj) :
  map fst (map (update_row None updates) rs) = map (fun row => assign row updates) rs /\
  List.length (filter snd (map (update_row None updates) rs)) = List.length rs.
Proof.
  induction rs as [|r rs [IH1 IH2]]; [split; reflexivity|].
  cbn [map filter]. rewrite update_row_unconditional. cbn [fst snd List.length].
  rewrite IH1, IH2. split; reflexivity.
Qed.

End AssignFacts.

(** An UPDATE whose assignments all have a value assigns them to every
    row of the table: in each row the assigned members hold the parsed
    values and the other members are as before.  The count is the number
    of rows of the table. *)
Theorem update_assigns_every_row :
  forall (db : engine) (t setc : string) (tb : table) (updates : obj),
    word t -> clause setc ->
    tables_get (tables db) t = Own tb ->
    fold_left assignment (split "," setc) (inr empty_obj) = inr updates ->
    execute db ("UPDATE " ++ t ++ " SET " ++ setc)
    = (mkEngine
         (replace t
            (mkTable (columns tb) (constraints tb)
                     (map (fun row => assign row updates) (rows tb)) (indexes tb))
            (tables db))
         (history db ++ ["UPDATE " ++ t ++ " SET " ++ setc]%string),
       Returned (RMessage (RowsUpdated (List.length (rows tb))))) /\
    (forall row k,
       k <> "__proto__" ->
       own_get k (obj_own (assign row updates))
       = match own_get k (obj_own updates) with
         | Some v => Some v
         | None => own_get k (obj_own row)
         end).
Proof.
  intros db t setc tb updates Ht Hc Htb Hu. split.
  - destruct (form_update db t setc Ht Hc) as [E P]. rewrite E. clear E.
    unfold _update. rewrite P. clear P.
    unfold bind, get, put, ret, throw, lift.
    change (group 1 [(2, setc); (1, t)]) with t.
    change (group 2 [(2, setc); (1, t)]) with setc.
    change (capture 3 [(2, setc); (1, t)]) with (@None string).
    rewrite Htb, Hu. cbn [fst snd].
    destruct (update_rows updates (rows tb)) as [R1 R2]. rewrite R1, R2. reflexivity.
  - intros row k Hk. apply assign_get; [exact Hk|].
    apply (assignments_NoDup _ _ _ Hu). constructor.
Qed.

Lemma update_assigns_every_row_witness :
  execute two_rows_db "UPDATE t SET x = 5, id = 9"
  = (mkEngine
       (replace "t"
          (mkTable (columns two_rows_table) (constraints two_rows_table)
                   (map (fun row =>
                           assign row (mkObj true [("x", PNum (Number "5"));
                                                   ("id", PNum (Number "9"))]))
                        (rows two_rows_table))
                   (indexes two_rows_table))
          (tables two_rows_db))
       (history two_rows_db ++ ["UPDATE t SET x = 5, id = 9"]),
     Returned (RMessage (RowsUpdated (List.length (rows two_rows_table))))).
Proof.
  refine (proj1 (update_assigns_every_row two_rows_db "t" "x = 5, id = 9" two_rows_table
                   (mkObj true [("x", PNum (Number "5")); ("id", PNum (Number "9"))])
                   _ _ _ _)).
  - split; [discriminate | reflexivity].
  - split; reflexivity.
  - vm_compute. reflexivity.
  - vm_compute. reflexivity.
Defined.

(** [UPDATE t SET col=lit]: afterwards every row of the table holds the
    parsed literal under the column; no key constraint is consulted. *)
Theorem update_sets_the_column :
  forall (db : engine) (t col lit : string) (tb : table),
    word t ->
    lacks "," col = true -> lacks "=" col = true ->
    lacks "," lit = true -> lacks "=" lit = true ->
    clause (col ++ "=" ++ lit) ->
    trim col <> "__proto__" ->
    tables_get (tables db) t = Own tb ->
    exists rows',
      execute db ("UPDATE " ++ t ++ " SET " ++ col ++ "=" ++ lit)
      = (mkEngine
           (replace t (mkTable (columns tb) (constraints tb) rows' (indexes tb)) (tables db))
           (history db ++ ["UPDATE " ++ t ++ " SET " ++ col ++ "=" ++ lit]%string),
         Returned (RMessage (RowsUpdated (List.length (rows tb))))) /\
      List.length rows' = List.length (rows tb) /\
      (forall row, In row rows' -> obj_get row (trim col) = VPrim (_parseValue (trim lit))).
Proof.
  intros db t col lit tb Ht Hc1 Hc2 Hl1 Hl2 Hcl Hp Htb.
  set (updates := obj_set empty_obj (trim col) (_parseValue (trim lit))).
  assert (Hu : fold_left assignment (split "," (col ++ "=" ++ lit)) (inr empty_obj)
               = inr updates).
  { rewrite split_lacks.
    - cbn [fold_left]. rewrite assignment_step. unfold assigned_column.
      rewrite (split_pair "=" EmptyString col lit Hc2 Hl2). reflexivity.
    - assert (G : forall a b, lacks "," a = true -> lacks "," b = true ->
                              lacks "," (a ++ b) = true).
      { induction a as [|x a IH]; intros b Ha Hb; [exact Hb|].
        cbn [append lacks] in *. apply andb_prop in Ha. destruct Ha as [Hx Ha].
        rewrite Hx, (IH b Ha Hb). reflexivity. }
      apply G; [exact Hc1|]. apply (G "="); [reflexivity | exact Hl1]. }
  exists (map (fun row => assign row updates) (rows tb)).
  split; [|split].
  - destruct (form_update db t (col ++ "=" ++ lit) Ht Hcl) as [E P]. rewrite E. clear E.
    unfold _update. rewrite P. clear P.
    unfold bind, get, put, ret, throw, lift.
    change (group 1 [(2, (col ++ "=" ++ lit)%string); (1, t)]) with t.
    change (group 2 [(2, (col ++ "=" ++ lit)%string); (1, t)]) with (col ++ "=" ++ lit)%string.
    change (capture 3 [(2, (col ++ "=" ++ lit)%string); (1, t)]) with (@None string).
    rewrite Htb, Hu. cbn [fst snd].
    destruct (update_rows updates (rows tb)) as [R1 R2]. rewrite R1, R2. reflexivity.
  - apply length_map.
  - intros row Hin. apply in_map_iff in Hin. destruct Hin as (r0 & <- & _).
    unfold obj_get. rewrite assign_get.
    + unfold updates. rewrite (obj_set_get empty_obj _ _ _ Hp), String.eqb_refl. reflexivity.
    + exact Hp.
    + unfold updates. apply NoDup_obj_set. constructor.
Qed.

Lemma update_sets_the_column_witness :
  exists rows',
    execute two_rows_db "UPDATE t SET id = 7"
    = (mkEngine
         (replace "t"
            (mkTable (columns two_rows_table) (constraints two_rows_table) rows'
                     (indexes two_rows_table))
            (tables two_rows_db))
         (history two_rows_db ++ ["UPDATE t SET id = 7"]),
       Returned (RMessage (RowsUpdated (List.length (rows two_rows_table))))) /\
    List.length rows' = List.length (rows two_rows_table) /\
    (forall row, In row rows' -> obj_get row (trim "id ") = VPrim (_parseValue (trim " 7"))).
Proof.
  apply (update_sets_the_column two_rows_db "t" "id " " 7" two_rows_table).
  - split; [discriminate | reflexivity].
  - reflexivity.
  - reflexivity.
  - reflexivity.
  - reflexivity.
  - split; reflexivity.
  - vm_compute. discriminate.
  - vm_compute. reflexivity.
Defined.

(** ** Statements that span several lines *)

Section OverLines.

Lemma parens_tail (a : ascii) (s : string) :
  parens_end_lines (String a s) = true -> parens_end_lines s = true.
Proof. cbn [parens_end_lines]. intros H. apply andb_prop in H. apply H. Qed.

Lemma same_char_paren (b : ascii) : same_char "(" b = true -> b = "("%char.
Proof. destruct b as [[] [] [] [] [] [] [] []]; vm_compute; congruence. Qed.

Lemma lit_closed {A : Type} (p s : string) (k : string -> option A) :
  (forall rest, parens_end_lines rest = true -> k rest = None) ->
  parens_end_lines s = true -> lit p s k = None.
Proof.
  intros Hk. revert s. induction p as [|a p IH]; intros s Hs; cbn [lit]; [exact (Hk s Hs)|].
  destruct s as [|b s]; [reflexivity|].
  destruct (same_char a b); [|reflexivity]. apply IH. exact (parens_tail b s Hs).
Qed.

Lemma star_closed {A : Type} (c : cclass) (s : string) (k : string -> option A) :
  (forall rest, parens_end_lines rest = true -> k rest = None) ->
  parens_end_lines s = true -> star c s k = None.
Proof.
  intros Hk. induction s as [|a s IH]; intros Hs; [exact (Hk _ Hs)|].
  rewrite star_step, (IH (parens_tail a s Hs)), (Hk _ Hs).
  destruct (in_class c a); reflexivity.
Qed.

Lemma plus_closed {A : Type} (c : cclass) (s : string) (k : string -> option A) :
  (forall rest, parens_end_lines rest = true -> k rest = None) ->
  parens_end_lines s = true -> plus c s k = None.
Proof.
  intros Hk Hs. destruct s as [|a s]; [reflexivity|]. cbn [plus].
  destruct (in_class c a); [|reflexivity].
  apply star_closed; [exact Hk | exact (parens_tail a s Hs)].
Qed.

(** After a parenthesis that ends its line, [(.+)] has nothing to match. *)
Lemma paren_then_dot {A : Type} (p s : string) (k : string -> string -> option A) :
  parens_end_lines s = true ->
  lit (p ++ "(") s (fun rest => plus Dot rest (k rest)) = None.
Proof.
  revert s. induction p as [|a p IH]; intros s Hs.
  - cbn [append lit]. destruct s as [|b s]; [reflexivity|].
    destruct (same_char "(" b) eqn:E; [|reflexivity].
    apply same_char_paren in E. subst b.
    cbn [parens_end_lines] in Hs. apply andb_prop in Hs. destruct Hs as [Hs _].
    change (Ascii.eqb "(" "(") with true in Hs. cbv iota in Hs.
    destruct s as [|c s]; [reflexivity|]. cbn [plus in_class]. rewrite Hs. reflexivity.
  - cbn [append lit]. destruct s as [|b s]; [reflexivity|].
    destruct (same_char a b); [|reflexivity]. apply IH. exact (parens_tail b s Hs).
Qed.

Lemma create_over_lines (s : string) :
  parens_end_lines s = true -> exec create_re s = None.
Proof.
  assert (H : forall s, parens_end_lines s = true -> match_here create_re s = None).
  { intros s0 Hs. unfold match_here, create_re, seq. cbn [fold_right run].
    apply lit_closed; [|exact Hs]. intros r1 H1.
    apply plus_closed; [|exact H1]. intros r2 H2.
    exact (paren_then_dot " " r2 (fun rest rest0 => lit ")" rest0 _) H2). }
  induction s as [|a s IH]; intros Hs; cbn [exec]; rewrite (H _ Hs); [reflexivity|].
  apply IH. exact (parens_tail a s Hs).
Qed.

Lemma insert_over_lines (s : string) :
  parens_end_lines s = true -> exec insert_re s = None.
Proof.
  assert (H : forall s, parens_end_lines s = true -> match_here insert_re s = None).
  { intros s0 Hs. unfold match_here, insert_re, seq. cbn [fold_right run].
    apply lit_closed; [|exact Hs]. intros r1 H1.
    apply plus_closed; [|exact H1]. intros r2 H2.
    exact (paren_then_dot " VALUES " r2 (fun rest rest0 => lit ")" rest0 _) H2). }
  induction s as [|a s IH]; intros Hs; cbn [exec]; rewrite (H _ Hs); [reflexivity|].
  apply IH. exact (parens_tail a s Hs).
Qed.

End OverLines.

(** A CREATE TABLE or INSERT statement in which every opening parenthesis
    is followed by a line break is rejected as a syntax error: the [.] of
    the pattern does not match a line terminator.  Nothing is created or
    inserted. *)
Theorem statement_over_lines_rejected :
  forall (db : engine) (sql : string),
    parens_end_lines (normalize sql) = true ->
    (command_of sql = Some "CREATE" ->
     answers db sql (RError (InvalidSyntax "CREATE TABLE"))) /\
    (command_of sql = Some "INSERT" ->
     answers db sql (RError (InvalidSyntax "INSERT"))).
Proof.
  intros db sql Hp. unfold command_of, answers, execute.
  destruct (words (normalize sql)) as [|p0 ps]; [split; discriminate|].
  split; intros H; inversion H as [E]; rewrite E; unfold dispatch;
    cbn [String.eqb Ascii.eqb Bool.eqb]; unfold as_result, bind.
  - unfold _createTable. rewrite (create_over_lines _ Hp). reflexivity.
  - unfold _insert. rewrite (insert_over_lines _ Hp). reflexivity.
Qed.

Lemma statement_over_lines_rejected_witness :
  answers constructor (hd EmptyString REPL.sample)
          (RError (InvalidSyntax "CREATE TABLE")).
Proof.
  refine (proj1 (statement_over_lines_rejected constructor (hd EmptyString REPL.sample) _) _).
  - vm_compute. reflexivity.
  - vm_compute. reflexivity.
Defined.

(** ** The sample data of the callers *)

(** The sample data of the REPL is never loaded: the CREATE TABLE
    statements of [start()] span several lines and are rejected, so the
    INSERT statements find no table.  A new engine has no table after
    [start()]. *)
Theorem repl_start_loads_nothing :
  forall db : engine,
    tables db = [] ->
    tables (fst (REPL.start db)) = [] /\ snd (REPL.start db) = None.
Proof.
  intros [c h] H. cbn [tables] in H. subst c.
  vm_compute. split; reflexivity.
Qed.

Lemma repl_start_loads_nothing_witness :
  tables (fst (REPL.start constructor)) = [] /\ snd (REPL.start constructor) = None.
Proof. apply (repl_start_loads_nothing constructor). reflexivity. Defined.

(** [initializeSampleData()] of the web server never changes the catalog:
    with a table present it does nothing, and on an empty catalog its
    CREATE TABLE statements, which span several lines, are rejected. *)
Theorem sample_data_never_initialized :
  forall db : engine,
    tables (fst (WebServer.initializeSampleData db)) = tables db /\
    snd (WebServer.initializeSampleData db) = None.
Proof.
  intros [c h]. destruct c as [|[n t] c].
  - vm_compute. split; reflexivity.
  - unfold WebServer.initializeSampleData.
    assert (E : execute (mkEngine ((n, t) :: c) h) "SHOW TABLES"
                = (mkEngine ((n, t) :: c) (h ++ ["SHOW TABLES"]),
                   Returned (RData (map (fun name => literal [("Table", VPrim (PStr name))])
                                        (keys ((n, t) :: c)))
                                   (List.length (keys ((n, t) :: c))) None)))
      by reflexivity.
    rewrite E. cbn [WebServer.no_data keys map List.length Nat.eqb fst snd tables].
    split; reflexivity.
Qed.

(** ** DELETE with a condition, the terminator, key declarations and stored numbers *)

Section Terminators.

Lemma slice_last (s : string) : slice (s ++ ";") 0 (-1) = s.
Proof.
  unfold slice. rewrite length_append. cbn [String.length].
  change (0 <? 0)%Z with false. change (-1 <? 0)%Z with true. cbv iota.
  replace (Z.min 0 (Z.of_nat (String.length s + 1))) with 0%Z by lia.
  replace (Z.max (Z.of_nat (String.length s + 1) + -1) 0) with (Z.of_nat (String.length s)) by lia.
  replace (Z.max (Z.of_nat (String.length s) - 0) 0) with (Z.of_nat (String.length s)) by lia.
  rewrite Nat2Z.id. cbn [Z.to_nat drop]. apply take_append.
Qed.

Lemma normalize_semicolon (c : ascii) (r : string) :
  is_space c = false -> normalize (String c r ++ ";") = String c r.
Proof.
  intros Hc. unfold normalize.
  assert (E : trim (String c r ++ ";") = (String c r ++ ";")%string).
  { apply (trim_fixed _ c ";" (r ++ ";") (rev (String c r))).
    - reflexivity.
    - exact Hc.
    - rewrite rev_append. reflexivity.
    - reflexivity. }
  rewrite E. unfold endsWith. rewrite rev_append.
  change (rev ";") with ";". cbn [append startsWith].
  exact (slice_last (String c r)).
Qed.

Lemma own_get_set_plain {V : Type} (k k' : string) (v : V) (l : props V) :
  k' <> "__proto__" ->
  own_get k' (set_plain k v l) = if String.eqb k' k then Some v else own_get k' l.
Proof.
  intros Hk. unfold set_plain.
  destruct (String.eqb k "__proto__" && negb (own_has k l)) eqn:E.
  - apply andb_true_iff in E. destruct E as [E _]. apply String.eqb_eq in E. subst k.
    apply String.eqb_neq in Hk. rewrite Hk. reflexivity.
  - apply own_get_own_put.
Qed.

Lemma definitions_without_key (defs : list string)
      (cols cols' : props string) (cstr cstr' : props constraint) :
  (forall d, In d defs ->
     existsb (String.eqb "PRIMARY") (split_ws (trim d)) = false /\
     nth 0 (split_ws (trim d)) EmptyString <> "primaryKey") ->
  fold_left column_definition defs (inr (cols, cstr)) = inr (cols', cstr') ->
  own_get "primaryKey" cstr' = own_get "primaryKey" cstr.
Proof.
  revert cols cstr. induction defs as [|d defs IH]; intros cols cstr Hd; cbn [fold_left].
  - intros H; inversion H; subst. reflexivity.
  - unfold column_definition at 2.
    destruct (nth_error (split_ws (trim d)) 1) as [p1|].
    + destruct (Hd d (or_introl eq_refl)) as [Hp Hn]. rewrite Hp.
      intros H. rewrite (IH _ _ (fun x Hx => Hd x (or_intror Hx)) H).
      destruct (existsb (String.eqb "UNIQUE") (split_ws (trim d))); [|reflexivity].
      rewrite own_get_set_plain by discriminate.
      destruct (String.eqb "primaryKey" (nth 0 (split_ws (trim d)) EmptyString)) eqn:E;
        [|reflexivity].
      apply String.eqb_eq in E. contradiction Hn. symmetry. exact E.
    + assert (G : forall l, fold_left column_definition l (inl TypeError) = inl TypeError)
        by (induction l as [|x l IHl]; [reflexivity | exact IHl]).
      rewrite G. discriminate.
Qed.

Lemma one_line_append (a b : string) :
  one_line (a ++ b) = one_line a && one_line b.
Proof.
  induction a as [|c a IH]; [reflexivity|].
  cbn [append one_line]. rewrite IH. apply andb_assoc.
Qed.

Lemma delete_where_outcome (db : engine) (t cond : string) (tb : table) :
  word t -> clause cond ->
  tables_get (tables db) t = Own tb ->
  execute db ("DELETE FROM " ++ t ++ " WHERE " ++ cond)
  = (mkEngine
       (replace t
          (mkTable (columns tb) (constraints tb)
                   (filter (fun row => negb (_evaluateWhere row cond)) (rows tb))
                   (indexes tb))
          (tables db))
       (history db ++ ["DELETE FROM " ++ t ++ " WHERE " ++ cond]%string),
     Returned (RMessage (RowsDeleted
       (List.length (filter (fun row => _evaluateWhere row cond) (rows tb)))))).
Proof.
  intros Ht Hc Htb.
  destruct (form_delete_where db t cond Ht Hc) as [E P]. rewrite E. clear E.
  unfold _delete. rewrite P. clear P.
  unfold bind, get, put, ret, throw.
  change (group 1 [(2, cond); (1, t)]) with t.
  change (capture 2 [(2, cond); (1, t)]) with (Some cond).
  rewrite Htb, (phrase_truthy cond (tidy_nonempty cond (proj2 Hc))). cbn [fst snd].
  rewrite filter_complement. reflexivity.
Qed.

End Terminators.

(** [DELETE FROM t WHERE cond] removes the rows that satisfy the
    condition, keeps the others in their order, and reports the number
    removed. *)
Theorem delete_where_removes_matching :
  forall (db : engine) (t cond : string) (tb : table),
    word t -> clause cond ->
    tables_get (tables db) t = Own tb ->
    execute db ("DELETE FROM " ++ t ++ " WHERE " ++ cond)
    = (mkEngine
         (replace t
            (mkTable (columns tb) (constraints tb)
                     (filter (fun row => negb (_evaluateWhere row cond)) (rows tb))
                     (indexes tb))
            (tables db))
         (history db ++ ["DELETE FROM " ++ t ++ " WHERE " ++ cond]%string),
       Returned (RMessage (RowsDeleted
         (List.length (filter (fun row => _evaluateWhere row cond) (rows tb)))))).
Proof. intros db t cond tb. apply delete_where_outcome. Qed.

Lemma delete_where_removes_matching_witness :
  execute users_db "DELETE FROM users WHERE age > 26"
  = (mkEngine
       (replace "users"
          (mkTable (columns users_table) (constraints users_table)
                   (filter (fun row => negb (_evaluateWhere row "age > 26"))
                           (rows users_table))
                   (indexes users_table))
          (tables users_db))
       (history users_db ++ ["DELETE FROM users WHERE age > 26"]),
     Returned (RMessage (RowsDeleted
       (List.length (filter (fun row => _evaluateWhere row "age > 26")
                            (rows users_table)))))).
Proof.
  apply (delete_where_removes_matching users_db "users" "age > 26" users_table).
  - split; [discriminate | reflexivity].
  - split; reflexivity.
  - vm_compute. reflexivity.
Defined.

(** A final semicolon is optional: with or without it, a statement has
    the same effect on the catalog and the same outcome. *)
Theorem final_semicolon_is_optional :
  forall (db : engine) (c : ascii) (r : string),
    is_space c = false -> tidy (String c r) = true ->
    tables (fst (execute db (String c r ++ ";"))) = tables (fst (execute db (String c r))) /\
    snd (execute db (String c r ++ ";")) = snd (execute db (String c r)).
Proof.
  intros db c r Hc Ht. unfold execute.
  rewrite (normalize_semicolon c r Hc), (normalize_fixed c r Hc Ht).
  destruct (words (String c r)) as [|p0 ps]; [split; reflexivity|].
  destruct (dispatch (toUpperCase p0) (String c r) (tables db)) as [c' [e|x]];
    split; reflexivity.
Qed.

Lemma final_semicolon_is_optional_witness :
  tables (fst (execute users_db "SELECT * FROM users;"))
  = tables (fst (execute users_db "SELECT * FROM users")) /\
  snd (execute users_db "SELECT * FROM users;")
  = snd (execute users_db "SELECT * FROM users").
Proof.
  apply (final_semicolon_is_optional users_db "S" "ELECT * FROM users").
  - reflexivity.
  - reflexivity.
Defined.

(** The key constraint is read from the exact word [PRIMARY]: column
    definitions that do not hold it (in lower case, say) declare no
    primary key, and the table accepts any key value any number of
    times. *)
Theorem unmarked_definitions_declare_no_key :
  forall (defs : list string) (cols : props string) (cstr : props constraint),
    (forall d, In d defs ->
       existsb (String.eqb "PRIMARY") (split_ws (trim d)) = false /\
       nth 0 (split_ws (trim d)) EmptyString <> "primaryKey") ->
    fold_left column_definition defs (inr ([], [])) = inr (cols, cstr) ->
    forall (rs : list obj) (idx : props prim) (vals : list prim),
      primary_key (mkTable cols cstr rs idx) = None /\
      fresh_key (mkTable cols cstr rs idx) vals = true.
Proof.
  intros defs cols cstr Hd Hf rs idx vals.
  assert (H : primary_key (mkTable cols cstr rs idx) = None).
  { unfold primary_key. cbn [constraints].
    rewrite (definitions_without_key defs _ _ _ _ Hd Hf). reflexivity. }
  split; [exact H|]. unfold fresh_key. rewrite H. reflexivity.
Qed.

Lemma unmarked_definitions_declare_no_key_witness :
  primary_key (mkTable [("id", "INT"); ("name", "TEXT")] [] [] []) = None /\
  fresh_key (mkTable [("id", "INT"); ("name", "TEXT")] [] [] []) [] = true.
Proof.
  apply (unmarked_definitions_declare_no_key ["id INT primary key"; " name TEXT"]).
  - intros d [<-|[<-|[]]]; split; (reflexivity || discriminate).
  - vm_compute. reflexivity.
Defined.

(** A stored number is never [NaN]: text that does not read as a number
    is kept as a string. *)
Theorem parseValue_never_NaN :
  forall (str : string) (n : number), _parseValue str = PNum n -> isNaN n = false.
Proof.
  intros str n. unfold _parseValue.
  destruct (startsWith squote str && endsWith squote str); [discriminate|].
  destruct (startsWith dquote str && endsWith dquote str); [discriminate|].
  destruct (String.eqb (toLowerCase str) "null"); [discriminate|].
  destruct (String.eqb (toLowerCase str) "true"); [discriminate|].
  destruct (String.eqb (toLowerCase str) "false"); [discriminate|].
  destruct (isNaN (Number str)) eqn:E; [discriminate|].
  intros H. inversion H; subst. exact E.
Qed.

Lemma parseValue_never_NaN_witness : isNaN (Number "12") = false.
Proof. apply (parseValue_never_NaN "12" (Number "12")). vm_compute. reflexivity. Defined.

(** [DELETE /users/:id] removes the rows of [users] whose [id] loosely
    equals the parsed route parameter, when the parameter holds no
    operator character. *)
Theorem delete_user_removes_equal_ids :
  forall (db : engine) (id : string) (tb : table),
    operand id = true -> clause id ->
    tables_get (tables db) "users" = Own tb ->
    let same row := loose_eq (obj_get row "id") (VPrim (_parseValue (trim id))) in
    WebServer.delete_user db id
    = (mkEngine
         (replace "users"
            (mkTable (columns tb) (constraints tb)
                     (filter (fun row => negb (same row)) (rows tb)) (indexes tb))
            (tables db))
         (history db ++ ["DELETE FROM users WHERE id = " ++ id]%string),
       Returned (RMessage (RowsDeleted (List.length (filter same (rows tb)))))).
Proof.
  intros db id tb Ho [Hl Ht] Htb same. unfold WebServer.delete_user.
  assert (Hw : word "users") by (split; [discriminate | reflexivity]).
  assert (Hc : clause ("id = " ++ id)).
  { split; [rewrite one_line_append, Hl; reflexivity | apply tidy_append, Ht]. }
  assert (Hev : forall row, _evaluateWhere row ("id = " ++ id) = same row).
  { intros row.
    assert (Hr : operand (" " ++ id) = true).
    { unfold operand in *. cbn [append lacks]. exact Ho. }
    pose proof (simple_condition row "id " (" " ++ id) "="
                  (or_intror (or_intror (or_intror (or_intror (or_introl eq_refl)))))
                  eq_refl Hr) as H.
    change ("id " ++ "=" ++ " " ++ id)%string with ("id = " ++ id)%string in H.
    unfold compare_with in H. change (String.eqb "=" "=") with true in H. cbv iota in H.
    inversion H as [H']. symmetry. exact H'. }
  change ("DELETE FROM users WHERE id = " ++ id)%string
    with ("DELETE FROM " ++ "users" ++ " WHERE " ++ "id = " ++ id)%string.
  rewrite (delete_where_outcome db "users" ("id = " ++ id) tb Hw Hc Htb).
  rewrite (filter_ext _ _ Hev).
  rewrite (filter_ext (fun row => negb (_evaluateWhere row ("id = " ++ id)))
                      (fun row => negb (same row)) (fun row => f_equal negb (Hev row))).
  reflexivity.
Qed.

Lemma delete_user_removes_equal_ids_witness :
  WebServer.delete_user users_db "2"
  = (mkEngine
       (replace "users"
          (mkTable (columns users_table) (constraints users_table)
                   (filter (fun row =>
                              negb (loose_eq (obj_get row "id")
                                             (VPrim (_parseValue (trim "2")))))
                           (rows users_table))
                   (indexes users_table))
          (tables users_db))
       (history users_db ++ ["DELETE FROM users WHERE id = 2"]),
     Returned (RMessage (RowsDeleted
       (List.length (filter (fun row => loose_eq (obj_get row "id")
                                                 (VPrim (_parseValue (trim "2"))))
                            (rows users_table)))))).
Proof.
  apply (delete_user_removes_equal_ids users_db "2" users_table).
  - reflexivity.
  - split; reflexivity.
  - vm_compute. reflexivity.
Defined.

(** ** What a statement can change *)

Section Steps.

Lemma createTable_step (sql : string) (c c' : catalog) (x : error + message) :
  _createTable sql c = (c', x) -> step c c'.
Proof.
  unfold _createTable.
  destruct (exec create_re sql) as [m|]; monad_unfold;
    [|intros E; inversion E; subst; apply Unchanged].
  destruct (tables_get c (group 1 m)) eqn:Et;
    try (intros E; inversion E; subst; apply Unchanged).
  destruct (fold_left column_definition _ _) as [e|[cols cstr]];
    intros E; inversion E; subst; [apply Unchanged|].
  apply Created. exact Et.
Qed.

Lemma insert_step (sql : string) (c c' : catalog) (x : error + message) :
  _insert sql c = (c', x) -> step c c'.
Proof.
  unfold _insert.
  destruct (exec insert_re sql) as [m|]; monad_unfold;
    [|intros E; inversion E; subst; apply Unchanged].
  destruct (tables_get c (group 1 m)) as [t| |] eqn:Et;
    try (intros E; inversion E; subst; apply Unchanged).
  destruct (negb _); [intros E; inversion E; subst; apply Unchanged|].
  destruct (primary_key t) as [[pkCol pkIndex]|];
    [destruct (existsb _ _)|];
    intros E; inversion E; subst;
    first [apply Unchanged | apply Rewritten; exact Et].
Qed.

Lemma update_step (sql : string) (c c' : catalog) (x : error + message) :
  _update sql c = (c', x) -> step c c'.
Proof.
  unfold _update.
  destruct (exec update_re sql) as [m|]; monad_unfold;
    [|intros E; inversion E; subst; apply Unchanged].
  destruct (tables_get c (group 1 m)) as [t| |] eqn:Et.
  - destruct (fold_left assignment _ _) as [e|updates];
      intros E; inversion E; subst; [apply Unchanged|].
    apply Rewritten. exact Et.
  - destruct (fold_left assignment _ _); intros E; inversion E; subst; apply Unchanged.
  - intros E; inversion E; subst; apply Unchanged.
Qed.

Lemma delete_step (sql : string) (c c' : catalog) (x : error + message) :
  _delete sql c = (c', x) -> step c c'.
Proof.
  unfold _delete.
  destruct (exec delete_re sql) as [m|]; monad_unfold;
    [|intros E; inversion E; subst; apply Unchanged].
  destruct (tables_get c (group 1 m)) as [t| |] eqn:Et;
    try (intros E; inversion E; subst; apply Unchanged).
  intros E; inversion E; subst. apply Rewritten. exact Et.
Qed.

Lemma dropTable_step (sql : string) (c c' : catalog) (x : error + message) :
  _dropTable sql c = (c', x) -> step c c'.
Proof.
  unfold _dropTable.
  destruct (exec drop_re sql) as [m|]; monad_unfold;
    [|intros E; inversion E; subst; apply Unchanged].
  destruct (tables_get c (group 1 m));
    intros E; inversion E; subst; first [apply Unchanged | apply Dropped].
Qed.

Lemma execute_step (db : engine) (sql : string) :
  step (tables db) (tables (fst (execute db sql))).
Proof.
  unfold execute.
  destruct (words (normalize sql)) as [|p0 ps]; [apply Unchanged|].
  destruct (dispatch (toUpperCase p0) (normalize sql) (tables db)) as [c x] eqn:D.
  assert (Hc : step (tables db) c).
  { revert D. unfold dispatch.
    destruct (String.eqb (toUpperCase p0) "CREATE").
    { intros D. apply as_result_state in D. destruct D as [y D].
      exact (createTable_step _ _ _ _ D). }
    destruct (String.eqb (toUpperCase p0) "INSERT").
    { intros D. apply as_result_state in D. destruct D as [y D].
      exact (insert_step _ _ _ _ D). }
    destruct (String.eqb (toUpperCase p0) "SELECT").
    { intros D. rewrite (select_read_only _ _ _ _ D). apply Unchanged. }
    destruct (String.eqb (toUpperCase p0) "UPDATE").
    { intros D. apply as_result_state in D. destruct D as [y D].
      exact (update_step _ _ _ _ D). }
    destruct (String.eqb (toUpperCase p0) "DELETE").
    { intros D. apply as_result_state in D. destruct D as [y D].
      exact (delete_step _ _ _ _ D). }
    destruct (String.eqb (toUpperCase p0) "DROP").
    { intros D. apply as_result_state in D. destruct D as [y D].
      exact (dropTable_step _ _ _ _ D). }
    destruct (String.eqb (toUpperCase p0) "SHOW").
    { intros D. rewrite (showTables_read_only _ _ _ D). apply Unchanged. }
    destruct (String.eqb (toUpperCase p0) "DESCRIBE").
    { intros D. rewrite (describe_read_only _ _ _ _ D). apply Unchanged. }
    intros D. inversion D; subst. apply Unchanged. }
  destruct x; exact Hc.
Qed.

Lemma step_frame (c c' : catalog) :
  step c c' -> exists name, forall n, n <> name -> tables_get c' n = tables_get c n.
Proof.
  intros [|name t rs Ht|name cols cstr Ht|name].
  - exists EmptyString. reflexivity.
  - exists name. intros n Hn. rewrite tables_get_replace.
    apply String.eqb_neq in Hn. rewrite Hn. reflexivity.
  - exists name. intros n Hn. rewrite tables_get_own_put.
    apply String.eqb_neq in Hn. rewrite Hn. reflexivity.
  - exists name. intros n Hn. rewrite tables_get_own_delete.
    apply String.eqb_neq in Hn. rewrite Hn. reflexivity.
Qed.

Lemma step_schema (c c' : catalog) (n : string) (tb tb' : table) :
  step c c' ->
  tables_get c n = Own tb -> tables_get c' n = Own tb' ->
  columns tb' = columns tb /\ constraints tb' = constraints tb /\ indexes tb' = indexes tb.
Proof.
  intros [|name t rs Ht|name cols cstr Ht|name] H H'.
  - rewrite H in H'. inversion H'. auto.
  - rewrite tables_get_replace in H'.
    destruct (String.eqb n name) eqn:E.
    + apply String.eqb_eq in E. subst n. rewrite Ht in H, H'.
      inversion H; inversion H'; subst. auto.
    + rewrite H in H'. inversion H'. auto.
  - rewrite tables_get_own_put in H'.
    destruct (String.eqb n name) eqn:E.
    + apply String.eqb_eq in E. subst n. rewrite Ht in H. discriminate.
    + rewrite H in H'. inversion H'. auto.
  - rewrite tables_get_own_delete in H'.
    destruct (String.eqb n name) eqn:E.
    + destruct (inherited name); discriminate.
    + rewrite H in H'. inversion H'. auto.
Qed.

End Steps.

(** A statement changes at most one table: there is a name such that
    every other name is looked up after the statement as before it. *)
Theorem statement_changes_one_table :
  forall (db : engine) (sql : string),
    exists name, forall n,
      n <> name ->
      tables_get (tables (fst (execute db sql))) n = tables_get (tables db) n.
Proof. intros db sql. apply step_frame, execute_step. Qed.

(** No statement alters the definition of a table: a table that exists
    before and after a statement has the same columns, constraints and
    indexes. *)
Theorem schema_is_immutable :
  forall (db : engine) (sql n : string) (tb tb' : table),
    tables_get (tables db) n = Own tb ->
    tables_get (tables (fst (execute db sql))) n = Own tb' ->
    columns tb' = columns tb /\ constraints tb' = constraints tb /\
    indexes tb' = indexes tb.
Proof. intros db sql n tb tb'. apply step_schema, execute_step. Qed.

Lemma schema_is_immutable_witness :
  columns (mkTable (columns users_table) (constraints users_table) [] (indexes users_table))
  = columns users_table /\
  constraints (mkTable (columns users_table) (constraints users_table) [] (indexes users_table))
  = constraints users_table /\
  indexes (mkTable (columns users_table) (constraints users_table) [] (indexes users_table))
  = indexes users_table.
Proof.
  apply (schema_is_immutable users_db "DELETE FROM users" "users").
  - vm_compute. reflexivity.
  - vm_compute. reflexivity.
Defined.
